(** * The bulk job runner of the Mailersend dashboard

    A shallow embedding of the two React context providers that drive bulk
    jobs, [src/contexts/BulkJobContext.tsx] (bulk e-mail send) and its sibling
    for audience tracking (the [TrackEventProvider]), together with the
    properties of the job state machine that the specification states.

    The providers keep two pieces of shared state:
    - [jobs], the React state [Record<string, JobState>], only ever changed
      through [setJobs] with a functional updater;
    - [controllers], a ref holding one mutable [{isPaused, isStopped}] object
      per account.  The run loop of [startJob] keeps a reference to such an
      object across its awaits, so controller objects live in a heap and
      are referred to by location.

    An [async] function runs synchronously up to its next [await]; the model
    therefore executes a run loop from one suspension point to the next as
    one atomic step, and interleaves such steps with the calls made by the
    presentation layer and with the elapsed-time ticker. *)

From Stdlib Require Import ZArith NArith Lia Bool.
From Stdlib Require Import Ascii String.
From stdpp Require Import base option list gmap strings pretty.

Local Open Scope string_scope.
Local Open Scope list_scope.
Local Open Scope Z_scope.
Local Open Scope nat_scope.

(** ** Strings

    A JavaScript string is modelled as a [string] of code units below 256. *)

Definition newline : ascii := "010"%char.

(** [WhiteSpace] and [LineTerminator] code units, as [String.prototype.trim]
    strips them: TAB, LF, VT, FF, CR, SP and NBSP. *)
Definition isWhiteSpace (c : ascii) : bool :=
  let n := nat_of_ascii c in
  (Nat.eqb n 9 || Nat.eqb n 10 || Nat.eqb n 11 || Nat.eqb n 12 || Nat.eqb n 13
   || Nat.eqb n 32 || Nat.eqb n 160)%bool.

(** [s.split(sep)] for a one-character separator. *)
Fixpoint split (sep : ascii) (s : string) : list string :=
  match s with
  | EmptyString => [EmptyString]
  | String c s' =>
      if Ascii.eqb c sep then EmptyString :: split sep s'
      else match split sep s' with
           | [] => [String c EmptyString]
           | piece :: rest => String c piece :: rest
           end
  end.

(** The inverse operation, [pieces.join(sep)]. *)
Fixpoint join (sep : ascii) (pieces : list string) : string :=
  match pieces with
  | [] => EmptyString
  | [p] => p
  | p :: rest => p +:+ String sep (join sep rest)
  end.

Fixpoint trimStart (s : string) : string :=
  match s with
  | EmptyString => EmptyString
  | String c s' => if isWhiteSpace c then trimStart s' else s
  end.

Fixpoint trimEnd (s : string) : string :=
  match s with
  | EmptyString => EmptyString
  | String c s' =>
      match trimEnd s' with
      | EmptyString => if isWhiteSpace c then EmptyString else String c EmptyString
      | t => String c t
      end
  end.

Definition trim (s : string) : string := trimEnd (trimStart s).

(** [e.length > 0] *)
Definition nonEmpty (s : string) : bool :=
  match s with EmptyString => false | String _ _ => true end.

(** [job.emailList.split('\n').map(e => e.trim()).filter(e => e.length > 0)] *)
Definition parseEmails (emailList : string) : list string :=
  List.filter nonEmpty (List.map trim (split newline emailList)).

(** [!s] on a string: the empty string is the only falsy one. *)
Definition falsy (s : string) : bool := negb (nonEmpty s).

(** [s || fallback] *)
Definition orElse (s fallback : string) : string :=
  if nonEmpty s then s else fallback.

Definition allWhiteSpace (s : string) : Prop :=
  Forall (fun c => isWhiteSpace c = true) (list_ascii_of_string s).

Fixpoint contains (c : ascii) (s : string) : bool :=
  match s with
  | EmptyString => false
  | String d s' => (Ascii.eqb d c || contains c s')%bool
  end.

Definition firstChar (s : string) : option ascii :=
  match s with EmptyString => None | String c _ => Some c end.

Fixpoint lastChar (s : string) : option ascii :=
  match s with
  | EmptyString => None
  | String c EmptyString => Some c
  | String _ s' => lastChar s'
  end.

(** ** JSON values and the two built-ins the providers call

    [JSON.parse] and [JSON.stringify] belong to the language, not to the
    repository; they are an interface the model is parameterised over. *)

#[warnings="-register-all"] Inductive Json :=
| JNull
| JBool (b : bool)
| JNumber (z : Z)
| JString (s : string)
| JArray (items : list Json)
| JObject (members : list (string * Json)).

Class JSON := {
  (** [JSON.parse(text)]; [None] when it throws. *)
  JSON_parse : string -> option Json;
  (** [JSON.stringify(value, null, 2)] *)
  JSON_stringify : Json -> string
}.

(** ** The network

    The body of the POST a run loop issues for one recipient. *)
Inductive Request :=
| POST_send_email (accountId to subject content : string)
    (fromEmail fromName : option string)
| POST_track_event (accountId event email : string) (data : Json) (subscribed : bool).

(** What the [try] block around [fetch] and [response.json()] ends with. *)
Inductive FetchOutcome :=
| Responded (ok : bool) (resultData : Json)
| Threw (message : string).

(** ** Notifications *)

Inductive ToastKind := toast_error | toast_info | toast_success.

Definition Toast : Type := ToastKind * string.

(** ** Job records

    The counters of a record only ever count up from zero and are natural
    numbers; [delay] and [countdown] are integers, as the delay inputs of the
    pages produce them ([parseInt(e.target.value) || 0]), negative values
    included. *)

Inductive Status := idle | processing | paused | completed | stopped | waiting.

Inductive ResultStatus := Success | Error.

Module SendResult.
Record t := mk {
  id : nat;
  email : string;
  status : ResultStatus;
  response : string
}.
End SendResult.

Record Progress := { current : nat; total : nat }.

Record Stats := { success : nat; fail : nat }.

(** What differs between the two providers: the payload fields of the job
    record, their validation in [startJob], the request sent per recipient,
    whether the stop check that follows the delay phase writes the status,
    and the wording of the notices.  Everything else in the two source files
    is the same code, embedded once over this interface. *)
Record Provider := {
  Inputs : Type;
  InputField : Type;
  defaultInputs : Inputs;
  assignInput : Inputs -> InputField -> Inputs;
  Prepared : Type;
  checkInputs : Inputs -> string + Prepared;
  buildRequest : string -> Inputs -> Prepared -> string -> Request;
  writesStoppedAfterDelay : bool;
  noticeStarted : string;
  noticePaused : string;
  noticeResumed : string;
  noticeCompleted : string
}.

Section Runner.
Context {P : Provider} {json : JSON}.

Record JobState := {
  emailList : string;
  inputs : Inputs P;
  delay : Z;
  status : Status;
  progress : Progress;
  results : list SendResult.t;
  stats : Stats;
  elapsedSeconds : nat;
  countdown : Z
}.

Definition defaultJobState : JobState := {|
  emailList := "";
  inputs := defaultInputs P;
  delay := 1;
  status := idle;
  progress := {| current := 0; total := 0 |};
  results := [];
  stats := {| success := 0; fail := 0 |};
  elapsedSeconds := 0;
  countdown := 0
|}.

(** One [key: value] of a [Partial<JobState>] object literal. *)
Inductive Field :=
| F_emailList (v : string)
| F_input (v : InputField P)
| F_delay (v : Z)
| F_status (v : Status)
| F_progress (v : Progress)
| F_results (v : list SendResult.t)
| F_stats (v : Stats)
| F_elapsedSeconds (v : nat)
| F_countdown (v : Z).

Definition assign (j : JobState) (f : Field) : JobState :=
  match f with
  | F_emailList v =>
      {| emailList := v; inputs := inputs j; delay := delay j; status := status j;
         progress := progress j; results := results j; stats := stats j;
         elapsedSeconds := elapsedSeconds j; countdown := countdown j |}
  | F_input v =>
      {| emailList := emailList j; inputs := assignInput P (inputs j) v;
         delay := delay j; status := status j;
         progress := progress j; results := results j; stats := stats j;
         elapsedSeconds := elapsedSeconds j; countdown := countdown j |}
  | F_delay v =>
      {| emailList := emailList j; inputs := inputs j; delay := v; status := status j;
         progress := progress j; results := results j; stats := stats j;
         elapsedSeconds := elapsedSeconds j; countdown := countdown j |}
  | F_status v =>
      {| emailList := emailList j; inputs := inputs j; delay := delay j; status := v;
         progress := progress j; results := results j; stats := stats j;
         elapsedSeconds := elapsedSeconds j; countdown := countdown j |}
  | F_progress v =>
      {| emailList := emailList j; inputs := inputs j; delay := delay j; status := status j;
         progress := v; results := results j; stats := stats j;
         elapsedSeconds := elapsedSeconds j; countdown := countdown j |}
  | F_results v =>
      {| emailList := emailList j; inputs := inputs j; delay := delay j; status := status j;
         progress := progress j; results := v; stats := stats j;
         elapsedSeconds := elapsedSeconds j; countdown := countdown j |}
  | F_stats v =>
      {| emailList := emailList j; inputs := inputs j; delay := delay j; status := status j;
         progress := progress j; results := results j; stats := v;
         elapsedSeconds := elapsedSeconds j; countdown := countdown j |}
  | F_elapsedSeconds v =>
      {| emailList := emailList j; inputs := inputs j; delay := delay j; status := status j;
         progress := progress j; results := results j; stats := stats j;
         elapsedSeconds := v; countdown := countdown j |}
  | F_countdown v =>
      {| emailList := emailList j; inputs := inputs j; delay := delay j; status := status j;
         progress := progress j; results := results j; stats := stats j;
         elapsedSeconds := elapsedSeconds j; countdown := v |}
  end.

(** [{ ...base, ...data }] *)
Definition spread (base : JobState) (data : list Field) : JobState :=
  fold_left assign data base.

(** ** Run-control objects and run loops *)

Record Controller := { isPaused : bool; isStopped : bool }.

(** Where an invocation of [startJob] is suspended: in the 500 ms poll of
    the pause loop before the delay (line 162), in the 500 ms poll of the
    pause loop inside the countdown (line 174), in a second of the countdown
    (line 177), or in the [fetch] and [response.json()] of a recipient
    (lines 193-206); or it has returned.  A timer carries the time at which
    it is due, the countdown the value of the local [remaining]. *)
Inductive PC :=
| AwaitPausePoll (due : N)
| AwaitCountdownPausePoll (remaining : Z) (due : N)
| AwaitCountdownSecond (remaining : Z) (due : N)
| AwaitFetch
| Returned.

(** The local variables of one invocation of [startJob]: [job] is the
    record [getJob] returned at the call, [prepared] what validation
    computed ([parsedData] in the track provider), [ctrl] the controller
    object the current iteration read from the ref. *)
Record Loop := {
  accountId : string;
  job : JobState;
  prepared : Prepared P;
  emails : list string;
  i : nat;
  ctrl : option nat;
  pc : PC
}.

(** ** The provider's state, with the clock and the observable effects

    [now] is the time in milliseconds; [jobs] the React state;
    [controllers] the ref, from account to the location of its controller
    object in [heap]; [loops] the invocations of [startJob] that got past
    validation, in call order; [requests] the requests sent so far, each
    with the index of the loop that sent it; [toasts] the notices shown. *)
Record World := {
  now : N;
  jobs : gmap string JobState;
  controllers : gmap string nat;
  heap : list Controller;
  loops : list Loop;
  requests : list (nat * Request);
  toasts : list Toast
}.

Definition with_now (t : N) (w : World) : World :=
  {| now := t; jobs := jobs w; controllers := controllers w; heap := heap w;
     loops := loops w; requests := requests w; toasts := toasts w |}.

Definition with_jobs (m : gmap string JobState) (w : World) : World :=
  {| now := now w; jobs := m; controllers := controllers w; heap := heap w;
     loops := loops w; requests := requests w; toasts := toasts w |}.

Definition with_controllers (m : gmap string nat) (w : World) : World :=
  {| now := now w; jobs := jobs w; controllers := m; heap := heap w;
     loops := loops w; requests := requests w; toasts := toasts w |}.

Definition with_heap (h : list Controller) (w : World) : World :=
  {| now := now w; jobs := jobs w; controllers := controllers w; heap := h;
     loops := loops w; requests := requests w; toasts := toasts w |}.

Definition with_loops (ls : list Loop) (w : World) : World :=
  {| now := now w; jobs := jobs w; controllers := controllers w; heap := heap w;
     loops := ls; requests := requests w; toasts := toasts w |}.

Definition with_requests (rs : list (nat * Request)) (w : World) : World :=
  {| now := now w; jobs := jobs w; controllers := controllers w; heap := heap w;
     loops := loops w; requests := rs; toasts := toasts w |}.

Definition with_toasts (ts : list Toast) (w : World) : World :=
  {| now := now w; jobs := jobs w; controllers := controllers w; heap := heap w;
     loops := loops w; requests := requests w; toasts := ts |}.

Definition with_i (n : nat) (L : Loop) : Loop :=
  {| accountId := accountId L; job := job L; prepared := prepared L;
     emails := emails L; i := n; ctrl := ctrl L; pc := pc L |}.

Definition with_ctrl (c : option nat) (L : Loop) : Loop :=
  {| accountId := accountId L; job := job L; prepared := prepared L;
     emails := emails L; i := i L; ctrl := c; pc := pc L |}.

Definition with_pc (p : PC) (L : Loop) : Loop :=
  {| accountId := accountId L; job := job L; prepared := prepared L;
     emails := emails L; i := i L; ctrl := ctrl L; pc := p |}.

(** [useState({})] and [useRef({})]: the provider as mounted. *)
Definition mounted : World :=
  {| now := 0%N; jobs := ∅; controllers := ∅; heap := [];
     loops := []; requests := []; toasts := [] |}.

(** ** The job state store *)

(** Line 70: [jobs[accountId] || { ...defaultJobState }] *)
Definition getJob (accountId : string) (w : World) : JobState :=
  default defaultJobState (jobs w !! accountId).

(** Lines 72-77:
    [setJobs(prev => ({ ...prev, [accountId]: { ...(prev[accountId] || defaultJobState), ...data } }))] *)
Definition updateJobData (accountId : string) (data : list Field) (w : World) : World :=
  with_jobs (<[accountId := spread (default defaultJobState (jobs w !! accountId)) data]> (jobs w)) w.

Definition toast (k : ToastKind) (message : string) (w : World) : World :=
  with_toasts (toasts w ++ [(k, message)]) w.

(** Lines 79-100, the callback of the one-second [setInterval]: every job
    whose status is [processing] or [waiting] gets one more elapsed second.
    When the interval fires is left open. *)
Definition tickJob (j : JobState) : JobState :=
  match status j with
  | processing | waiting => assign j (F_elapsedSeconds (elapsedSeconds j + 1))
  | _ => j
  end.

Definition tick (w : World) : World := with_jobs (tickJob <$> jobs w) w.

(** ** Pause, resume and stop (lines 102-124) *)

(** [controllers.current[accountId].<flag> = ...], on the object the ref
    currently holds for the account. *)
Definition mutate (accountId : string) (f : Controller -> Controller) (w : World) : World :=
  match controllers w !! accountId with
  | Some l =>
      match heap w !! l with
      | Some c => with_heap (<[l := f c]> (heap w)) w
      | None => w
      end
  | None => w
  end.

(** [if (controllers.current[accountId])] *)
Definition hasController (accountId : string) (w : World) : bool :=
  match controllers w !! accountId with Some _ => true | None => false end.

Definition pauseJob (accountId : string) (w : World) : World :=
  if hasController accountId w then
    let w := mutate accountId (fun c => {| isPaused := true; isStopped := isStopped c |}) w in
    let w := updateJobData accountId [F_status paused] w in
    toast toast_info (noticePaused P) w
  else w.

Definition resumeJob (accountId : string) (w : World) : World :=
  if hasController accountId w then
    let w := mutate accountId (fun c => {| isPaused := false; isStopped := isStopped c |}) w in
    let w := updateJobData accountId [F_status processing] w in
    toast toast_info (noticeResumed P) w
  else w.

Definition stopJob (accountId : string) (w : World) : World :=
  if hasController accountId w then
    let w := mutate accountId (fun c => {| isPaused := isPaused c; isStopped := true |}) w in
    let w := mutate accountId (fun c => {| isPaused := false; isStopped := isStopped c |}) w in
    updateJobData accountId [F_status stopped] w
  else w.

(** ** The run loop of [startJob]

    The body of [startJob] is cut at its awaits.  Each function below runs
    one stretch of it, from the program point in its name to the next await
    or to the return, on the local variables [L] of the invocation and the
    shared world; line numbers are those of [BulkJobContext.tsx], and the
    track provider has the same code a few lines earlier.

    [ctrl?.isStopped] and [ctrl?.isPaused] on the controller object a loop
    holds; [undefined] is falsy. *)
Definition flag (f : Controller -> bool) (c : option nat) (w : World) : bool :=
  match c with
  | Some l => match heap w !! l with Some o => f o | None => false end
  | None => false
  end.

(** Lines 253-256, after the [for] loop:
    [if (!controllers.current[accountId]?.isStopped) { completed }]. *)
Definition afterLoop (L : Loop) (w : World) : Loop * World :=
  let w :=
    if flag isStopped (controllers w !! accountId L) w then w
    else toast toast_success (noticeCompleted P)
           (updateJobData (accountId L) [F_status completed] w) in
  (with_pc Returned L, w).

(** Lines 184-204: the stop check that follows the delay phase -- which
    writes the status in the send provider and only breaks in the track
    provider -- then the [fetch] for [emails[i]], at which the loop
    suspends.  The loop body only runs under the guard [i < emails.length],
    so the lookup succeeds. *)
Definition tryFetch (k : nat) (L : Loop) (w : World) : Loop * World :=
  if flag isStopped (ctrl L) w then
    afterLoop L
      (if writesStoppedAfterDelay P
       then updateJobData (accountId L) [F_status stopped] w else w)
  else
    match emails L !! i L with
    | Some email =>
        (with_pc AwaitFetch L,
         with_requests
           (requests w ++
            [(k, buildRequest P (accountId L) (inputs (job L)) (prepared L) email)]) w)
    | None => (with_pc Returned L, w)
    end.

(** Line 181, leaving [while (remaining > 0)]:
    [updateJobData(accountId, { status: 'processing', countdown: 0 })]. *)
Definition finishDelay (k : nat) (L : Loop) (w : World) : Loop * World :=
  tryFetch k L (updateJobData (accountId L) [F_status processing; F_countdown 0] w).

(** Lines 172-177, inside the countdown, past its stop check: the inner
    pause loop, which a stop breaks, then the one-second timer. *)
Definition countdownPause (remaining : Z) (L : Loop) (w : World) : Loop * World :=
  if flag isPaused (ctrl L) w && negb (flag isStopped (ctrl L) w) then
    (with_pc (AwaitCountdownPausePoll remaining (now w + 500)) L, w)
  else
    (with_pc (AwaitCountdownSecond remaining (now w + 1000)) L, w).

(** Lines 170-171, the head of [while (remaining > 0)] and its stop check. *)
Definition countdownHead (k : nat) (remaining : Z) (L : Loop) (w : World) : Loop * World :=
  if (0 <? remaining)%Z then
    if flag isStopped (ctrl L) w then finishDelay k L w
    else countdownPause remaining L w
  else finishDelay k L w.

(** Lines 166-168: [if (i > 0 && job.delay > 0) { ... }] *)
Definition delayPhase (k : nat) (L : Loop) (w : World) : Loop * World :=
  if (0 <? i L) && (0 <? delay (job L))%Z then
    countdownHead k (delay (job L)) L
      (updateJobData (accountId L) [F_status waiting; F_countdown (delay (job L))] w)
  else tryFetch k L w.

(** Lines 160-164:
    [while (ctrl?.isPaused) { if (ctrl?.isStopped) break; await ... }]
    followed by [if (ctrl?.isStopped) break;]. *)
Definition pauseLoop (k : nat) (L : Loop) (w : World) : Loop * World :=
  if flag isPaused (ctrl L) w && negb (flag isStopped (ctrl L) w) then
    (with_pc (AwaitPausePoll (now w + 500)) L, w)
  else if flag isStopped (ctrl L) w then afterLoop L w
  else delayPhase k L w.

(** Lines 152-158, the head of the [for] loop with loop variable [i L]:
    the guard, [const ctrl = controllers.current[accountId]] and the first
    stop check. *)
Definition iteration (k : nat) (L : Loop) (w : World) : Loop * World :=
  if i L <? length (emails L) then
    let L := with_ctrl (controllers w !! accountId L) L in
    if flag isStopped (ctrl L) w then
      afterLoop L (updateJobData (accountId L) [F_status stopped] w)
    else pauseLoop k L w
  else afterLoop L w.

(** Lines 206-207 and 239-244: the result the [try] block computes for one
    recipient; the [catch] branch synthesises
    [{ error: error.message || "Network Error" }]. *)
Definition outcomeResult (id : nat) (email : string) (o : FetchOutcome) : SendResult.t :=
  match o with
  | Responded ok resultData =>
      SendResult.mk id email (if ok then Success else Error) (JSON_stringify resultData)
  | Threw message =>
      SendResult.mk id email Error
        (JSON_stringify (JObject [("error", JString (orElse message "Network Error"))]))
  end.

Definition countOutcome (s : Stats) (r : ResultStatus) : Stats :=
  match r with
  | Success => {| success := success s + 1; fail := fail s |}
  | Error => {| success := success s; fail := fail s + 1 |}
  end.

(** Lines 209-227 and 230-249: the updater both branches pass to
    [setJobs]; it reads [prev[accountId].stats] and so throws when the
    account has no record. *)
Definition recordOutcome (accountId : string) (r : SendResult.t) (w : World) : option World :=
  currentJob ← jobs w !! accountId;
  Some (with_jobs
          (<[accountId :=
               spread currentJob
                 [F_stats (countOutcome (stats currentJob) (SendResult.status r));
                  F_progress {| current := SendResult.id r;
                                total := total (progress currentJob) |};
                  F_results (r :: results currentJob)]]> (jobs w)) w).

(** Lines 126-152: [startJob(accountId, ...)] up to its first [await].
    [getJob] closes over the [jobs] of the render that created this
    [startJob], so every [getJob(accountId)] of one invocation returns the
    record read here; the presentation layer calls the [startJob] of the
    latest render, so that record is the current one. *)
Definition startJob (accountId : string) (w : World) : World :=
  let job := getJob accountId w in
  let emails := parseEmails (emailList job) in
  if length emails =? 0 then toast toast_error "No emails found" w
  else
    match checkInputs P (inputs job) with
    | inl message => toast toast_error message w
    | inr prep =>
        let w := with_controllers (<[accountId := length (heap w)]> (controllers w))
                   (with_heap (heap w ++ [{| isPaused := false; isStopped := false |}]) w) in
        let w := updateJobData accountId
                   [F_status processing;
                    F_results [];
                    F_stats {| success := 0; fail := 0 |};
                    F_progress {| current := 0; total := length emails |};
                    F_elapsedSeconds 0;
                    F_countdown 0] w in
        let w := toast toast_success (noticeStarted P) w in
        let k := length (loops w) in
        let L := {| accountId := accountId; job := job; prepared := prep;
                    emails := emails; i := 0; ctrl := None; pc := Returned |} in
        let r := iteration k L w in
        with_loops (loops (snd r) ++ [fst r]) (snd r)
    end.

(** ** Events

    What can happen to a mounted provider: a call from the presentation
    layer, a tick of the elapsed-time interval, the passing of time, the
    timer a run loop awaits firing, and the network answering a loop. *)
Inductive Event :=
| Edit (accountId : string) (data : list Field)
| Start (accountId : string)
| Pause (accountId : string)
| Resume (accountId : string)
| Stop (accountId : string)
| Tick
| Elapse (ms : N)
| Wake (k : nat)
| Reply (k : nat) (o : FetchOutcome).

(** The fields the pages edit through [updateJobData]: the recipient list,
    the payload and the delay ([src/pages/TrackEvent.tsx] passes
    [emailList], [eventName], [eventData] and [delay]). *)
Definition isInput (f : Field) : bool :=
  match f with
  | F_emailList _ | F_input _ | F_delay _ => true
  | _ => false
  end.

Definition store (k : nat) (r : Loop * World) : World :=
  with_loops (<[k := fst r]> (loops (snd r))) (snd r).

(** The continuation of loop [k] after a [setTimeout] promise; a timer does
    not fire before it is due. *)
Definition wake (k : nat) (w : World) : option World :=
  L ← loops w !! k;
  match pc L with
  | AwaitPausePoll due =>
      if (due <=? now w)%N then Some (store k (pauseLoop k L w)) else None
  | AwaitCountdownPausePoll remaining due =>
      if (due <=? now w)%N then Some (store k (countdownPause remaining L w)) else None
  | AwaitCountdownSecond remaining due =>
      if (due <=? now w)%N then
        let remaining := (remaining - 1)%Z in
        Some (store k (countdownHead k remaining L
                         (updateJobData (accountId L) [F_countdown remaining] w)))
      else None
  | AwaitFetch | Returned => None
  end.

(** The continuation of loop [k] after [fetch] and [response.json()]:
    record the outcome under [id = i + 1], then [i++]. *)
Definition reply (k : nat) (o : FetchOutcome) (w : World) : option World :=
  L ← loops w !! k;
  match pc L with
  | AwaitFetch =>
      email ← emails L !! i L;
      w ← recordOutcome (accountId L) (outcomeResult (i L + 1) email o) w;
      Some (store k (iteration k (with_i (i L + 1) L) w))
  | _ => None
  end.

(** One event; [None] when it cannot happen in [w]. *)
Definition step (w : World) (e : Event) : option World :=
  match e with
  | Edit accountId data =>
      if forallb isInput data then Some (updateJobData accountId data w) else None
  | Start accountId => Some (startJob accountId w)
  | Pause accountId => Some (pauseJob accountId w)
  | Resume accountId => Some (resumeJob accountId w)
  | Stop accountId => Some (stopJob accountId w)
  | Tick => Some (tick w)
  | Elapse ms => Some (with_now (now w + ms)%N w)
  | Wake k => wake k w
  | Reply k o => reply k o w
  end.

Fixpoint run (es : list Event) (w : World) : option World :=
  match es with
  | [] => Some w
  | e :: es => w ← step w e; run es w
  end.

Definition reachable (w : World) : Prop := exists es, run es mounted = Some w.

End Runner.

Arguments JobState : clear implicits.
Arguments Field : clear implicits.
Arguments Loop : clear implicits.
Arguments World : clear implicits.
Arguments Event : clear implicits.

(** ** The two providers *)

Record SendInputs := {
  subject : string;
  content : string;
  fromEmail : option string;
  fromName : option string
}.

Inductive SendField :=
| I_subject (v : string)
| I_content (v : string)
| I_fromEmail (v : option string)
| I_fromName (v : option string).

Definition assignSend (x : SendInputs) (f : SendField) : SendInputs :=
  match f with
  | I_subject v =>
      {| subject := v; content := content x; fromEmail := fromEmail x; fromName := fromName x |}
  | I_content v =>
      {| subject := subject x; content := v; fromEmail := fromEmail x; fromName := fromName x |}
  | I_fromEmail v =>
      {| subject := subject x; content := content x; fromEmail := v; fromName := fromName x |}
  | I_fromName v =>
      {| subject := subject x; content := content x; fromEmail := fromEmail x; fromName := v |}
  end.

(** [BulkJobProvider] of [src/contexts/BulkJobContext.tsx]. *)
Definition BulkJobProvider : Provider := {|
  Inputs := SendInputs;
  InputField := SendField;
  defaultInputs :=
    {| subject := ""; content := ""; fromEmail := Some ""; fromName := Some "" |};
  assignInput := assignSend;
  Prepared := unit;
  checkInputs := fun x =>
    if falsy (subject x) || falsy (content x)
    then inl "Missing subject or content" else inr tt;
  buildRequest := fun accountId x _ email =>
    POST_send_email accountId email (subject x) (content x) (fromEmail x) (fromName x);
  writesStoppedAfterDelay := true;
  noticeStarted := "Job Started";
  noticePaused := "Job Paused";
  noticeResumed := "Job Resumed";
  noticeCompleted := "Job Completed"
|}.

Record TrackInputs := {
  eventName : string;
  eventData : string
}.

Inductive TrackField :=
| I_eventName (v : string)
| I_eventData (v : string).

Definition assignTrack (x : TrackInputs) (f : TrackField) : TrackInputs :=
  match f with
  | I_eventName v => {| eventName := v; eventData := eventData x |}
  | I_eventData v => {| eventName := eventName x; eventData := v |}
  end.

(** [TrackEventProvider], the audience-tracking sibling; the record
    [startJob] prepares is [parsedData]. *)
Definition TrackEventProvider {json : JSON} : Provider := {|
  Inputs := TrackInputs;
  InputField := TrackField;
  defaultInputs := {| eventName := ""; eventData := "{}" |};
  assignInput := assignTrack;
  Prepared := Json;
  checkInputs := fun x =>
    if falsy (eventName x) then inl "Event Name is required"
    else match JSON_parse (orElse (eventData x) "{}") with
         | Some parsedData => inr parsedData
         | None => inl "Invalid JSON in Event Data"
         end;
  buildRequest := fun accountId x parsedData email =>
    POST_track_event accountId (eventName x) email parsedData true;
  writesStoppedAfterDelay := false;
  noticeStarted := "Tracking Started";
  noticePaused := "Tracking Paused";
  noticeResumed := "Tracking Resumed";
  noticeCompleted := "Tracking Completed"
|}.

(** ** Worked scenarios

    A JSON implementation for the scenarios: it parses the empty object
    only and prints every value as a fixed text. *)
#[export] Instance exampleJSON : JSON := {|
  JSON_parse := fun text => if String.eqb text "{}" then Some (JObject []) else None;
  JSON_stringify := fun _ => "{...}"
|}.

(** The operator fills in the send form for account ["acc"]. *)
Definition fillForm (emailList : string) (delay : Z) : Event BulkJobProvider :=
  Edit "acc"
    [F_emailList emailList;
     F_input (P := BulkJobProvider) (I_subject "Hello");
     F_input (P := BulkJobProvider) (I_content "<p>Hi</p>");
     F_delay delay].

(** The recipient text of the specification's example. *)
Definition threeRecipients : string :=
  join newline ["a@x.com"; ""; " b@x.com "; String newline ""; "c@x.com"].

Definition after (es : list (Event BulkJobProvider)) : World BulkJobProvider :=
  default mounted (run es mounted).

(** Three recipients, two seconds of delay: the form is filled in. *)
Definition formFilled : World BulkJobProvider :=
  Eval vm_compute in after [fillForm threeRecipients 2].

(** ... the run is started, the first request is in flight. *)
Definition firstInFlight : World BulkJobProvider :=
  Eval vm_compute in after [fillForm threeRecipients 2; Start "acc"].

(** ... the first reply has arrived, the loop waits out the first second
    of the delay before the second recipient. *)
Definition firstDelay : World BulkJobProvider :=
  Eval vm_compute in
    after [fillForm threeRecipients 2; Start "acc"; Reply 0 (Responded true JNull)].

(** ... pause is called, and the first second of the delay passes. *)
Definition pausedInDelay : World BulkJobProvider :=
  Eval vm_compute in
    after [fillForm threeRecipients 2; Start "acc"; Reply 0 (Responded true JNull);
           Pause "acc"; Elapse 1000].

(** The rest of that run, uninterrupted, with a network failure for the
    second recipient. *)
Definition restOfRun : list (Event BulkJobProvider) :=
  [Reply 0 (Responded true JNull);
   Elapse 1000; Wake 0; Elapse 1000; Wake 0;
   Reply 0 (Threw "");
   Elapse 1000; Wake 0; Elapse 1000; Wake 0;
   Reply 0 (Responded true JNull)].

Definition wholeRun : list (Event BulkJobProvider) :=
  fillForm threeRecipients 2 :: Start "acc" :: restOfRun.

Definition runCompleted : World BulkJobProvider :=
  Eval vm_compute in after wholeRun.

(** That run when the two seconds of its first delay have passed: the
    request for the second recipient is in flight. *)
Definition secondInFlight : World BulkJobProvider :=
  Eval vm_compute in after (take 7 wholeRun).

(** Two recipients, no delay: start, stop while the first request is in
    flight, start again, then both requests are answered. *)
Definition restartInFlight : list (Event BulkJobProvider) :=
  [fillForm (join newline ["a@x.com"; "b@x.com"]) 0;
   Start "acc"; Stop "acc"; Start "acc";
   Reply 0 (Responded true JNull);
   Reply 1 (Responded true JNull)].

(** Two recipients, no delay, the first request in flight. *)
Definition twoInFlight : World BulkJobProvider :=
  Eval vm_compute in
    after [fillForm (join newline ["a@x.com"; "b@x.com"]) 0; Start "acc"].

(** The track provider: two recipients, one second of delay; the first
    reply has arrived, then stop is called during the delay and the timer
    fires. *)
Definition trackStopInDelay : list (Event TrackEventProvider) :=
  [Edit "acc"
     [F_emailList (join newline ["a@x.com"; "b@x.com"]);
      F_input (P := TrackEventProvider) (I_eventName "signup")];
   Start "acc";
   Reply 0 (Responded true JNull);
   Stop "acc";
   Elapse 1000; Wake 0].

(** The track provider: two recipients, one second of delay, the first
    request in flight. *)
Definition trackInFlight : World TrackEventProvider :=
  Eval vm_compute in
    default mounted
      (run [Edit "acc"
              [F_emailList (join newline ["a@x.com"; "b@x.com"]);
               F_input (P := TrackEventProvider) (I_eventName "signup")];
            Start "acc"] mounted).

(** Three recipients, one second of delay: the first reply has arrived,
    pause is called, and the only second of the delay passes. *)
Definition pausedInLastSecond : World BulkJobProvider :=
  Eval vm_compute in
    after [fillForm threeRecipients 1; Start "acc"; Reply 0 (Responded true JNull);
           Pause "acc"; Elapse 1000].

(** Two recipients, no delay, both accepted. *)
Definition twoAccepted : list (Event BulkJobProvider) :=
  [fillForm (join newline ["a@x.com"; "b@x.com"]) 0; Start "acc";
   Reply 0 (Responded true JNull); Reply 0 (Responded true JNull)].

Definition twoDone : World BulkJobProvider := Eval vm_compute in after twoAccepted.

(** The track provider behind the MailerSend variant of the proxy: two
    recipients, no delay. *)
Definition trackRefused : list (Event TrackEventProvider) :=
  [Edit "acc"
     [F_emailList (join newline ["a@x.com"; "b@x.com"]);
      F_input (P := TrackEventProvider) (I_eventName "signup");
      F_delay 0];
   Start "acc";
   Reply 0 (Responded false
              (JObject [("error", JString "Endpoint pending migration to MailerSend")]));
   Reply 0 (Responded false
              (JObject [("error", JString "Endpoint pending migration to MailerSend")]))].

(** Two recipients, one second of delay.  The run is stopped during its
    delay and started again; the first reply of the second run arrives and
    its loop enters its delay; the timer of the first run's loop fires: the
    loop finds its own token stopped and returns, and since the token the
    ref holds by then is not stopped, it writes [completed]; a third run is
    started while the loop of the second is still in its delay. *)
Definition restartAfterCompleted : list (Event BulkJobProvider) :=
  [fillForm (join newline ["a@x.com"; "b@x.com"]) 1;
   Start "acc"; Reply 0 (Responded true JNull);
   Stop "acc"; Start "acc"; Reply 1 (Responded true JNull);
   Elapse 1000; Wake 0;
   Start "acc"].


Definition thirdRunInFlight : World BulkJobProvider :=
  Eval vm_compute in after restartAfterCompleted.

(** What follows a stop of the third run: its request is answered and its
    loop returns; the timer of the second run's loop fires; the request
    that loop then sends is answered. *)
Definition afterTheStop : list (Event BulkJobProvider) :=
  [Reply 2 (Responded true JNull); Wake 1; Reply 1 (Responded true JNull)].

(** ** Predicates used in the statements *)

Section Predicates.
Context {P : Provider} {json : JSON}.

(** The fields a run loop writes through [updateJobData]. *)
Definition isDisplay (f : Field P) : bool :=
  match f with
  | F_status _ | F_countdown _ => true
  | _ => false
  end.

(** [j'] is [j] up to [status] and [countdown]. *)
Definition untouched (j j' : JobState P) : Prop :=
  emailList j' = emailList j ∧ inputs j' = inputs j ∧ delay j' = delay j
  ∧ progress j' = progress j ∧ results j' = results j ∧ stats j' = stats j
  ∧ elapsedSeconds j' = elapsedSeconds j.

(** What a stretch of a run loop for [acc] that records no outcome can do
    to the world. *)
Record loopEffect (acc : string) (w w' : World P) : Prop := {
  le_now : now w' = now w;
  le_controllers : controllers w' = controllers w;
  le_heap : heap w' = heap w;
  le_loops : loops w' = loops w;
  le_other : ∀ a, a ≠ acc → jobs w' !! a = jobs w !! a;
  le_job : untouched (getJob acc w) (getJob acc w');
  le_present : is_Some (jobs w !! acc) → is_Some (jobs w' !! acc);
  le_requests : ∃ extra, requests w' = requests w ++ extra;
  le_toasts : ∃ extra, toasts w' = toasts w ++ extra
}.

(** The local variables of a loop that only [startJob] sets. *)
Definition sameLocals (L L' : Loop P) : Prop :=
  accountId L' = accountId L ∧ job L' = job L ∧ prepared L' = prepared L
  ∧ emails L' = emails L ∧ i L' = i L.

(** Well-formedness of the provider state: references point into the heap,
    every loop belongs to an account that has a job record and a controller,
    and a suspended loop is inside the body of its [for] loop. *)
Record wf (w : World P) : Prop := {
  wf_controllers : ∀ a l, controllers w !! a = Some l → l < length (heap w);
  wf_ctrl : ∀ k L l, loops w !! k = Some L → ctrl L = Some l → l < length (heap w);
  wf_job : ∀ k L, loops w !! k = Some L → is_Some (jobs w !! accountId L);
  wf_token : ∀ k L, loops w !! k = Some L → is_Some (controllers w !! accountId L);
  wf_range : ∀ k L, loops w !! k = Some L → pc L ≠ Returned → i L < length (emails L)
}.

(** The world a valid [startJob] has built when it enters its [for] loop:
    the fresh controller, the reset record and the notice. *)
Definition startReset (acc : string) (w : World P) : World P :=
  toast toast_success (noticeStarted P)
    (updateJobData acc
       [F_status processing;
        F_results [];
        F_stats {| success := 0; fail := 0 |};
        F_progress {| current := 0;
                      total := length (parseEmails (emailList (getJob acc w))) |};
        F_elapsedSeconds 0;
        F_countdown 0]
       (with_controllers (<[acc := length (heap w)]> (controllers w))
          (with_heap (heap w ++ [{| isPaused := false; isStopped := false |}]) w))).

(** The local variables of that invocation as it enters the loop. *)
Definition startLoop (acc : string) (prep : Prepared P) (w : World P) : Loop P :=
  {| accountId := acc; job := getJob acc w; prepared := prep;
     emails := parseEmails (emailList (getJob acc w)); i := 0;
     ctrl := None; pc := Returned |}.

(** Validation in [startJob] passes, with [prep] prepared for the run. *)
Definition valid (acc : string) (prep : Prepared P) (w : World P) : Prop :=
  parseEmails (emailList (getJob acc w)) ≠ []
  ∧ checkInputs P (inputs (getJob acc w)) = inr prep.

(** The provider call for a recipient failed: the proxy answered with a
    non-ok response, or [fetch] or [response.json()] threw. *)
Definition failed (o : FetchOutcome) : Prop :=
  match o with
  | Responded ok _ => ok = false
  | Threw _ => True
  end.

(** The loop is suspended inside its inter-item delay. *)
Definition inDelay (p : PC) : Prop :=
  match p with
  | AwaitCountdownPausePoll _ _ | AwaitCountdownSecond _ _ => True
  | _ => False
  end.

(** Status [completed] is written only by a loop that returns, and no loop
    writes [idle]; the countdown is left as it was, or zero, when the loop
    is not suspended inside its delay. *)
Definition shown (acc : string) (w : World P) (r : Loop P * World P) : Prop :=
  (status (getJob acc (snd r)) = completed →
   pc (fst r) = Returned ∨ status (getJob acc w) = completed)
  ∧ (status (getJob acc (snd r)) = idle → status (getJob acc w) = idle)
  ∧ (inDelay (pc (fst r))
     ∨ countdown (getJob acc (snd r)) = 0%Z
     ∨ countdown (getJob acc (snd r)) = countdown (getJob acc w)).

(** What holds in every reachable world about the countdown: it is nonzero
    only while a loop of the account is inside its delay, and an account
    whose record is [idle] has no loop. *)
Record delayInv (w : World P) : Prop := {
  di_delay : ∀ acc, countdown (getJob acc w) ≠ 0%Z →
    ∃ k L, loops w !! k = Some L ∧ accountId L = acc ∧ inDelay (pc L);
  di_idle : ∀ acc, status (getJob acc w) = idle →
    ∀ k L, loops w !! k = Some L → accountId L ≠ acc
}.

(** A loop inside its delay shows status [waiting]. *)
Definition waitingInv (w : World P) : Prop :=
  ∀ k L, loops w !! k = Some L → inDelay (pc L) →
         status (getJob (accountId L) w) = waiting.

Definition isControl (e : Event P) : bool :=
  match e with
  | Pause _ | Resume _ | Stop _ => true
  | _ => false
  end.

(** Pause, resume and stop are not called. *)
Definition undisturbed (es : list (Event P)) : bool :=
  forallb (fun e => negb (isControl e)) es.

(** The requests loop [k] has sent. *)
Definition sentBy (k : nat) (w : World P) : list Request :=
  List.map snd (List.filter (fun kr => fst kr =? k) (requests w)).

(** The loop an event runs, if any; a [Start] runs the loop it creates. *)
Definition actor (w : World P) (e : Event P) : option nat :=
  match e with
  | Wake k | Reply k _ => Some k
  | Start _ => Some (length (loops w))
  | _ => None
  end.




(** Pause, resume and stop are not called and [acc] is not started again. *)
Definition uninterrupted (acc : string) (es : list (Event P)) : bool :=
  forallb (fun e =>
             negb (isControl e)
             && match e with Start a => negb (String.eqb a acc) | _ => true end) es.

(** Where loop [k], started for [acc] at time [t0] under controller [l]
    with delay [d] and [n] recipients, can be in an uninterrupted run, and
    how late it then is at least. *)
Definition pacedAt (l : nat) (t0 : N) (d : Z) (n : nat) (w : World P) (L : Loop P) : Prop :=
  match pc L with
  | AwaitFetch =>
      ctrl L = Some l ∧ i L < n
      ∧ (Z.of_N t0 + 1000 * Z.max 0 d * Z.of_nat (i L) ≤ Z.of_N (now w))%Z
  | AwaitCountdownSecond remaining due =>
      ctrl L = Some l ∧ 0 < i L < n ∧ (0 < remaining ≤ d)%Z
      ∧ (Z.of_N t0 + 1000 * (d * Z.of_nat (i L) - remaining + 1) ≤ Z.of_N due)%Z
  | Returned =>
      i L = n
      ∧ (Z.of_N t0 + 1000 * Z.max 0 d * (Z.of_nat n - 1) ≤ Z.of_N (now w))%Z
  | AwaitPausePoll _ | AwaitCountdownPausePoll _ _ => False
  end.

Record paced (acc : string) (l k : nat) (t0 : N) (d : Z) (n : nat) (w : World P) : Prop := {
  p_token : controllers w !! acc = Some l;
  p_clean : heap w !! l = Some {| isPaused := false; isStopped := false |};
  p_loop : ∃ L, loops w !! k = Some L ∧ accountId L = acc ∧ delay (job L) = d
                ∧ length (emails L) = n ∧ pacedAt l t0 d n w L
}.

(** Only time passes and timers fire. *)
Definition timersOnly (es : list (Event P)) : bool :=
  forallb (fun e => match e with Elapse _ | Wake _ => true | _ => false end) es.

Definition returned (L : Loop P) : bool :=
  match pc L with Returned => true | _ => false end.

(** Every invocation of [startJob] for [acc] has returned. *)
Definition settled (acc : string) (w : World P) : bool :=
  forallb (fun L => negb (String.eqb (accountId L) acc) || returned L) (loops w).

(** Runs of one account do not overlap: along the events [es] from [w],
    [startJob] is only called for an account whose earlier invocations have
    all returned. *)
Fixpoint exclusive (es : list (Event P)) (w : World P) : bool :=
  match es with
  | [] => true
  | e :: es =>
      match e with Start acc => settled acc w | _ => true end
      && match step w e with Some w' => exclusive es w' | None => true end
  end.

(** The three quantities an outcome recording updates together. *)
Definition agree (j : JobState P) : Prop :=
  success (stats j) + fail (stats j) = current (progress j)
  ∧ current (progress j) = length (results j).

(** The invariant of non-overlapping runs: at most one live loop per
    account, the counters of every record agree, a live loop stands at the
    index its record's [progress.current] shows, a record that shows
    [completed] has no live loop, and a live loop holds the controller the
    ref currently has for its account. *)
Record solo (w : World P) : Prop := {
  solo_one : ∀ k1 k2 L1 L2,
    loops w !! k1 = Some L1 → loops w !! k2 = Some L2 →
    accountId L1 = accountId L2 → pc L1 ≠ Returned → pc L2 ≠ Returned → k1 = k2;
  solo_agree : ∀ acc, agree (getJob acc w);
  solo_index : ∀ k L, loops w !! k = Some L → pc L ≠ Returned →
    current (progress (getJob (accountId L) w)) = i L;
  solo_completed : ∀ k L, loops w !! k = Some L →
    status (getJob (accountId L) w) = completed → pc L = Returned;
  solo_token : ∀ k L, loops w !! k = Some L → pc L ≠ Returned →
    ctrl L = controllers w !! accountId L
}.

(** What the calls of the presentation layer other than a valid start, the
    ticker and the clock leave alone in a record. *)
Definition kept (j j' : JobState P) : Prop :=
  progress j' = progress j ∧ results j' = results j ∧ stats j' = stats j
  ∧ countdown j' = countdown j.

End Predicates.

(** ** The seconds of a delay *)

Section Schedules.
Context {P : Provider} {json : JSON}.

(** The seconds of a delay pass one by one, and at the end of each the
    one-second timer of loop [k] fires. *)
Definition countdownSchedule (k : nat) (seconds : Z) : list (Event P) :=
  concat (replicate (Z.to_nat seconds) [Elapse 1000; Wake k]).

End Schedules.

(** ** What a run leaves behind *)

Section Ledger.
Context {P : Provider} {json : JSON}.

(** The status values under which the ticker counts a second. *)
Definition running (j : JobState P) : bool :=
  match status j with processing | waiting => true | _ => false end.

Definition isTick (e : Event P) : bool :=
  match e with Tick => true | _ => false end.

(** How often the one-second interval fires along [es]. *)
Definition ticksIn (es : list (Event P)) : nat := length (List.filter isTick es).

(** The results of record [j] are the outcomes for the first
    [progress.current] recipients of loop [L], the most recent first, with
    the ids 1, 2, ... in the order of the list; [progress.total] is the
    number of recipients. *)
Definition logged (L : Loop P) (j : JobState P) : Prop :=
  List.map SendResult.email (results j)
  = reverse (take (current (progress j)) (emails L))
  ∧ List.map SendResult.id (results j) = reverse (seq 1 (current (progress j)))
  ∧ total (progress j) = length (emails L)
  ∧ current (progress j) ≤ total (progress j).

(** The account an event is about: the account a call of the page names,
    or the account of the loop that is continued; the ticker and the clock
    are shared by all accounts. *)
Definition concerns (w : World P) (e : Event P) : option string :=
  match e with
  | Edit a _ | Start a | Pause a | Resume a | Stop a => Some a
  | Wake k | Reply k _ => accountId <$> loops w !! k
  | Tick | Elapse _ => None
  end.

(** The requests a loop is there to send, one for each recipient, in the
    order of the list. *)
Definition planned (L : Loop P) : list Request :=
  List.map (buildRequest P (accountId L) (inputs (job L)) (prepared L)) (emails L).

(** The request a loop that stands at its [fetch] has just sent. *)
Definition fetching (k : nat) (L : Loop P) : list (nat * Request) :=
  match pc L, emails L !! i L with
  | AwaitFetch, Some email =>
      [(k, buildRequest P (accountId L) (inputs (job L)) (prepared L) email)]
  | _, _ => []
  end.

(** How many recipients a loop has reached a [fetch] for. *)
Definition attempted (L : Loop P) : nat :=
  match pc L with AwaitFetch => i L + 1 | _ => i L end.

(** The books of the provider: every request was sent by a loop that
    exists; a loop has sent the requests for the recipients it has reached,
    in the order of its list; it works on the recipients and the payload
    that passed validation when it was started; and it never reaches past
    the end of its list. *)
Record accounted (w : World P) : Prop := {
  ac_bound : ∀ kr, kr ∈ requests w → fst kr < length (loops w);
  ac_sent : ∀ k L, loops w !! k = Some L →
    sentBy k w = take (attempted L) (planned L);
  ac_valid : ∀ k L, loops w !! k = Some L →
    emails L = parseEmails (emailList (job L)) ∧ emails L ≠ []
    ∧ checkInputs P (inputs (job L)) = inr (prepared L);
  ac_index : ∀ k L, loops w !! k = Some L → attempted L ≤ length (emails L)
}.

(** Loop [k] is the most recent invocation of [startJob] for its account. *)
Definition latest (k : nat) (L : Loop P) (w : World P) : Prop :=
  loops w !! k = Some L
  ∧ ∀ k' L', k < k' → loops w !! k' = Some L' → accountId L' ≠ accountId L.

(** With runs that do not overlap, a loop that has not returned is the
    most recent one of its account, and the record of an account is the
    log of its most recent loop. *)
Record ledger (w : World P) : Prop := {
  lg_latest : ∀ k L, loops w !! k = Some L → pc L ≠ Returned → latest k L w;
  lg_logged : ∀ k L, latest k L w → logged L (getJob (accountId L) w)
}.

(** Controller objects are not shared between accounts: two accounts never
    refer to one object, and the object a loop holds is not the current
    one of another account. *)
Record owned (w : World P) : Prop := {
  ow_token : ∀ a b l, controllers w !! a = Some l → controllers w !! b = Some l → a = b;
  ow_ctrl : ∀ k L b l, loops w !! k = Some L → ctrl L = Some l →
                       controllers w !! b = Some l → b = accountId L
}.

(** A record that shows [completed] has all its recipients done. *)
Definition finished (w : World P) : Prop :=
  ∀ acc, status (getJob acc w) = completed →
         current (progress (getJob acc w)) = total (progress (getJob acc w)).

End Ledger.

(** ** The page [src/pages/TrackEvent.tsx]

    The page of the track provider: what it reads from the job record of
    the selected account and which provider function each of its buttons
    calls. *)

(** [useState<'all' | 'success' | 'error'>('all')] *)
Inductive LogFilter := filter_all | filter_success | filter_error.

(** [job ? job.results.filter(result => { if (filter === 'all') return true;
    return result.status === filter; }) : []] *)
Definition filteredResults {P : Provider} (filter : LogFilter)
    (job : option (JobState P)) : list SendResult.t :=
  match job with
  | Some job =>
      List.filter
        (fun result =>
           match filter with
           | filter_all => true
           | filter_success =>
               match SendResult.status result with Success => true | Error => false end
           | filter_error =>
               match SendResult.status result with Error => true | Success => false end
           end) (results job)
  | None => []
  end.

(** The two counters of a record count its results by status. *)
Definition tallied {P : Provider} (j : JobState P) : Prop :=
  success (stats j) = length (filteredResults filter_success (Some j))
  ∧ fail (stats j) = length (filteredResults filter_error (Some j)).

(** [job.status === 'processing' || job.status === 'paused' ||
    job.status === 'waiting']: the page then disables its inputs and shows
    the "Pause"/"Resume" and "Stop" buttons in place of the start button. *)
Definition isJobActive {P : Provider} (job : JobState P) : bool :=
  match status job with
  | processing | paused | waiting => true
  | _ => false
  end.

(** The label of the start button, rendered when the job is not active:
    [job.status === 'completed' || job.status === 'stopped' ?
     "Restart Process" : "Start Adding"] *)
Definition startLabel {P : Provider} (job : JobState P) : string :=
  match status job with
  | completed | stopped => "Restart Process"
  | _ => "Start Adding"
  end.

(** [s.padStart(targetLength, padString)] for a one-character pad. *)
Definition padStart (targetLength : nat) (pad : ascii) (s : string) : string :=
  string_of_list_ascii (repeat pad (targetLength - String.length s)) +:+ s.

(** [formatTime]: [`${mins}:${secs.toString().padStart(2, '0')}`] with
    [mins = Math.floor(seconds / 60)] and [secs = seconds % 60]; a natural
    number prints as its decimal digits. *)
Definition formatTime (seconds : nat) : string :=
  let mins := seconds / 60 in
  let secs := seconds mod 60 in
  pretty mins +:+ ":" +:+ padStart 2 "0" (pretty secs).

(** [`${r.status}`] *)
Definition statusText (s : ResultStatus) : string :=
  match s with Success => "success" | Error => "error" end.

Definition filterText (filter : LogFilter) : string :=
  match filter with
  | filter_all => "all"
  | filter_success => "success"
  | filter_error => "error"
  end.

(** [`${r.email},${r.status}`] *)
Definition exportLine (r : SendResult.t) : string :=
  SendResult.email r +:+ "," +:+ statusText (SendResult.status r).

(** The file [handleExport] hands to the browser. *)
Record Download := { fileName : string; textContent : string }.

(** [handleExport], given what [new Date().toISOString()] returns: the
    notice it shows and the file it offers, if any. *)
Definition handleExport {P : Provider} (filter : LogFilter) (job : option (JobState P))
    (isoNow : string) : Toast * option Download :=
  let filtered := filteredResults filter job in
  if length filtered =? 0 then ((toast_error, "No logs to export"), None)
  else
    ((toast_success, "Exported " +:+ pretty (length filtered) +:+ " logs"),
     Some {| fileName := "audience-logs-" +:+ filterText filter +:+ "-"
                         +:+ hd "" (split "T" isoNow) +:+ ".txt";
             textContent := join newline (List.map exportLine filtered) |}).

Section Page.
Context {json : JSON}.

(** [if (!currentAccount) return; startJob(currentAccount.id);] with
    [currentAccount] given by its id. *)
Definition onStart (currentAccount : option string) (w : World TrackEventProvider) :
    World TrackEventProvider :=
  match currentAccount with
  | None => w
  | Some id => startJob id w
  end.

(** [if (!currentAccount || !job) return;
     if (job.status === 'paused') resumeJob(currentAccount.id);
     else pauseJob(currentAccount.id);] where [job] is
    [getJob(currentAccount.id)]. *)
Definition onPauseToggle (currentAccount : option string) (w : World TrackEventProvider) :
    World TrackEventProvider :=
  match currentAccount with
  | None => w
  | Some id =>
      match status (getJob id w) with
      | paused => resumeJob id w
      | _ => pauseJob id w
      end
  end.

(** [if (!currentAccount) return; stopJob(currentAccount.id);] *)
Definition onStop (currentAccount : option string) (w : World TrackEventProvider) :
    World TrackEventProvider :=
  match currentAccount with
  | None => w
  | Some id => stopJob id w
  end.

End Page.

(** No result of a record carries a line break in its address. *)
Definition singleLines {P : Provider} (w : World P) : Prop :=
  ∀ acc, Forall (fun r => contains newline (SendResult.email r) = false)
           (results (getJob acc w)).

(** ** What the page offers *)

Section Offered.
Context {P : Provider} {json : JSON}.



End Offered.

(** ** The proxy the run loops post to

    [server/server.js] is the proxy for Emailit; a second server file of
    the repository is its variant for MailerSend.  Both read the accounts
    from [accounts.json] and forward to the provider with [axios].  The
    handlers are embedded on the bodies the run loops post, whose members
    are strings (or absent); the file read and the provider call are
    inputs: [accounts] is the array [readJsonFile] returns, [None] when
    the read or the search in it throws, and [axios] says how a call
    ends. *)

(** [s.toLowerCase()] on code units below 256. *)
Definition toLowerChar (c : ascii) : ascii :=
  let n := nat_of_ascii c in
  if (65 <=? n) && (n <=? 90) then ascii_of_nat (n + 32)
  else if (192 <=? n) && (n <=? 222) && negb (n =? 215) then ascii_of_nat (n + 32)
  else c.

Fixpoint toLowerCase (s : string) : string :=
  match s with
  | EmptyString => EmptyString
  | String c s' => String (toLowerChar c) (toLowerCase s')
  end.

(** [s.startsWith(searchString)] *)
Fixpoint startsWith (s searchString : string) : bool :=
  match searchString, s with
  | EmptyString, _ => true
  | String _ _, EmptyString => false
  | String a rest, String b s' => Ascii.eqb a b && startsWith s' rest
  end.

(** [s.includes(searchString)] *)
Fixpoint includes (s searchString : string) : bool :=
  startsWith s searchString
  || match s with
     | EmptyString => false
     | String _ s' => includes s' searchString
     end.

(** [s.replace(/<[^>]*>?/gm, " ")]: a match starts at every ["<"] outside
    a match and runs up to and including the next [">"], or to the end of
    the text when there is none; [inTag] says that a match is open. *)
Fixpoint replaceTags (inTag : bool) (s : string) : string :=
  match s with
  | EmptyString => EmptyString
  | String c s' =>
      if inTag then
        if Ascii.eqb c ">" then replaceTags false s' else replaceTags true s'
      else if Ascii.eqb c "<" then String " " (replaceTags true s')
      else String c (replaceTags false s')
  end.

(** [if (!htmlContent.trim().toLowerCase().startsWith('<html') &&
         !htmlContent.includes('<body'))
       htmlContent = `<!DOCTYPE html><html><body>${content}</body></html>`] *)
Definition htmlContent (content : string) : string :=
  if negb (startsWith (toLowerCase (trim content)) "<html")
     && negb (includes content "<body")
  then "<!DOCTYPE html><html><body>" +:+ content +:+ "</body></html>"
  else content.

(** [let textContent = String(content).replace(/<[^>]*>?/gm, " ").trim();
     if (!textContent || textContent.length === 0) textContent = "Please ..."] *)
Definition plainText (content : string) : string :=
  let textContent := trim (replaceTags false content) in
  if falsy textContent
  then "Please view this email in an HTML compatible email client."
  else textContent.

(** A member of a body that may be absent: [undefined] is falsy, a string
    is falsy when empty. *)
Definition truthy (v : option string) : bool :=
  match v with Some s => nonEmpty s | None => false end.

(** [value || {}] and the like on a JSON value: [null], [false], [0] and
    [""] are falsy. *)
Definition truthyJson (v : Json) : bool :=
  match v with
  | JNull => false
  | JBool b => b
  | JNumber z => negb (z =? 0)%Z
  | JString s => nonEmpty s
  | JArray _ | JObject _ => true
  end.

Module Proxy.

(** An entry of [accounts.json], with the members the handlers read. *)
Record Account := { id : string; secretKey : string; fromEmail : option string }.

(** An [axios.post]: the address, the bearer token and the body. *)
Record Call := { url : string; bearer : string; payload : Json }.

(** How the call ends: with a response, of which the handlers read
    [status], [headers['x-message-id']] and [data]; or rejected, with the
    response of the provider ([status], [data]) when there is one. *)
Inductive Upstream :=
| Resolved (status : nat) (messageId : option string) (data : Json)
| Rejected (response : option (nat * option Json)).

(** What the handler answers: [res.status(code).json(body)]. *)
Record Reply := { code : nat; body : Json }.

(** [accounts.find(a => a.id === accountId)] *)
Definition findAccount (accounts : list Account) (accountId : string) : option Account :=
  List.find (fun a => String.eqb (id a) accountId) accounts.

(** The [catch] of a handler:
    [res.status(error.response?.status || 500)
        .json({ error: message, details: error.response?.data })] *)
Definition rejected (message : string) (response : option (nat * option Json)) : Reply :=
  {| code := match response with
             | Some (status, _) => if status =? 0 then 500 else status
             | None => 500
             end;
     body := JObject
               (("error", JString message)
                :: match response with
                   | Some (_, Some data) => [("details", data)]
                   | _ => []
                   end) |}.

(** What the run loop makes of an answer: [response.ok] and
    [await response.json()]. *)
Definition received (r : Reply) : FetchOutcome :=
  Responded ((200 <=? code r) && (code r <=? 299)) (body r).

End Proxy.

(** [server/server.js], the proxy for Emailit. *)
Module Emailit.

(** [app.post('/api/send-email', ...)], lines 93-135; the body members are
    [accountId], [to], [subject], [content] and [from]. *)
Definition sendEmail (accounts : option (list Proxy.Account))
    (axios : Proxy.Call → Proxy.Upstream)
    (accountId to subject content : string) (from : option string) :
    Proxy.Reply * list Proxy.Call :=
  if falsy accountId || falsy to || falsy subject || falsy content then
    ({| Proxy.code := 400;
        Proxy.body := JObject [("error", JString "Missing parameters")] |}, [])
  else
    match accounts with
    | None => (Proxy.rejected "Failed to send email" None, [])
    | Some accounts =>
        match Proxy.findAccount accounts accountId with
        | None =>
            ({| Proxy.code := 404;
                Proxy.body := JObject [("error", JString "Account not found")] |}, [])
        | Some account =>
            let payload :=
              JObject
                ([("to", JString to); ("subject", JString subject);
                  ("html", JString (htmlContent content));
                  ("text", JString (plainText content))]
                 ++ match from with
                    | Some from => if nonEmpty from then [("from", JString from)] else []
                    | None => []
                    end) in
            let call := {| Proxy.url := "https://api.emailit.com/v1/emails";
                           Proxy.bearer := Proxy.secretKey account;
                           Proxy.payload := payload |} in
            match axios call with
            | Proxy.Resolved _ _ data =>
                ({| Proxy.code := 200; Proxy.body := data |}, [call])
            | Proxy.Rejected response =>
                (Proxy.rejected "Failed to send email" response, [call])
            end
        end
    end.

(** [app.post('/api/track-event', ...)], lines 138-161; the body members
    are [accountId], [event], [email] and [data]. *)
Definition trackEvent (accounts : option (list Proxy.Account))
    (axios : Proxy.Call → Proxy.Upstream)
    (accountId event email : string) (data : option Json) :
    Proxy.Reply * list Proxy.Call :=
  if falsy accountId || falsy event || falsy email then
    ({| Proxy.code := 400;
        Proxy.body := JObject [("error", JString "Missing parameters")] |}, [])
  else
    match accounts with
    | None => (Proxy.rejected "Failed to add subscriber" None, [])
    | Some accounts =>
        match Proxy.findAccount accounts accountId with
        | None =>
            ({| Proxy.code := 404;
                Proxy.body := JObject [("error", JString "Account not found")] |}, [])
        | Some account =>
            let custom_fields :=
              match data with
              | Some data => if truthyJson data then data else JObject []
              | None => JObject []
              end in
            let call :=
              {| Proxy.url := "https://api.emailit.com/v1/audiences/" +:+ event
                              +:+ "/subscribers";
                 Proxy.bearer := Proxy.secretKey account;
                 Proxy.payload :=
                   JObject [("email", JString email); ("custom_fields", custom_fields)] |} in
            match axios call with
            | Proxy.Resolved _ _ data =>
                ({| Proxy.code := 200; Proxy.body := data |}, [call])
            | Proxy.Rejected response =>
                (Proxy.rejected "Failed to add subscriber" response, [call])
            end
        end
    end.

(** The answer to a request of a run loop.  The send provider posts
    [fromEmail] and [fromName], which this handler does not read, and no
    [from]. *)
Definition serve (accounts : option (list Proxy.Account))
    (axios : Proxy.Call → Proxy.Upstream) (r : Request) : Proxy.Reply * list Proxy.Call :=
  match r with
  | POST_send_email accountId to subject content _ _ =>
      sendEmail accounts axios accountId to subject content None
  | POST_track_event accountId event email data _ =>
      trackEvent accounts axios accountId event email (Some data)
  end.

End Emailit.

(** The variant of the proxy for MailerSend. *)
Module MailerSend.

(** [app.post('/api/send-email', ...)]; the body members are [accountId],
    [to], [subject], [content], [fromEmail] and [fromName]. *)
Definition sendEmail (accounts : option (list Proxy.Account))
    (axios : Proxy.Call → Proxy.Upstream)
    (accountId to subject content : string) (fromEmail fromName : option string) :
    Proxy.Reply * list Proxy.Call :=
  if falsy accountId || falsy to || falsy subject || falsy content then
    ({| Proxy.code := 400;
        Proxy.body := JObject [("error", JString "Missing parameters")] |}, [])
  else
    match accounts with
    | None => (Proxy.rejected "Failed to send email" None, [])
    | Some accounts =>
        match Proxy.findAccount accounts accountId with
        | None =>
            ({| Proxy.code := 404;
                Proxy.body := JObject [("error", JString "Account not found")] |}, [])
        | Some account =>
            let senderEmail :=
              if truthy fromEmail then fromEmail else Proxy.fromEmail account in
            let senderName := fromName in
            match senderEmail with
            | Some senderEmail =>
                if falsy senderEmail then
                  ({| Proxy.code := 400;
                      Proxy.body :=
                        JObject [("error", JString "No 'From Email' specified.")] |}, [])
                else
                  let payload :=
                    JObject
                      [("from",
                        JObject
                          (("email", JString senderEmail)
                           :: match senderName with
                              | Some name =>
                                  if nonEmpty name then [("name", JString name)] else []
                              | None => []
                              end));
                       ("to", JArray [JObject [("email", JString to);
                                               ("name", JString to)]]);
                       ("subject", JString subject);
                       ("html", JString (htmlContent content));
                       ("text", JString (plainText content))] in
                  let call := {| Proxy.url := "https://api.mailersend.com/v1/email";
                                 Proxy.bearer := Proxy.secretKey account;
                                 Proxy.payload := payload |} in
                  match axios call with
                  | Proxy.Resolved status messageId _ =>
                      ({| Proxy.code := 200;
                          Proxy.body :=
                            JObject
                              (("success", JBool true)
                               :: match messageId with
                                  | Some m => [("messageId", JString m)]
                                  | None => []
                                  end
                               ++ [("status", JNumber (Z.of_nat status))]) |}, [call])
                  | Proxy.Rejected response =>
                      (Proxy.rejected "Failed to send email" response, [call])
                  end
            | None =>
                ({| Proxy.code := 400;
                    Proxy.body :=
                      JObject [("error", JString "No 'From Email' specified.")] |}, [])
            end
        end
    end.

(** [app.post('/api/track-event', ...)]:
    [res.status(501).json({ error: "Endpoint pending migration to MailerSend" })] *)
Definition trackEvent : Proxy.Reply * list Proxy.Call :=
  ({| Proxy.code := 501;
      Proxy.body := JObject [("error", JString "Endpoint pending migration to MailerSend")] |},
   []).

Definition serve (accounts : option (list Proxy.Account))
    (axios : Proxy.Call → Proxy.Upstream) (r : Request) : Proxy.Reply * list Proxy.Call :=
  match r with
  | POST_send_email accountId to subject content fromEmail fromName =>
      sendEmail accounts axios accountId to subject content fromEmail fromName
  | POST_track_event _ _ _ _ _ => trackEvent
  end.

End MailerSend.

(** ** Runs and the proxy together *)

(** The answer that reports a missing member of the body. *)
Definition missingParameters : Proxy.Reply :=
  {| Proxy.code := 400;
     Proxy.body := JObject [("error", JString "Missing parameters")] |}.

Section Served.
Context {P : Provider} {json : JSON}.

(** Along [es] from [w], every reply a loop gets is what [serve] answers
    to the request the loop has in flight. *)
Fixpoint answered (serve : Request → FetchOutcome) (es : list (Event P)) (w : World P) :
    Prop :=
  match es with
  | [] => True
  | e :: es =>
      match e with
      | Reply k o =>
          ∀ L email, loops w !! k = Some L → emails L !! i L = Some email →
                     o = serve (buildRequest P (accountId L) (inputs (job L))
                                  (prepared L) email)
      | _ => True
      end
      ∧ match step w e with
        | Some w' => answered serve es w'
        | None => True
        end
  end.

(** The results of the first [n] recipients of loop [L] as [serve]
    answers them, the most recent first. *)
Definition transcript (serve : Request → FetchOutcome) (L : Loop P) (n : nat) :
    list SendResult.t :=
  reverse
    (imap (fun i email =>
             outcomeResult (i + 1) email
               (serve (buildRequest P (accountId L) (inputs (job L)) (prepared L) email)))
       (take n (emails L))).

Definition served (serve : Request → FetchOutcome) (w : World P) : Prop :=
  ∀ k L, latest k L w →
         results (getJob (accountId L) w)
         = transcript serve L (current (progress (getJob (accountId L) w))).

End Served.

(** * Properties *)

(** ** Parsing the recipient list *)

Lemma split_not_nil (sep : ascii) (s : string) : split sep s ≠ [].
Proof.
  destruct s as [|c s]; cbn [split]; [discriminate|].
  destruct (Ascii.eqb c sep); [discriminate|].
  destruct (split sep s); discriminate.
Qed.

Lemma split_join (sep : ascii) (s : string) : join sep (split sep s) = s.
Proof.
  induction s as [|c s IH]; [reflexivity|].
  cbn [split]. pose proof (split_not_nil sep s) as Hne.
  destruct (Ascii.eqb_spec c sep) as [->|Hc];
    destruct (split sep s) as [|p rest]; try congruence.
  - change (join sep ("" :: p :: rest)) with (String sep (join sep (p :: rest))).
    now rewrite IH.
  - rewrite <- IH. destruct rest; reflexivity.
Qed.

Lemma split_no_separator (sep : ascii) (s : string) :
  Forall (fun piece => contains sep piece = false) (split sep s).
Proof.
  induction s as [|c s IH]; cbn [split].
  - repeat constructor.
  - destruct (Ascii.eqb_spec c sep) as [->|Hc].
    + constructor; [reflexivity|exact IH].
    + destruct (split sep s) as [|p rest]; inversion IH; subst;
        constructor; cbn; trivial;
        destruct (Ascii.eqb_spec c sep); try congruence; cbn; trivial.
Qed.

Lemma trimStart_decompose (s : string) :
  ∃ pre, s = pre +:+ trimStart s ∧ allWhiteSpace pre.
Proof.
  induction s as [|c s (pre & Hs & Hpre)]; cbn [trimStart].
  - exists ""; split; [reflexivity|constructor].
  - destruct (isWhiteSpace c) eqn:Hc.
    + exists (String c pre); split; [change (String c s = String c (pre +:+ trimStart s)); f_equal; exact Hs|].
      constructor; assumption.
    + exists ""; split; [reflexivity|constructor].
Qed.

Lemma trimEnd_decompose (s : string) :
  ∃ post, s = trimEnd s +:+ post ∧ allWhiteSpace post.
Proof.
  induction s as [|c s (post & Hs & Hpost)]; cbn [trimEnd].
  - exists ""; split; [reflexivity|constructor].
  - destruct (trimEnd s) as [|d t] eqn:Ht.
    + change (s = post) in Hs. subst s. destruct (isWhiteSpace c) eqn:Hc.
      * exists (String c post); split; [reflexivity|]. constructor; assumption.
      * exists post; split; [reflexivity|assumption].
    + exists post; split; [|assumption].
      change (String c s = String c (String d t +:+ post)). f_equal; exact Hs.
Qed.

Lemma trimStart_first (s : string) (c : ascii) :
  firstChar (trimStart s) = Some c → isWhiteSpace c = false.
Proof.
  induction s as [|d s IH]; cbn [trimStart]; [discriminate|].
  destruct (isWhiteSpace d) eqn:Hd; [exact IH|].
  cbn. congruence.
Qed.

Lemma trimEnd_last (s : string) (c : ascii) :
  lastChar (trimEnd s) = Some c → isWhiteSpace c = false.
Proof.
  induction s as [|d s IH]; cbn [trimEnd]; [discriminate|].
  destruct (trimEnd s) as [|e t] eqn:Ht.
  - destruct (isWhiteSpace d) eqn:Hd; cbn; congruence.
  - cbn [lastChar]. exact IH.
Qed.

Lemma trimEnd_first (s : string) (c : ascii) :
  isWhiteSpace c = false → firstChar s = Some c → firstChar (trimEnd s) = Some c.
Proof.
  destruct s as [|d s]; cbn [firstChar trimEnd]; [discriminate|].
  intros Hc [= ->]. destruct (trimEnd s); [rewrite Hc|]; reflexivity.
Qed.

(** [trim] removes a run of white space at each end and nothing else. *)
Lemma trim_spec (s : string) :
  (∃ pre post, s = pre +:+ trim s +:+ post ∧ allWhiteSpace pre ∧ allWhiteSpace post)
  ∧ (∀ c, firstChar (trim s) = Some c → isWhiteSpace c = false)
  ∧ (∀ c, lastChar (trim s) = Some c → isWhiteSpace c = false).
Proof.
  unfold trim. split; [|split].
  - destruct (trimStart_decompose s) as (pre & Hs & Hpre).
    destruct (trimEnd_decompose (trimStart s)) as (post & Ht & Hpost).
    exists pre, post. split; [congruence|auto].
  - intros c Hc. destruct (trimStart s) as [|d t] eqn:E; [discriminate|].
    pose proof (trimStart_first s d) as Hd. rewrite E in Hd.
    specialize (Hd eq_refl).
    rewrite (trimEnd_first (String d t) d Hd eq_refl) in Hc. congruence.
  - apply trimEnd_last.
Qed.

Section Facts.
Context {P : Provider} {json : JSON}.
Implicit Types (w : World P) (L : Loop P) (j : JobState P) (acc : string).

Lemma loopEffect_refl acc w : loopEffect acc w w.
Proof.
  split; try reflexivity; auto; try (exists []; now rewrite app_nil_r).
  repeat split.
Qed.

Lemma loopEffect_trans acc w1 w2 w3 :
  loopEffect acc w1 w2 → loopEffect acc w2 w3 → loopEffect acc w1 w3.
Proof.
  intros A B. split.
  - rewrite (le_now _ _ _ B). apply A.
  - rewrite (le_controllers _ _ _ B). apply A.
  - rewrite (le_heap _ _ _ B). apply A.
  - rewrite (le_loops _ _ _ B). apply A.
  - intros a Ha. rewrite (le_other _ _ _ B a Ha). now apply A.
  - destruct (le_job _ _ _ A) as (?&?&?&?&?&?&?), (le_job _ _ _ B) as (?&?&?&?&?&?&?).
    repeat split; congruence.
  - intros H. apply B, A, H.
  - destruct (le_requests _ _ _ A) as [x Hx], (le_requests _ _ _ B) as [y Hy].
    exists (x ++ y). now rewrite Hy, Hx, app_assoc.
  - destruct (le_toasts _ _ _ A) as [x Hx], (le_toasts _ _ _ B) as [y Hy].
    exists (x ++ y). now rewrite Hy, Hx, app_assoc.
Qed.

Lemma getJob_updateJobData acc data w :
  getJob acc (updateJobData acc data w) = spread (getJob acc w) data.
Proof. unfold getJob, updateJobData. cbn. now rewrite lookup_insert_eq. Qed.

Lemma getJob_updateJobData_ne acc a data w :
  a ≠ acc → getJob a (updateJobData acc data w) = getJob a w.
Proof. intros. unfold getJob, updateJobData. cbn. now rewrite lookup_insert_ne. Qed.

Lemma spread_untouched j data :
  forallb isDisplay data = true → untouched j (spread j data).
Proof.
  unfold spread. revert j. induction data as [|f data IH]; intros j H; cbn.
  - repeat split.
  - cbn in H. apply andb_prop in H as [Hf H].
    destruct (IH (assign j f) H) as (?&?&?&?&?&?&?).
    destruct f; try discriminate; cbn in *; repeat split; assumption.
Qed.

Lemma loopEffect_updateJobData acc data w :
  forallb isDisplay data = true → loopEffect acc w (updateJobData acc data w).
Proof.
  intros H. split; try reflexivity.
  - intros a Ha. cbn. now rewrite lookup_insert_ne.
  - rewrite getJob_updateJobData. now apply spread_untouched.
  - intros _. cbn. rewrite lookup_insert_eq. eauto.
  - exists []. now rewrite app_nil_r.
  - exists []. now rewrite app_nil_r.
Qed.

Lemma loopEffect_toast acc k m w : loopEffect acc w (toast k m w).
Proof.
  split; try reflexivity; auto; cbn; eauto.
  - repeat split.
  - exists []. now rewrite app_nil_r.
Qed.

Lemma loopEffect_request acc r w :
  loopEffect acc w (with_requests (requests w ++ r) w).
Proof.
  split; try reflexivity; auto; cbn; eauto.
  - repeat split.
  - exists []. now rewrite app_nil_r.
Qed.

Lemma loopEffect_after_update acc data w w' :
  forallb isDisplay data = true →
  loopEffect acc (updateJobData acc data w) w' → loopEffect acc w w'.
Proof.
  intros H. apply loopEffect_trans. now apply loopEffect_updateJobData.
Qed.

Lemma sameLocals_refl L : sameLocals L L.
Proof. repeat split. Qed.

Lemma sameLocals_trans L1 L2 L3 : sameLocals L1 L2 → sameLocals L2 L3 → sameLocals L1 L3.
Proof. unfold sameLocals. intuition congruence. Qed.

Lemma sameLocals_with_pc p L : sameLocals L (with_pc p L).
Proof. repeat split. Qed.

Lemma sameLocals_with_ctrl c L : sameLocals L (with_ctrl c L).
Proof. repeat split. Qed.

Lemma afterLoop_effect L w :
  loopEffect (accountId L) w (snd (afterLoop L w)) ∧ sameLocals L (fst (afterLoop L w)).
Proof.
  unfold afterLoop. cbn. split; [|apply sameLocals_with_pc].
  destruct (flag _ _ _); [apply loopEffect_refl|].
  eapply loopEffect_trans; [|apply loopEffect_toast].
  now apply loopEffect_updateJobData.
Qed.

Lemma tryFetch_effect k L w :
  loopEffect (accountId L) w (snd (tryFetch k L w)) ∧ sameLocals L (fst (tryFetch k L w)).
Proof.
  unfold tryFetch. destruct (flag isStopped (ctrl L) w).
  - destruct (writesStoppedAfterDelay P).
    + split; [|apply afterLoop_effect].
      eapply loopEffect_after_update; [|apply afterLoop_effect]; reflexivity.
    + apply afterLoop_effect.
  - destruct (emails L !! i L); cbn; (split; [|apply sameLocals_with_pc]).
    + apply loopEffect_request.
    + apply loopEffect_refl.
Qed.

Lemma finishDelay_effect k L w :
  loopEffect (accountId L) w (snd (finishDelay k L w)) ∧ sameLocals L (fst (finishDelay k L w)).
Proof.
  unfold finishDelay. split; [|apply tryFetch_effect].
  eapply loopEffect_after_update; [|apply tryFetch_effect]; reflexivity.
Qed.

Lemma countdownPause_effect r L w :
  loopEffect (accountId L) w (snd (countdownPause r L w))
  ∧ sameLocals L (fst (countdownPause r L w)).
Proof.
  unfold countdownPause. destruct (_ && _); cbn;
    (split; [apply loopEffect_refl|apply sameLocals_with_pc]).
Qed.

Lemma countdownHead_effect k r L w :
  loopEffect (accountId L) w (snd (countdownHead k r L w))
  ∧ sameLocals L (fst (countdownHead k r L w)).
Proof.
  unfold countdownHead. destruct (0 <? r)%Z; [destruct (flag _ _ _)|];
    auto using finishDelay_effect, countdownPause_effect.
Qed.

Lemma delayPhase_effect k L w :
  loopEffect (accountId L) w (snd (delayPhase k L w)) ∧ sameLocals L (fst (delayPhase k L w)).
Proof.
  unfold delayPhase. destruct (_ && _); [|apply tryFetch_effect].
  split; [|apply countdownHead_effect].
  eapply loopEffect_after_update; [|apply countdownHead_effect]; reflexivity.
Qed.

Lemma pauseLoop_effect k L w :
  loopEffect (accountId L) w (snd (pauseLoop k L w)) ∧ sameLocals L (fst (pauseLoop k L w)).
Proof.
  unfold pauseLoop. destruct (_ && _); cbn.
  - split; [apply loopEffect_refl|apply sameLocals_with_pc].
  - destruct (flag _ _ _); auto using afterLoop_effect, delayPhase_effect.
Qed.

Lemma iteration_effect k L w :
  loopEffect (accountId L) w (snd (iteration k L w)) ∧ sameLocals L (fst (iteration k L w)).
Proof.
  unfold iteration. destruct (_ <? _); [|apply afterLoop_effect].
  set (L' := with_ctrl _ L).
  assert (HL : sameLocals L L') by apply sameLocals_with_ctrl.
  change (accountId L) with (accountId L').
  destruct (flag _ _ _).
  - split; [|eapply sameLocals_trans; [exact HL|apply afterLoop_effect]].
    eapply loopEffect_after_update; [|apply afterLoop_effect]; reflexivity.
  - split; [apply pauseLoop_effect|].
    eapply sameLocals_trans; [exact HL|apply pauseLoop_effect].
Qed.

Ltac unfold_loop :=
  unfold iteration, pauseLoop, delayPhase, countdownHead, countdownPause,
    finishDelay, tryFetch, afterLoop.

Lemma pauseLoop_ctrl k L w : ctrl (fst (pauseLoop k L w)) = ctrl L.
Proof. unfold_loop. repeat case_match; reflexivity. Qed.

Lemma countdownPause_ctrl r L w : ctrl (fst (countdownPause r L w)) = ctrl L.
Proof. unfold_loop. repeat case_match; reflexivity. Qed.

Lemma countdownHead_ctrl k r L w : ctrl (fst (countdownHead k r L w)) = ctrl L.
Proof. unfold_loop. repeat case_match; reflexivity. Qed.

(** ** What a stretch of a run loop shows in the record *)

Lemma getJob_toast a k m w : getJob a (toast k m w) = getJob a w.
Proof. reflexivity. Qed.

Lemma getJob_with_requests a rs w : getJob a (with_requests rs w) = getJob a w.
Proof. reflexivity. Qed.

Ltac loop_leaves :=
  unfold_loop; repeat case_match; cbn [fst snd];
  rewrite ?getJob_toast, ?getJob_with_requests, ?getJob_updateJobData;
  cbn [spread fold_left assign status countdown pc with_pc with_ctrl inDelay].

Lemma pauseLoop_shown k L w : shown (accountId L) w (pauseLoop k L w).
Proof. unfold shown. loop_leaves; intuition (auto; discriminate). Qed.

Lemma iteration_shown k L w : shown (accountId L) w (iteration k L w).
Proof. unfold shown. loop_leaves; intuition (auto; discriminate). Qed.

Lemma countdownPause_shown r L w : shown (accountId L) w (countdownPause r L w).
Proof. unfold shown. loop_leaves; intuition (auto; discriminate). Qed.

Lemma countdownHead_shown k r L w0 w :
  status (getJob (accountId L) w) = status (getJob (accountId L) w0) →
  shown (accountId L) w0 (countdownHead k r L w).
Proof. intros Hst. unfold shown. loop_leaves; rewrite <- ?Hst; intuition (auto; discriminate). Qed.

Lemma iteration_waiting k L w :
  inDelay (pc (fst (iteration k L w))) →
  status (getJob (accountId L) (snd (iteration k L w))) = waiting.
Proof. loop_leaves; intuition. Qed.

Lemma pauseLoop_waiting k L w :
  inDelay (pc (fst (pauseLoop k L w))) →
  status (getJob (accountId L) (snd (pauseLoop k L w))) = waiting.
Proof. loop_leaves; intuition. Qed.

Lemma countdownHead_waiting k r L w :
  inDelay (pc (fst (countdownHead k r L w))) →
  status (getJob (accountId L) (snd (countdownHead k r L w)))
  = status (getJob (accountId L) w).
Proof. loop_leaves; intuition. Qed.

Lemma wake_inv k w w' :
  wake k w = Some w' →
  ∃ L r, loops w !! k = Some L ∧ w' = store k r
         ∧ loopEffect (accountId L) w (snd r) ∧ sameLocals L (fst r)
         ∧ ctrl (fst r) = ctrl L
         ∧ pc L ≠ Returned ∧ pc L ≠ AwaitFetch
         ∧ shown (accountId L) w r
         ∧ (inDelay (pc L) →
            inDelay (pc (fst r)) ∨ countdown (getJob (accountId L) (snd r)) = 0%Z)
         ∧ (inDelay (pc (fst r)) →
            status (getJob (accountId L) (snd r)) = waiting
            ∨ (inDelay (pc L)
               ∧ status (getJob (accountId L) (snd r))
                 = status (getJob (accountId L) w))).
Proof.
  unfold wake. intros H. destruct (loops w !! k) as [L|] eqn:HL; [|discriminate].
  cbn in H. exists L.
  destruct (pc L) eqn:Hpc; try discriminate;
    destruct (_ <=? _)%N; try discriminate; injection H as <-;
    eexists; (split; [reflexivity|]); (split; [reflexivity|]).
  - split; [|split; [|split; [|split; [|split; [|split; [|split]]]]]];
      try apply pauseLoop_effect; try apply pauseLoop_ctrl;
      try apply pauseLoop_shown; try discriminate.
    + intros [].
    + intros H. left. now apply pauseLoop_waiting.
  - split; [|split; [|split; [|split; [|split; [|split; [|split]]]]]];
      try apply countdownPause_effect; try apply countdownPause_ctrl;
      try apply countdownPause_shown; try discriminate.
    + intros _. left. unfold countdownPause. case_match; exact I.
    + intros _. right. split; [exact I|]. unfold countdownPause. case_match; reflexivity.
  - split; [|split; [|split; [|split; [|split; [|split; [|split]]]]]];
      try apply countdownHead_effect; try apply countdownHead_ctrl; try discriminate.
    + eapply loopEffect_after_update; [|apply countdownHead_effect]; reflexivity.
    + apply countdownHead_shown. now rewrite getJob_updateJobData.
    + intros _.
      match goal with |- context [countdownHead k ?r L ?w1] =>
        destruct (countdownHead_shown k r L w1 w1 eq_refl) as (_ & _ & [H|[H|H]]) end;
        auto.
      revert H. loop_leaves; auto.
    + intros H. right. split; [exact I|].
      rewrite (countdownHead_waiting _ _ _ _ H). now rewrite getJob_updateJobData.
Qed.

Lemma recordOutcome_inv acc r w w1 :
  recordOutcome acc r w = Some w1 →
  ∃ j, jobs w !! acc = Some j
       ∧ w1 = with_jobs (<[acc := spread j
                 [F_stats (countOutcome (stats j) (SendResult.status r));
                  F_progress {| current := SendResult.id r; total := total (progress j) |};
                  F_results (r :: results j)]]> (jobs w)) w.
Proof.
  unfold recordOutcome. destruct (jobs w !! acc) as [j|]; [|discriminate].
  cbn. intros [= <-]. eauto.
Qed.

Lemma reply_inv k o w w' :
  reply k o w = Some w' →
  ∃ L email w1,
    loops w !! k = Some L ∧ pc L = AwaitFetch ∧ emails L !! i L = Some email
    ∧ recordOutcome (accountId L) (outcomeResult (i L + 1) email o) w = Some w1
    ∧ w' = store k (iteration k (with_i (i L + 1) L) w1).
Proof.
  unfold reply. intros H. destruct (loops w !! k) as [L|] eqn:HL; [|discriminate].
  cbn in H. destruct (pc L) eqn:Hpc; try discriminate.
  destruct (emails L !! i L) as [email|] eqn:He; [|discriminate]. cbn in H.
  destruct (recordOutcome _ _ w) as [w1|] eqn:Hr; [|discriminate]. cbn in H.
  injection H as <-. exists L, email, w1. auto.
Qed.

Lemma iteration_ctrl k L w :
  ctrl (fst (iteration k L w))
  = if i L <? length (emails L) then controllers w !! accountId L else ctrl L.
Proof. unfold_loop. repeat case_match; reflexivity. Qed.

Lemma iteration_range k L w :
  pc (fst (iteration k L w)) ≠ Returned → i L < length (emails L).
Proof.
  unfold iteration. destruct (Nat.ltb_spec (i L) (length (emails L))); [auto|].
  unfold afterLoop. cbn. congruence.
Qed.

Lemma store_loops k (r : Loop P * World P) :
  loops (store k r) = <[k := fst r]> (loops (snd r)).
Proof. reflexivity. Qed.

Lemma lookup_store k k' (r : Loop P * World P) L0 L' :
  loops (snd r) !! k = Some L0 →
  loops (store k r) !! k' = Some L' →
  (k' = k ∧ L' = fst r) ∨ (k' ≠ k ∧ loops (snd r) !! k' = Some L').
Proof.
  intros H0 H. rewrite store_loops in H. destruct (decide (k' = k)) as [->|Hne].
  - rewrite list_lookup_insert_eq in H by (eapply lookup_lt_Some; eauto).
    left. split; congruence.
  - rewrite list_lookup_insert_ne in H by auto. auto.
Qed.

Lemma wf_mounted : wf (@mounted P).
Proof. split; cbn; intros *; try rewrite lookup_empty; try rewrite lookup_nil; congruence. Qed.

Lemma wf_transfer w w' :
  wf w →
  length (heap w) ≤ length (heap w') →
  controllers w' = controllers w →
  loops w' = loops w →
  (∀ a, is_Some (jobs w !! a) → is_Some (jobs w' !! a)) →
  wf w'.
Proof.
  intros [A B C D E] Hh Hc Hl Hj. split.
  - intros a l. rewrite Hc. intros H. apply A in H. lia.
  - intros k L l. rewrite Hl. intros H1 H2. pose proof (B _ _ _ H1 H2). lia.
  - intros k L. rewrite Hl. intros H. eapply Hj, C, H.
  - intros k L. rewrite Hl, Hc. apply D.
  - intros k L. rewrite Hl. apply E.
Qed.

Lemma wf_store k (r : Loop P * World P) w L :
  wf w →
  length (heap w) ≤ length (heap (snd r)) →
  controllers (snd r) = controllers w →
  loops (snd r) = loops w →
  (∀ a, is_Some (jobs w !! a) → is_Some (jobs (snd r) !! a)) →
  loops w !! k = Some L →
  accountId (fst r) = accountId L →
  (∀ l, ctrl (fst r) = Some l → l < length (heap (snd r))) →
  (pc (fst r) ≠ Returned → i (fst r) < length (emails (fst r))) →
  wf (store k r).
Proof.
  intros Hw Hh Hc Hl Hj HL Hacc Hctrl Hrange.
  pose proof (wf_transfer w (snd r) Hw Hh Hc Hl Hj) as [A B C D E].
  assert (HL' : loops (snd r) !! k = Some L) by now rewrite Hl.
  split; cbn.
  - exact A.
  - intros k' L' l H. destruct (lookup_store _ _ _ _ _ HL' H) as [[-> ->]|[_ H']]; eauto.
  - intros k' L' H. destruct (lookup_store _ _ _ _ _ HL' H) as [[-> ->]|[_ H']]; eauto.
    rewrite Hacc. eauto.
  - intros k' L' H. destruct (lookup_store _ _ _ _ _ HL' H) as [[-> ->]|[_ H']]; eauto.
    rewrite Hacc. eauto.
  - intros k' L' H. destruct (lookup_store _ _ _ _ _ HL' H) as [[-> ->]|[_ H']]; eauto.
Qed.

Lemma mutate_shape acc f w :
  length (heap (mutate acc f w)) = length (heap w)
  ∧ now (mutate acc f w) = now w ∧ jobs (mutate acc f w) = jobs w
  ∧ controllers (mutate acc f w) = controllers w ∧ loops (mutate acc f w) = loops w
  ∧ requests (mutate acc f w) = requests w ∧ toasts (mutate acc f w) = toasts w.
Proof.
  unfold mutate. repeat case_match; cbn; rewrite ?length_insert; auto 10.
Qed.

Lemma updateJobData_present acc data w a :
  is_Some (jobs w !! a) → is_Some (jobs (updateJobData acc data w) !! a).
Proof.
  cbn. intros H. destruct (decide (acc = a)) as [->|Hne].
  - rewrite lookup_insert_eq. eauto.
  - now rewrite lookup_insert_ne.
Qed.

Lemma set_status_shape acc st w w1 :
  length (heap w1) = length (heap w) ∧ now w1 = now w ∧ jobs w1 = jobs w
  ∧ controllers w1 = controllers w ∧ loops w1 = loops w
  ∧ requests w1 = requests w ∧ toasts w1 = toasts w →
  let w' := updateJobData acc [F_status st] w1 in
  length (heap w') = length (heap w) ∧ now w' = now w
  ∧ controllers w' = controllers w ∧ loops w' = loops w ∧ requests w' = requests w
  ∧ (∀ a, a ≠ acc → jobs w' !! a = jobs w !! a)
  ∧ (∀ a, is_Some (jobs w !! a) → is_Some (jobs w' !! a))
  ∧ untouched (getJob acc w) (getJob acc w')
  ∧ countdown (getJob acc w') = countdown (getJob acc w)
  ∧ status (getJob acc w') = st.
Proof.
  intros (Hh & Hn & Hj & Hc & Hl & Hr & Ht) w'. subst w'. cbn.
  repeat (split; [assumption|]).
  split; [intros a Ha; rewrite lookup_insert_ne by auto; congruence|].
  split; [intros a Ha; rewrite <- Hj in Ha; now apply (updateJobData_present acc [F_status st])|].
  unfold getJob. cbn. rewrite lookup_insert_eq, Hj. repeat split.
Qed.

(** What [pauseJob], [resumeJob] and [stopJob] have in common. *)
Lemma control_shape acc w w' :
  w' = pauseJob acc w ∨ w' = resumeJob acc w ∨ w' = stopJob acc w →
  length (heap w') = length (heap w) ∧ now w' = now w
  ∧ controllers w' = controllers w ∧ loops w' = loops w ∧ requests w' = requests w
  ∧ (∀ a, a ≠ acc → jobs w' !! a = jobs w !! a)
  ∧ (∀ a, is_Some (jobs w !! a) → is_Some (jobs w' !! a))
  ∧ untouched (getJob acc w) (getJob acc w')
  ∧ countdown (getJob acc w') = countdown (getJob acc w).
Proof.
  unfold pauseJob, resumeJob, stopJob.
  intros [->|[->| ->]]; destruct (hasController acc w);
    try (repeat split; auto; fail).
  - match goal with |- context [mutate acc ?f w] =>
      pose proof (set_status_shape acc paused w _ (mutate_shape acc f w)) as H end.
    cbn zeta in H. cbn. tauto.
  - match goal with |- context [mutate acc ?f w] =>
      pose proof (set_status_shape acc processing w _ (mutate_shape acc f w)) as H end.
    cbn zeta in H. cbn. tauto.
  - match goal with |- context [updateJobData _ _ ?w1] =>
      assert (length (heap w1) = length (heap w) ∧ now w1 = now w ∧ jobs w1 = jobs w
              ∧ controllers w1 = controllers w ∧ loops w1 = loops w
              ∧ requests w1 = requests w ∧ toasts w1 = toasts w) as H1
    end.
    { match goal with |- context [mutate acc ?g (mutate acc ?f w)] =>
        pose proof (mutate_shape acc f w) as (?&?&?&?&?&?&?);
        pose proof (mutate_shape acc g (mutate acc f w)) as (?&?&?&?&?&?&?) end.
      repeat split; congruence. }
    pose proof (set_status_shape acc stopped w _ H1) as H.
    cbn zeta in H. tauto.
Qed.

Lemma startJob_valid acc prep w :
  valid acc prep w →
  startJob acc w =
    let r := iteration (length (loops w)) (startLoop acc prep w) (startReset acc w) in
    with_loops (loops w ++ [fst r]) (snd r).
Proof.
  intros [He Hc]. unfold startJob. rewrite Hc.
  assert ((length (parseEmails (emailList (getJob acc w))) =? 0) = false) as ->
    by (destruct (parseEmails _); [congruence|reflexivity]).
  cbn zeta.
  change (toast toast_success (noticeStarted P) _) with (startReset acc w).
  change (length (loops (startReset acc w))) with (length (loops w)).
  fold (startLoop acc prep w).
  destruct (iteration_effect (length (loops w)) (startLoop acc prep w) (startReset acc w))
    as [H _].
  now rewrite (le_loops _ _ _ H).
Qed.

Lemma startJob_invalid acc w :
  (parseEmails (emailList (getJob acc w)) = []
   ∨ ∃ message, checkInputs P (inputs (getJob acc w)) = inl message) →
  ∃ message, startJob acc w = toast toast_error message w.
Proof.
  intros [He|[m Hm]]; unfold startJob.
  - rewrite He. cbn. eauto.
  - destruct (length _ =? 0); [eauto|]. rewrite Hm. eauto.
Qed.

Lemma startJob_cases acc w :
  (∃ message, startJob acc w = toast toast_error message w)
  ∨ (∃ prep, valid acc prep w).
Proof.
  destruct (parseEmails (emailList (getJob acc w))) eqn:E.
  - left. apply startJob_invalid. auto.
  - destruct (checkInputs P (inputs (getJob acc w))) as [m|prep] eqn:Hc.
    + left. apply startJob_invalid. eauto.
    + right. exists prep. split; congruence.
Qed.

Lemma startReset_shape acc w :
  heap (startReset acc w) = heap w ++ [{| isPaused := false; isStopped := false |}]
  ∧ controllers (startReset acc w) = <[acc := length (heap w)]> (controllers w)
  ∧ loops (startReset acc w) = loops w
  ∧ now (startReset acc w) = now w
  ∧ requests (startReset acc w) = requests w
  ∧ (∀ a, a ≠ acc → jobs (startReset acc w) !! a = jobs w !! a)
  ∧ (∀ a, is_Some (jobs w !! a) → is_Some (jobs (startReset acc w) !! a))
  ∧ is_Some (jobs (startReset acc w) !! acc).
Proof.
  unfold startReset. cbn. repeat (split; [reflexivity|]).
  split; [intros a Ha; now rewrite lookup_insert_ne|].
  split; [|rewrite lookup_insert_eq; eauto].
  intros a Ha. destruct (decide (acc = a)) as [->|Hne];
    [rewrite lookup_insert_eq; eauto|now rewrite lookup_insert_ne].
Qed.

Lemma step_wf w e w' : wf w → step w e = Some w' → wf w'.
Proof.
  intros Hw. destruct e as [acc data|acc|acc|acc|acc| |ms|k|k o]; cbn [step].
  - destruct (forallb _ _); [|discriminate]. intros [= <-].
    eapply wf_transfer; eauto. apply updateJobData_present.
  - intros [= <-]. destruct (startJob_cases acc w) as [[m ->]|[prep Hv]].
    { eapply wf_transfer; eauto. }
    rewrite (startJob_valid _ _ _ Hv). cbn zeta.
    set (k := length (loops w)). set (r := iteration _ _ _).
    destruct (iteration_effect k (startLoop acc prep w) (startReset acc w)) as [He Hs].
    fold r in He, Hs. destruct Hs as (Hacc & _ & _ & Hem & Hi).
    destruct (startReset_shape acc w) as (Hh & Hc & Hl & _ & _ & _ & Hj & Hjacc).
    destruct Hw as [A B C D E].
    assert (Hlen : length (heap (snd r)) = S (length (heap w))).
    { rewrite (le_heap _ _ _ He), Hh, length_app. cbn. lia. }
    split; cbn.
    + intros a l. rewrite (le_controllers _ _ _ He), Hc, Hlen.
      destruct (decide (acc = a)) as [->|Hne].
      * rewrite lookup_insert_eq. intros [= <-]. lia.
      * rewrite lookup_insert_ne by auto. intros H. apply A in H. lia.
    + intros k' L l H Hctrl. rewrite Hlen.
      apply lookup_app_Some in H as [H|[_ H]]; [pose proof (B _ _ _ H Hctrl); lia|].
      apply list_lookup_singleton_Some in H as [_ <-].
      subst r. rewrite iteration_ctrl in Hctrl.
      destruct (_ <? _); [|discriminate]. cbn in Hctrl.
      rewrite lookup_insert_eq in Hctrl. injection Hctrl as <-. lia.
    + intros k' L H.
      apply lookup_app_Some in H as [H|[_ H]].
      * destruct (decide (accountId L = acc)) as [Ha|Ha].
        -- rewrite Ha. apply (le_present _ _ _ He), Hjacc.
        -- rewrite (le_other _ _ _ He) by auto. eapply Hj, C, H.
      * apply list_lookup_singleton_Some in H as [_ <-]. rewrite Hacc. cbn.
        apply (le_present _ _ _ He), Hjacc.
    + intros k' L H. rewrite (le_controllers _ _ _ He), Hc.
      apply lookup_app_Some in H as [H|[_ H]].
      * apply lookup_insert_is_Some'. right. eapply D, H.
      * apply list_lookup_singleton_Some in H as [_ <-]. rewrite Hacc. cbn.
        rewrite lookup_insert_eq. eauto.
    + intros k' L H.
      apply lookup_app_Some in H as [H|[_ H]]; [eapply E, H|].
      apply list_lookup_singleton_Some in H as [_ <-].
      intros Hpc. rewrite Hem, Hi. subst r. apply iteration_range in Hpc. exact Hpc.
  - intros [= <-]. destruct (control_shape acc w (pauseJob acc w)) as (?&?&?&?&?&?&?&?); auto.
    eapply wf_transfer; eauto. lia.
  - intros [= <-]. destruct (control_shape acc w (resumeJob acc w)) as (?&?&?&?&?&?&?&?); auto.
    eapply wf_transfer; eauto. lia.
  - intros [= <-]. destruct (control_shape acc w (stopJob acc w)) as (?&?&?&?&?&?&?&?); auto.
    eapply wf_transfer; eauto. lia.
  - intros [= <-]. eapply wf_transfer; eauto. intros a. cbn. rewrite lookup_fmap.
    intros [j ->]. cbn. eauto.
  - intros [= <-]. eapply wf_transfer; eauto.
  - intros H. apply wake_inv in H as (L & r & HL & -> & He & Hs & Hctrl & Hpc & _).
    destruct Hs as (Hacc & _ & _ & Hem & Hi).
    eapply wf_store; eauto using le_controllers, le_loops.
    + now rewrite (le_heap _ _ _ He).
    + intros a Ha. destruct (decide (a = accountId L)) as [->|Hne];
        [now apply (le_present _ _ _ He)|now rewrite (le_other _ _ _ He)].
    + intros l. rewrite Hctrl, (le_heap _ _ _ He). eapply wf_ctrl; eauto.
    + intros _. rewrite Hem, Hi. eapply wf_range; eauto.
  - intros H. apply reply_inv in H as (L & email & w1 & HL & Hpc & Hem & Hr & ->).
    apply recordOutcome_inv in Hr as (j & Hj & ->).
    set (w1 := with_jobs _ w). set (L1 := with_i _ L).
    destruct (iteration_effect k L1 w1) as [He Hs].
    destruct Hs as (Hacc & _ & _ & Hem' & Hi).
    eapply wf_store; eauto.
    + now rewrite (le_heap _ _ _ He).
    + now rewrite (le_controllers _ _ _ He).
    + now rewrite (le_loops _ _ _ He).
    + intros a Ha.
      assert (is_Some (jobs w1 !! a)) as Ha1.
      { subst w1. cbn. apply lookup_insert_is_Some'. auto. }
      destruct (decide (a = accountId L1)) as [->|Hne];
        [now apply (le_present _ _ _ He)|now rewrite (le_other _ _ _ He)].
    + intros l. rewrite iteration_ctrl, (le_heap _ _ _ He).
      change (heap w1) with (heap w). change (controllers w1) with (controllers w).
      destruct (_ <? _); [apply (wf_controllers w Hw)|apply (wf_ctrl w Hw k L l HL)].
    + intros Hp. apply iteration_range in Hp. now rewrite Hem', Hi.
Qed.

Lemma run_wf es w w' : wf w → run es w = Some w' → wf w'.
Proof.
  revert w. induction es as [|e es IH]; intros w Hw; cbn [run].
  - now intros [= <-].
  - destruct (step w e) as [w1|] eqn:Hs; [|discriminate]. cbn.
    apply IH. eapply step_wf; eauto.
Qed.

Lemma reachable_wf w : reachable w → wf w.
Proof. intros [es H]. eapply run_wf; [apply wf_mounted|exact H]. Qed.

(** ** Starting a run *)

Lemma startReset_flags acc w :
  flag isStopped (Some (length (heap w))) (startReset acc w) = false
  ∧ flag isPaused (Some (length (heap w))) (startReset acc w) = false.
Proof.
  unfold flag, startReset. cbn. rewrite lookup_app_r by lia.
  now rewrite Nat.sub_diag.
Qed.

(** The loop head under a token that is neither stopped nor paused. *)
Lemma iteration_clean k L w l email :
  emails L !! i L = Some email →
  controllers w !! accountId L = Some l →
  flag isStopped (Some l) w = false →
  flag isPaused (Some l) w = false →
  iteration k L w =
    if (0 <? i L) && (0 <? delay (job L))%Z then
      (with_pc (AwaitCountdownSecond (delay (job L)) (now w + 1000)) (with_ctrl (Some l) L),
       updateJobData (accountId L) [F_status waiting; F_countdown (delay (job L))] w)
    else
      (with_pc AwaitFetch (with_ctrl (Some l) L),
       with_requests
         (requests w ++
          [(k, buildRequest P (accountId L) (inputs (job L)) (prepared L) email)]) w).
Proof.
  intros He Hc Hs Hp. unfold iteration.
  assert ((i L <? length (emails L)) = true) as ->
    by (apply Nat.ltb_lt; eapply lookup_lt_Some; eauto).
  rewrite Hc.
  change (ctrl (with_ctrl (Some l) L)) with (Some l). rewrite Hs.
  unfold pauseLoop.
  change (ctrl (with_ctrl (Some l) L)) with (Some l). rewrite Hs, Hp.
  cbn [andb]. unfold delayPhase.
  change (i (with_ctrl (Some l) L)) with (i L).
  change (job (with_ctrl (Some l) L)) with (job L).
  destruct ((0 <? i L) && (0 <? delay (job L))%Z) eqn:Hd.
  - apply andb_prop in Hd as [_ Hd]. unfold countdownHead. rewrite Hd.
    change (ctrl (with_ctrl (Some l) L)) with (Some l).
    change (flag isStopped (Some l) (updateJobData _ _ w)) with (flag isStopped (Some l) w).
    rewrite Hs. unfold countdownPause.
    change (ctrl (with_ctrl (Some l) L)) with (Some l).
    change (flag isPaused (Some l) (updateJobData _ _ w)) with (flag isPaused (Some l) w).
    rewrite Hp. reflexivity.
  - unfold tryFetch.
    change (ctrl (with_ctrl (Some l) L)) with (Some l). rewrite Hs.
    change (emails (with_ctrl (Some l) L) !! i (with_ctrl (Some l) L))
      with (emails L !! i L).
    rewrite He. reflexivity.
Qed.

(** A valid [startJob] runs up to the [fetch] for the first recipient. *)
Lemma startJob_first_fetch acc prep w :
  valid acc prep w →
  ∃ email, parseEmails (emailList (getJob acc w)) !! 0 = Some email
  ∧ startJob acc w =
      with_loops
        (loops w ++ [with_pc AwaitFetch
                       (with_ctrl (Some (length (heap w))) (startLoop acc prep w))])
        (with_requests
           (requests w ++
            [(length (loops w), buildRequest P acc (inputs (getJob acc w)) prep email)])
           (startReset acc w)).
Proof.
  intros Hv. rewrite (startJob_valid _ _ _ Hv). destruct Hv as [He _].
  destruct (parseEmails (emailList (getJob acc w))) as [|email rest] eqn:E; [congruence|].
  exists email. split; [reflexivity|]. cbn zeta.
  destruct (startReset_flags acc w) as [Hs Hp].
  rewrite (iteration_clean _ _ _ (length (heap w)) email); auto.
  - unfold startLoop. cbn. now rewrite E.
  - cbn. apply lookup_insert_eq.
Qed.

(** C2: [startJob] splits the recipient text on newlines, trims each line
    and drops the empty ones, in order; when validation passes, the record
    it leaves has empty results, zero counters, zero elapsed seconds and
    countdown, [progress.total] equal to the number of parsed recipients,
    and status [processing].  The five-line example of the specification
    parses to its three addresses. *)
Theorem c2_start_parses_and_resets :
  (∀ s, ∃ lines,
      join newline lines = s
      ∧ Forall (fun line => contains newline line = false) lines
      ∧ parseEmails s = List.filter nonEmpty (List.map trim lines))
  ∧ (∀ line, ∃ pre post,
      line = pre +:+ trim line +:+ post
      ∧ allWhiteSpace pre ∧ allWhiteSpace post
      ∧ (∀ c, firstChar (trim line) = Some c → isWhiteSpace c = false)
      ∧ (∀ c, lastChar (trim line) = Some c → isWhiteSpace c = false))
  ∧ parseEmails
      (join newline ["a@x.com"; ""; " b@x.com "; String newline ""; "c@x.com"])
    = ["a@x.com"; "b@x.com"; "c@x.com"]
  ∧ (∀ acc prep w,
      valid acc prep w →
      ∃ j, jobs (startJob acc w) !! acc = Some j
           ∧ results j = []
           ∧ stats j = {| success := 0; fail := 0 |}
           ∧ progress j =
               {| current := 0;
                  total := length (parseEmails (emailList (getJob acc w))) |}
           ∧ elapsedSeconds j = 0
           ∧ countdown j = 0%Z
           ∧ status j = processing
           ∧ emailList j = emailList (getJob acc w)
           ∧ inputs j = inputs (getJob acc w)
           ∧ delay j = delay (getJob acc w)).
Proof.
  split; [|split; [|split]].
  - intros s. exists (split newline s).
    split; [apply split_join|]. split; [apply split_no_separator|reflexivity].
  - intros line. destruct (trim_spec line) as ((pre & post & H1 & H2 & H3) & H4 & H5).
    exists pre, post. auto.
  - reflexivity.
  - intros acc prep w Hv.
    destruct (startJob_first_fetch acc prep w Hv) as (email & _ & ->).
    cbn. rewrite lookup_insert_eq. eexists. split; [reflexivity|].
    cbn. repeat split.
Qed.

(** C3: a [startJob] that fails validation -- no recipient left after
    parsing; for a send job an empty subject or content; for a track job an
    empty event name or event data that [JSON.parse] rejects -- returns the
    world it was given with one error notice added: no job record, no
    controller, no counter and no loop changes and no request is sent. *)
Theorem c3_invalid_start_changes_nothing :
  (∀ acc w,
      parseEmails (emailList (getJob acc w)) = []
      ∨ (∃ message, checkInputs P (inputs (getJob acc w)) = inl message) →
      ∃ message,
        startJob acc w = with_toasts (toasts w ++ [(toast_error, message)]) w)
  ∧ (∀ x : Inputs BulkJobProvider,
        (∃ message, checkInputs BulkJobProvider x = inl message)
        ↔ subject x = "" ∨ content x = "")
  ∧ (∀ x : Inputs TrackEventProvider,
        (∃ message, checkInputs TrackEventProvider x = inl message)
        ↔ eventName x = "" ∨ JSON_parse (orElse (eventData x) "{}") = None).
Proof.
  split; [|split].
  - intros acc w H. apply startJob_invalid in H as [m ->]. exists m. reflexivity.
  - intros x. cbn. destruct (subject x), (content x); cbn; split;
      intros H; eauto; try (destruct H as [? H]; discriminate);
      destruct H; discriminate.
  - intros x. cbn. destruct (eventName x); cbn.
    + split; eauto.
    + destruct (JSON_parse _); split; intros H; eauto;
        try (destruct H as [? H]; discriminate); destruct H; discriminate.
Qed.

(** ** Controllers along a run *)

Lemma step_controllers w e w' :
  step w e = Some w' →
  controllers w' = controllers w
  ∨ ∃ acc, e = Start acc ∧ controllers w' = <[acc := length (heap w)]> (controllers w).
Proof.
  destruct e as [acc data|acc|acc|acc|acc| |ms|k|k o]; cbn [step].
  - destruct (forallb _ _); [|discriminate]. intros [= <-]. auto.
  - intros [= <-]. destruct (startJob_cases acc w) as [[m ->]|[prep Hv]]; [auto|].
    destruct (startJob_first_fetch acc prep w Hv) as (email & _ & ->). eauto.
  - intros [= <-]. left. now apply (control_shape acc w); auto.
  - intros [= <-]. left. now apply (control_shape acc w); auto.
  - intros [= <-]. left. now apply (control_shape acc w); auto.
  - intros [= <-]. auto.
  - intros [= <-]. auto.
  - intros H. apply wake_inv in H as (L & r & HL & -> & He & _). left.
    cbn. apply He.
  - intros H. apply reply_inv in H as (L & email & w1 & HL & Hpc & Hem & Hr & ->).
    apply recordOutcome_inv in Hr as (j & Hj & ->). left. cbn.
    match goal with |- controllers (snd (iteration ?k ?L ?w)) = _ =>
      destruct (iteration_effect k L w) as [He _]; apply He end.
Qed.

Lemma run_keeps_controller es w w' acc :
  run es w = Some w' →
  is_Some (controllers w !! acc) → is_Some (controllers w' !! acc).
Proof.
  revert w. induction es as [|e es IH]; intros w; cbn [run].
  - now intros [= <-].
  - destruct (step w e) as [w1|] eqn:Hs; [|discriminate]. cbn.
    intros Hr Hc. apply (IH w1 Hr).
    destruct (step_controllers _ _ _ Hs) as [->|(a & _ & ->)]; [assumption|].
    apply lookup_insert_is_Some'. auto.
Qed.

Lemma run_without_start es w w' acc :
  run es w = Some w' →
  Start acc ∉ es →
  controllers w' !! acc = controllers w !! acc.
Proof.
  revert w. induction es as [|e es IH]; intros w; cbn [run].
  - now intros [= <-].
  - destruct (step w e) as [w1|] eqn:Hs; [|discriminate]. cbn.
    intros Hr Hn. rewrite (IH w1 Hr) by (intros ?; apply Hn; now right).
    destruct (step_controllers _ _ _ Hs) as [->|(a & -> & ->)]; [reflexivity|].
    apply lookup_insert_ne. intros ->. apply Hn. now left.
Qed.

Lemma hasController_spec acc w :
  hasController acc w = true ↔ is_Some (controllers w !! acc).
Proof.
  unfold hasController. destruct (controllers w !! acc); split; eauto;
    try discriminate. intros [? ?]. discriminate.
Qed.

(** C10: for an account that has no controller -- in particular one for
    which no [Start] ever happened -- [pauseJob], [resumeJob] and [stopJob]
    return the world unchanged.  A controller, once created, is there after
    every later run of events, and with a controller [pauseJob] sets the
    status to [paused] and [resumeJob] to [processing] whatever the status
    was, [completed] and [stopped] included. *)
Theorem c10_controls_guarded_by_token_only :
  (∀ acc w,
      controllers w !! acc = None →
      pauseJob acc w = w ∧ resumeJob acc w = w ∧ stopJob acc w = w)
  ∧ (∀ acc es w, run es mounted = Some w → Start acc ∉ es →
      controllers w !! acc = None)
  ∧ (∀ acc es w w',
      is_Some (controllers w !! acc) → run es w = Some w' →
      is_Some (controllers w' !! acc)
      ∧ status (getJob acc (pauseJob acc w')) = paused
      ∧ status (getJob acc (resumeJob acc w')) = processing
      ∧ status (getJob acc (stopJob acc w')) = stopped).
Proof.
  split; [|split].
  - intros acc w H. unfold pauseJob, resumeJob, stopJob, hasController.
    now rewrite H.
  - intros acc es w Hr Hn. rewrite (run_without_start _ _ _ _ Hr Hn). apply lookup_empty.
  - intros acc es w w' Hc Hr.
    pose proof (run_keeps_controller _ _ _ _ Hr Hc) as Hc'.
    split; [assumption|].
    apply hasController_spec in Hc'.
    unfold pauseJob, resumeJob, stopJob. rewrite Hc'.
    unfold getJob. cbn. rewrite !lookup_insert_eq. auto.
Qed.

(** ** Recording an outcome *)

Lemma getJob_lookup acc w j : jobs w !! acc = Some j → getJob acc w = j.
Proof. unfold getJob. now intros ->. Qed.

Lemma iteration_not_returned k L w :
  i L < length (emails L) →
  flag isStopped (controllers w !! accountId L) w = false →
  pc (fst (iteration k L w)) ≠ Returned.
Proof.
  intros Hi Hs. unfold iteration.
  apply Nat.ltb_lt in Hi. rewrite Hi.
  apply Nat.ltb_lt in Hi. apply lookup_lt_is_Some_2 in Hi as [email He].
  set (L' := with_ctrl _ L).
  change (ctrl L') with (controllers w !! accountId L). rewrite Hs.
  unfold pauseLoop. change (ctrl L') with (controllers w !! accountId L).
  rewrite Hs. destruct (flag isPaused _ w); cbn [andb negb fst with_pc pc]; [discriminate|].
  unfold delayPhase. destruct (_ && _) eqn:Hd.
  - apply andb_prop in Hd as [_ Hd]. unfold countdownHead. rewrite Hd.
    change (flag isStopped (ctrl L') (updateJobData _ _ w))
      with (flag isStopped (controllers w !! accountId L) w).
    rewrite Hs. unfold countdownPause. destruct (_ && _); discriminate.
  - unfold tryFetch. change (ctrl L') with (controllers w !! accountId L).
    change (emails L' !! i L') with (emails L !! i L).
    rewrite Hs, He. discriminate.
Qed.

(** The continuation of a [fetch]: what is recorded and where the loop goes. *)
Lemma reply_recorded k o w L email j :
  loops w !! k = Some L → pc L = AwaitFetch →
  emails L !! i L = Some email → jobs w !! accountId L = Some j →
  let r := outcomeResult (i L + 1) email o in
  ∃ w1 w' j',
    recordOutcome (accountId L) r w = Some w1
    ∧ reply k o w = Some w'
    ∧ w' = store k (iteration k (with_i (i L + 1) L) w1)
    ∧ jobs w' !! accountId L = Some j'
    ∧ results j' = r :: results j
    ∧ stats j' = countOutcome (stats j) (SendResult.status r)
    ∧ progress j' = {| current := i L + 1; total := total (progress j) |}
    ∧ heap w1 = heap w ∧ controllers w1 = controllers w ∧ now w1 = now w
    ∧ requests w1 = requests w.
Proof.
  intros HL Hpc He Hj r.
  unfold reply. rewrite HL. cbn. rewrite Hpc, He. cbn.
  unfold recordOutcome. rewrite Hj. cbn.
  set (w1 := with_jobs _ w). set (L1 := with_i _ L).
  destruct (iteration_effect k L1 w1) as [Heff _].
  assert (Hj1 : jobs w1 !! accountId L = Some
            (spread j [F_stats (countOutcome (stats j) (SendResult.status r));
                       F_progress {| current := SendResult.id r;
                                     total := total (progress j) |};
                       F_results (r :: results j)]))
    by (subst w1; cbn; apply lookup_insert_eq).
  destruct (le_present _ _ _ Heff) as [j' Hj']; [change (accountId L1) with (accountId L); eauto|].
  change (accountId L1) with (accountId L) in *.
  exists w1, (store k (iteration k L1 w1)), j'.
  split; [reflexivity|]. split; [reflexivity|]. split; [reflexivity|].
  split; [exact Hj'|].
  pose proof (le_job _ _ _ Heff) as (_ & _ & _ & Hp & Hr & Hs & _).
  rewrite (getJob_lookup _ _ _ Hj1), (getJob_lookup _ _ _ Hj') in Hp, Hr, Hs.
  rewrite Hp, Hr, Hs. cbn. subst r.
  repeat split. destruct o as [[] ?|?]; reflexivity.
Qed.

(** ** Steps that record nothing *)

Lemma spread_inputs_kept j (data : list (Field P)) :
  forallb isInput data = true → kept j (spread j data) ∧ status (spread j data) = status j.
Proof.
  unfold spread. revert j. induction data as [|f data IH]; intros j H; cbn.
  - repeat split.
  - cbn in H. apply andb_prop in H as [Hf H].
    destruct (IH (assign j f) H) as ((?&?&?&?)&?).
    destruct f; try discriminate; cbn in *; repeat split; assumption.
Qed.

Lemma getJob_tick a w : getJob a (tick w) = tickJob (getJob a w).
Proof.
  unfold getJob, tick. cbn. rewrite lookup_fmap.
  destruct (jobs w !! a); reflexivity.
Qed.

Lemma tickJob_kept j : kept j (tickJob j) ∧ status (tickJob j) = status j.
Proof. unfold tickJob. destruct (status j) eqn:E; cbn; repeat split; auto. Qed.

Lemma getJob_ext a w w' : jobs w' !! a = jobs w !! a → getJob a w' = getJob a w.
Proof. unfold getJob. now intros ->. Qed.

Lemma untouched_agree j j' : untouched j j' → agree j → agree j'.
Proof. unfold agree. intros (_&_&_&->&->&->&_). auto. Qed.

Lemma kept_agree j j' : kept j j' → agree j → agree j'.
Proof. unfold agree. intros (->&->&->&_). auto. Qed.

Lemma same_record_kept a w w' :
  jobs w' !! a = jobs w !! a →
  kept (getJob a w) (getJob a w') ∧ status (getJob a w') = status (getJob a w).
Proof. intros H. rewrite (getJob_ext a w w' H). repeat split. Qed.

Lemma control_status acc w :
  (status (getJob acc (pauseJob acc w)) = paused ∨ pauseJob acc w = w)
  ∧ (status (getJob acc (resumeJob acc w)) = processing ∨ resumeJob acc w = w)
  ∧ (status (getJob acc (stopJob acc w)) = stopped ∨ stopJob acc w = w).
Proof.
  unfold pauseJob, resumeJob, stopJob. destruct (hasController acc w); [|auto].
  unfold getJob. cbn. rewrite !lookup_insert_eq. auto.
Qed.

(** The events that are neither a continuation of a loop nor a [Start]. *)
Lemma calm_step w e w' :
  step w e = Some w' →
  (∀ k, e ≠ Wake k) → (∀ k o, e ≠ Reply k o) → (∀ acc, e ≠ Start acc) →
  loops w' = loops w ∧ requests w' = requests w
  ∧ ∀ a, kept (getJob a w) (getJob a w')
         ∧ (status (getJob a w') = status (getJob a w)
            ∨ (e = Pause a ∧ status (getJob a w') = paused)
            ∨ (e = Resume a ∧ status (getJob a w') = processing)
            ∨ (e = Stop a ∧ status (getJob a w') = stopped)).
Proof.
  intros Hs Hw Hr Hst.
  destruct e as [acc data|acc|acc|acc|acc| |ms|k|k o]; cbn [step] in Hs;
    try (exfalso; eapply Hw; reflexivity); try (exfalso; eapply Hr; reflexivity);
    try (exfalso; eapply Hst; reflexivity).
  - destruct (forallb _ _) eqn:Hd; [|discriminate]. injection Hs as <-.
    split; [reflexivity|]. split; [reflexivity|]. intros a.
    destruct (decide (a = acc)) as [->|Hne].
    + rewrite getJob_updateJobData.
      destruct (spread_inputs_kept (getJob acc w) data Hd). auto.
    + rewrite getJob_updateJobData_ne by auto. repeat split. auto.
  - injection Hs as <-.
    destruct (control_shape acc w (pauseJob acc w)) as (_&_&_&Hl&Hq&Ho&_&Hu&Hc); auto.
    split; [exact Hl|]. split; [exact Hq|]. intros a.
    destruct (decide (a = acc)) as [->|Hne].
    + destruct Hu as (_&_&_&?&?&?&_). split; [repeat split; auto|].
      destruct (control_status acc w) as ([Hcs| ->]&_&_); auto 6.
    + destruct (same_record_kept a w _ (Ho a Hne)). auto.
  - injection Hs as <-.
    destruct (control_shape acc w (resumeJob acc w)) as (_&_&_&Hl&Hq&Ho&_&Hu&Hc); auto.
    split; [exact Hl|]. split; [exact Hq|]. intros a.
    destruct (decide (a = acc)) as [->|Hne].
    + destruct Hu as (_&_&_&?&?&?&_). split; [repeat split; auto|].
      destruct (control_status acc w) as (_&[Hcs| ->]&_); auto 6.
    + destruct (same_record_kept a w _ (Ho a Hne)). auto.
  - injection Hs as <-.
    destruct (control_shape acc w (stopJob acc w)) as (_&_&_&Hl&Hq&Ho&_&Hu&Hc); auto 6.
    split; [exact Hl|]. split; [exact Hq|]. intros a.
    destruct (decide (a = acc)) as [->|Hne].
    + destruct Hu as (_&_&_&?&?&?&_). split; [repeat split; auto|].
      destruct (control_status acc w) as (_&_&[Hcs| ->]); auto 6.
    + destruct (same_record_kept a w _ (Ho a Hne)). auto.
  - injection Hs as <-. split; [reflexivity|]. split; [reflexivity|]. intros a.
    rewrite getJob_tick. destruct (tickJob_kept (getJob a w)). auto.
  - injection Hs as <-. split; [reflexivity|]. split; [reflexivity|]. intros a.
    repeat split. auto.
Qed.

(** ** Runs that do not overlap *)

Lemma solo_mounted : solo (@mounted P).
Proof.
  split; cbn; intros *; try rewrite lookup_nil; try congruence.
  unfold agree, getJob. cbn. rewrite lookup_empty. cbn. auto.
Qed.

Lemma solo_store k (r : Loop P * World P) w L :
  solo w →
  loops w !! k = Some L → pc L ≠ Returned →
  loops (snd r) = loops w →
  accountId (fst r) = accountId L →
  (∀ a, a ≠ accountId L → jobs (snd r) !! a = jobs w !! a) →
  agree (getJob (accountId L) (snd r)) →
  (pc (fst r) ≠ Returned →
   current (progress (getJob (accountId L) (snd r))) = i (fst r)) →
  (status (getJob (accountId L) (snd r)) = completed → pc (fst r) = Returned) →
  controllers (snd r) = controllers w →
  (pc (fst r) ≠ Returned → ctrl (fst r) = controllers w !! accountId L) →
  solo (store k r).
Proof.
  intros [A B C D E] HL Hlive Hl Hacc Ho Hag Hidx Hcomp Hctl Htok.
  assert (HL' : loops (snd r) !! k = Some L) by now rewrite Hl.
  assert (Hother : ∀ k' L', k' ≠ k → loops w !! k' = Some L' →
                             pc L' ≠ Returned → accountId L' ≠ accountId L).
  { intros k' L' Hk H' Hp Ha. apply Hk. eapply A; eauto. }
  assert (Hget : ∀ a, a ≠ accountId L → getJob a (store k r) = getJob a w).
  { intros a Ha. apply getJob_ext. cbn. auto. }
  split.
  - intros k1 k2 L1 L2 H1 H2 Ha Hp1 Hp2.
    destruct (lookup_store _ _ _ _ _ HL' H1) as [[-> ->]|[Hk1 H1']];
      destruct (lookup_store _ _ _ _ _ HL' H2) as [[-> ->]|[Hk2 H2']]; auto.
    + rewrite Hl in H2'. exfalso. eapply Hother; eauto. congruence.
    + rewrite Hl in H1'. exfalso. eapply Hother; eauto. congruence.
    + rewrite Hl in H1', H2'. eapply A; eauto.
  - intros a. destruct (decide (a = accountId L)) as [->|Hne]; [exact Hag|].
    rewrite Hget by auto. apply B.
  - intros k' L' H Hp.
    destruct (lookup_store _ _ _ _ _ HL' H) as [[-> ->]|[Hk H']].
    + rewrite Hacc. auto.
    + rewrite Hl in H'. rewrite Hget by eauto. eauto.
  - intros k' L' H Hst.
    destruct (lookup_store _ _ _ _ _ HL' H) as [[-> ->]|[Hk H']].
    + rewrite Hacc in Hst. auto.
    + rewrite Hl in H'.
      destruct (pc L') eqn:Hp; try reflexivity;
        (rewrite Hget in Hst by (eapply Hother; eauto; rewrite Hp; discriminate));
        rewrite <- Hp; eauto.
  - intros k' L' H Hp. cbn [controllers store with_loops]. rewrite Hctl.
    destruct (lookup_store _ _ _ _ _ HL' H) as [[-> ->]|[Hk H']].
    + rewrite Hacc. auto.
    + rewrite Hl in H'. eauto.
Qed.

Lemma settled_spec acc w :
  settled acc w = true ↔
  ∀ k L, loops w !! k = Some L → accountId L = acc → pc L = Returned.
Proof.
  unfold settled. rewrite forallb_forall. split.
  - intros H k L HL Ha. apply list_elem_of_lookup_2, list_elem_of_In in HL.
    specialize (H L HL). rewrite Ha, String.eqb_refl in H. cbn in H.
    unfold returned in H. destruct (pc L); congruence.
  - intros H L HL. apply list_elem_of_In, list_elem_of_lookup_1 in HL as [k HL].
    destruct (String.eqb_spec (accountId L) acc) as [Ha|Ha]; [|reflexivity].
    cbn. unfold returned. now rewrite (H k L HL Ha).
Qed.

Lemma step_solo w e w' :
  solo w →
  (∀ acc, e = Start acc → settled acc w = true) →
  step w e = Some w' → solo w'.
Proof.
  intros Hso Hex Hs.
  pose proof (step_controllers _ _ _ Hs) as Hctl.
  destruct e as [acc data|acc|acc|acc|acc| |ms|k|k o].
  all: try (apply calm_step in Hs as (Hl & _ & Hk); try discriminate;
            destruct Hctl as [Hctl|(? & ? & _)]; [|discriminate];
            destruct Hso as [A B C D E]; split;
            [ rewrite Hl; exact A
            | intros a; destruct (Hk a) as [Hka _]; eapply kept_agree; eauto
            | rewrite Hl; intros k' L' HL' Hp; destruct (Hk (accountId L')) as [(-> & _) _]; eauto
            | rewrite Hl; intros k' L' HL' Hst; destruct (Hk (accountId L')) as [_ [Hst'|Hst']];
              [ rewrite Hst' in Hst; eauto | rewrite Hst in Hst'; destruct Hst' as [[_ ?]|[[_ ?]|[_ ?]]]; discriminate ]
            | rewrite Hl, Hctl; exact E ];
            fail).
  - (* Start *)
    cbn [step] in Hs. injection Hs as <-.
    destruct (startJob_cases acc w) as [[m ->]|[prep Hv]].
    { destruct Hso as [A B C D E]. split; auto. }
    destruct (startJob_first_fetch acc prep w Hv) as (email & He & ->).
    specialize (Hex acc eq_refl). rewrite settled_spec in Hex.
    destruct Hso as [A B C D E].
    set (L0 := with_pc AwaitFetch _).
    assert (Hget : ∀ a, a ≠ acc →
      getJob a (with_loops (loops w ++ [L0])
                  (with_requests
                     (requests w ++ [(length (loops w),
                        buildRequest P acc (inputs (getJob acc w)) prep email)])
                     (startReset acc w))) = getJob a w).
    { intros a Ha. apply getJob_ext. cbn. now rewrite lookup_insert_ne. }
    assert (Hacc : ∀ x, getJob acc (with_loops (loops w ++ [L0])
                  (with_requests x (startReset acc w)))
             = spread (getJob acc w)
                 [F_status processing; F_results [];
                  F_stats {| success := 0; fail := 0 |};
                  F_progress {| current := 0;
                      total := length (parseEmails (emailList (getJob acc w))) |};
                  F_elapsedSeconds 0; F_countdown 0]).
    { intros x. unfold getJob. cbn. now rewrite lookup_insert_eq. }
    split; cbn [loops with_loops].
    + intros k1 k2 L1 L2 H1 H2 Ha Hp1 Hp2.
      apply lookup_app_Some in H1 as [H1|[Hk1 H1]];
        apply lookup_app_Some in H2 as [H2|[Hk2 H2]].
      * eapply A; eauto.
      * apply list_lookup_singleton_Some in H2 as [_ <-].
        exfalso. apply Hp1. eapply Hex; eauto.
      * apply list_lookup_singleton_Some in H1 as [_ <-].
        exfalso. apply Hp2. eapply Hex; eauto.
      * apply list_lookup_singleton_Some in H1 as [? _].
        apply list_lookup_singleton_Some in H2 as [? _]. lia.
    + intros a. destruct (decide (a = acc)) as [->|Hne].
      * rewrite Hacc. split; reflexivity.
      * rewrite Hget by auto. apply B.
    + intros k' L' H Hp. apply lookup_app_Some in H as [H|[_ H]].
      * assert (accountId L' ≠ acc) by (intros Ha; apply Hp; eapply Hex; eauto).
        rewrite Hget by auto. eauto.
      * apply list_lookup_singleton_Some in H as [_ <-].
        change (accountId L0) with acc. rewrite Hacc. reflexivity.
    + intros k' L' H Hst. apply lookup_app_Some in H as [H|[_ H]].
      * destruct (decide (accountId L' = acc)) as [Ha|Ha]; [eapply Hex; eauto|].
        rewrite Hget in Hst by auto. eauto.
      * apply list_lookup_singleton_Some in H as [_ <-].
        change (accountId L0) with acc in Hst. rewrite Hacc in Hst. discriminate.
    + cbn [controllers with_loops with_requests startReset toast updateJobData
             with_toasts with_jobs with_controllers].
      intros k' L' H Hp. apply lookup_app_Some in H as [H|[_ H]].
      * assert (accountId L' ≠ acc) by (intros Ha; apply Hp; eapply Hex; eauto).
        rewrite lookup_insert_ne by auto. eauto.
      * apply list_lookup_singleton_Some in H as [_ <-].
        change (accountId L0) with acc. now rewrite lookup_insert_eq.
  - (* Wake *)
    cbn [step] in Hs.
    apply wake_inv in Hs as (L & r & HL & -> & He & Hsl & Hcr & Hp & _ & Hsh & _).
    destruct Hsl as (Hacc & _ & _ & _ & Hi).
    pose proof (le_job _ _ _ He) as Hu.
    eapply solo_store; eauto using le_loops, le_other, le_controllers.
    + eapply untouched_agree; [exact Hu|]. apply Hso.
    + intros _. destruct Hu as (_&_&_&->&_). rewrite Hi. eapply solo_index; eauto.
    + intros Hst. destruct Hsh as (Hc & _). destruct (Hc Hst) as [|Hc']; [assumption|].
      exfalso. apply Hp. eapply solo_completed; eauto.
    + intros _. rewrite Hcr. eapply solo_token; eauto.
  - (* Reply *)
    cbn [step] in Hs.
    apply reply_inv in Hs as (L & email & w1 & HL & Hpc & Hem & Hr & ->).
    assert (Hp : pc L ≠ Returned) by (rewrite Hpc; discriminate).
    apply recordOutcome_inv in Hr as (j & Hj & ->).
    set (rr := outcomeResult _ _ _). set (w1 := with_jobs _ w). set (L1 := with_i _ L).
    destruct (iteration_effect k L1 w1) as [He (Hacc & _ & _ & _ & Hi)].
    pose proof (iteration_shown k L1 w1) as (Hc & _).
    change (accountId L1) with (accountId L) in *.
    pose proof (le_job _ _ _ He) as Hu.
    pose proof (getJob_lookup _ _ _ Hj) as Hgj.
    pose proof (solo_agree _ Hso (accountId L)) as [Hag1 Hag2].
    pose proof (solo_index _ Hso k L HL Hp) as Hidx.
    rewrite Hgj in Hag1, Hag2, Hidx.
    assert (Hg1 : getJob (accountId L) w1 =
              spread j [F_stats (countOutcome (stats j) (SendResult.status rr));
                        F_progress {| current := SendResult.id rr;
                                      total := total (progress j) |};
                        F_results (rr :: results j)])
      by (unfold getJob; subst w1; cbn; now rewrite lookup_insert_eq).
    assert (Hid : SendResult.id rr = i L + 1) by (subst rr; destruct o; reflexivity).
    eapply solo_store; eauto.
    + now rewrite (le_loops _ _ _ He).
    + intros a Ha. rewrite (le_other _ _ _ He) by auto. subst w1. cbn.
      now rewrite lookup_insert_ne.
    + eapply untouched_agree; [exact Hu|]. rewrite Hg1. unfold agree. cbn.
      rewrite Hid. destruct (SendResult.status rr); cbn; lia.
    + intros _. destruct Hu as (_&_&_&->&_). rewrite Hi, Hg1. cbn. exact Hid.
    + intros Hst. destruct (Hc Hst) as [|Hc']; [assumption|].
      exfalso. rewrite Hg1 in Hc'. cbn in Hc'. apply Hp.
      eapply solo_completed; eauto. now rewrite Hgj.
    + now rewrite (le_controllers _ _ _ He).
    + intros Hlive. apply iteration_range in Hlive. rewrite iteration_ctrl.
      apply Nat.ltb_lt in Hlive. now rewrite Hlive.
Qed.

Lemma run_solo es w w' :
  solo w → exclusive es w = true → run es w = Some w' → solo w'.
Proof.
  revert w. induction es as [|e es IH]; intros w Hso Hex; cbn [run].
  - now intros [= <-].
  - cbn [exclusive] in Hex. apply andb_prop in Hex as [He Hex].
    destruct (step w e) as [w1|] eqn:Hs; [|discriminate]. cbn.
    apply IH; [|exact Hex]. eapply step_solo; eauto.
    intros acc ->. exact He.
Qed.

(** ** The countdown *)

Lemma delayInv_mounted : delayInv (@mounted P).
Proof.
  split; cbn.
  - intros acc. unfold getJob. cbn. rewrite lookup_empty. cbn. congruence.
  - intros acc _ k L. rewrite lookup_nil. discriminate.
Qed.

Lemma recorded_getJob acc r w j a :
  jobs w !! acc = Some j →
  let w1 := with_jobs (<[acc := spread j
                 [F_stats (countOutcome (stats j) (SendResult.status r));
                  F_progress {| current := SendResult.id r; total := total (progress j) |};
                  F_results (r :: results j)]]> (jobs w)) w in
  status (getJob a w1) = status (getJob a w)
  ∧ countdown (getJob a w1) = countdown (getJob a w).
Proof.
  intros Hj w1. subst w1. unfold getJob. cbn.
  destruct (decide (a = acc)) as [->|Hne].
  - rewrite lookup_insert_eq, Hj. cbn. auto.
  - rewrite lookup_insert_ne by auto. auto.
Qed.

Lemma step_delayInv w e w' : delayInv w → step w e = Some w' → delayInv w'.
Proof.
  intros [A B] Hs.
  destruct e as [acc data|acc|acc|acc|acc| |ms|k|k o].
  all: try (apply calm_step in Hs as (Hl & _ & Hk); try discriminate;
            split; rewrite Hl;
            [ intros a; destruct (Hk a) as [(_&_&_&->) _]; apply A
            | intros a Hst; destruct (Hk a) as [_ [Hst'|[Hst'|[Hst'|Hst']]]];
              [ rewrite Hst' in Hst; now apply B
              | destruct Hst' as [_ Hst']; rewrite Hst in Hst'; discriminate .. ] ];
            fail).
  - (* Start *)
    cbn [step] in Hs. injection Hs as <-.
    destruct (startJob_cases acc w) as [[m ->]|[prep Hv]]; [split; auto|].
    destruct (startJob_first_fetch acc prep w Hv) as (email & He & ->).
    set (L0 := with_pc AwaitFetch _).
    split; cbn [loops with_loops].
    + intros a. destruct (decide (a = acc)) as [->|Hne].
      * unfold getJob. cbn. rewrite lookup_insert_eq. cbn. congruence.
      * unfold getJob. cbn. rewrite lookup_insert_ne by auto.
        intros H. destruct (A a H) as (k & L & HL & Ha & Hd).
        exists k, L. split; [|auto]. now apply lookup_app_l_Some.
    + intros a. destruct (decide (a = acc)) as [->|Hne].
      * unfold getJob. cbn. rewrite lookup_insert_eq. cbn. discriminate.
      * unfold getJob. cbn. rewrite lookup_insert_ne by auto.
        intros Hst k L H. apply lookup_app_Some in H as [H|[_ H]]; [eapply B; eauto|].
        apply list_lookup_singleton_Some in H as [_ <-]. cbn. congruence.
  - (* Wake *)
    cbn [step] in Hs.
    apply wake_inv in Hs as (L & r & HL & -> & He & Hsl & _ & Hp & _ & Hsh & Hdl & _).
    destruct Hsl as (Hacc & _). destruct Hsh as (_ & Hid & Hcd).
    assert (HL' : loops (snd r) !! k = Some L) by now rewrite (le_loops _ _ _ He).
    assert (Hk : loops (store k r) !! k = Some (fst r)).
    { rewrite store_loops. apply list_lookup_insert_eq. eapply lookup_lt_Some; eauto. }
    assert (Hget : ∀ a, a ≠ accountId L → getJob a (store k r) = getJob a w).
    { intros a Ha. apply getJob_ext. cbn. now apply He. }
    split.
    + intros a. destruct (decide (a = accountId L)) as [->|Hne].
      * change (getJob (accountId L) (store k r)) with (getJob (accountId L) (snd r)).
        intros Hnz. destruct Hcd as [Hd|[Hz|Hsame]]; [eauto|congruence|].
        rewrite Hsame in Hnz. destruct (A _ Hnz) as (k' & L' & HL1 & Ha & Hd).
        destruct (decide (k' = k)) as [->|Hk'].
        -- assert (L' = L) by congruence. subst L'.
           destruct (Hdl Hd) as [|Hz]; [eauto|]. congruence.
        -- exists k', L'. split; [|auto]. rewrite store_loops, list_lookup_insert_ne by auto.
           now rewrite (le_loops _ _ _ He).
      * rewrite Hget by auto. intros Hnz.
        destruct (A _ Hnz) as (k' & L' & HL1 & Ha & Hd).
        exists k', L'. split; [|auto].
        rewrite store_loops, list_lookup_insert_ne by congruence.
        now rewrite (le_loops _ _ _ He).
    + intros a Hst k' L' H.
      destruct (decide (a = accountId L)) as [->|Hne].
      * change (getJob (accountId L) (store k r)) with (getJob (accountId L) (snd r)) in Hst.
        exfalso. eapply (B (accountId L)); eauto.
      * rewrite Hget in Hst by auto.
        destruct (lookup_store _ _ _ _ _ HL' H) as [[-> ->]|[_ H']]; [congruence|].
        rewrite (le_loops _ _ _ He) in H'. eauto.
  - (* Reply *)
    cbn [step] in Hs.
    apply reply_inv in Hs as (L & email & w1 & HL & Hpc & Hem & Hr & ->).
    apply recordOutcome_inv in Hr as (j & Hj & ->).
    set (rr := outcomeResult _ _ _).
    pose proof (recorded_getJob (accountId L) rr w j) as Hrec.
    specialize (fun a => Hrec a Hj). cbn zeta in Hrec.
    set (w1 := with_jobs _ w) in *. set (L1 := with_i _ L).
    destruct (iteration_effect k L1 w1) as [He (Hacc & _)].
    destruct (iteration_shown k L1 w1) as (_ & Hid & Hcd).
    change (accountId L1) with (accountId L) in *.
    set (r := iteration k L1 w1) in *.
    assert (HL' : loops (snd r) !! k = Some L) by now rewrite (le_loops _ _ _ He).
    assert (Hk : loops (store k r) !! k = Some (fst r)).
    { rewrite store_loops. apply list_lookup_insert_eq. eapply lookup_lt_Some; eauto. }
    assert (Hget : ∀ a, a ≠ accountId L →
              status (getJob a (store k r)) = status (getJob a w)
              ∧ countdown (getJob a (store k r)) = countdown (getJob a w)).
    { intros a Ha. rewrite (getJob_ext a w1 (store k r)) by (cbn; now apply He).
      apply Hrec. }
    split.
    + intros a. destruct (decide (a = accountId L)) as [->|Hne].
      * change (getJob (accountId L) (store k r)) with (getJob (accountId L) (snd r)).
        intros Hnz. destruct Hcd as [Hd|[Hz|Hsame]]; [eauto|congruence|].
        rewrite Hsame in Hnz. destruct (Hrec (accountId L)) as [_ Hc]. rewrite Hc in Hnz.
        destruct (A _ Hnz) as (k' & L' & HL1 & Ha & Hd).
        destruct (decide (k' = k)) as [->|Hk'].
        -- assert (L' = L) by congruence. subst L'. rewrite Hpc in Hd. destruct Hd.
        -- exists k', L'. split; [|auto]. rewrite store_loops, list_lookup_insert_ne by auto.
           now rewrite (le_loops _ _ _ He).
      * destruct (Hget a Hne) as [_ ->]. intros Hnz.
        destruct (A _ Hnz) as (k' & L' & HL1 & Ha & Hd).
        exists k', L'. split; [|auto].
        rewrite store_loops, list_lookup_insert_ne by congruence.
        now rewrite (le_loops _ _ _ He).
    + intros a Hst k' L' H.
      destruct (decide (a = accountId L)) as [->|Hne].
      * change (getJob (accountId L) (store k r)) with (getJob (accountId L) (snd r)) in Hst.
        exfalso. apply Hid in Hst. destruct (Hrec (accountId L)) as [Hs' _].
        rewrite Hs' in Hst. eapply (B (accountId L)); eauto.
      * destruct (Hget a Hne) as [Hs' _]. rewrite Hs' in Hst.
        destruct (lookup_store _ _ _ _ _ HL' H) as [[-> ->]|[_ H']]; [congruence|].
        rewrite (le_loops _ _ _ He) in H'. eauto.
Qed.

Lemma reachable_delayInv w : reachable w → delayInv w.
Proof.
  intros [es H]. revert H. generalize (@delayInv_mounted). generalize (@mounted P).
  induction es as [|e es IH]; intros w0 H0; cbn [run].
  - now intros [= <-].
  - destruct (step w0 e) as [w1|] eqn:Hs; [|discriminate]. cbn.
    apply IH. eapply step_delayInv; eauto.
Qed.

Lemma inDelay_live (p : PC) : inDelay p → p ≠ Returned.
Proof. destruct p; cbn; intros H; try discriminate; destruct H. Qed.

Lemma step_waitingInv w e w' :
  solo w → waitingInv w →
  (∀ acc, e = Start acc → settled acc w = true) →
  isControl e = false →
  step w e = Some w' → waitingInv w'.
Proof.
  intros Hso Hwt Hex Hctl Hs. unfold waitingInv in *.
  destruct e as [acc data|acc|acc|acc|acc| |ms|k|k o]; try discriminate Hctl.
  all: try (apply calm_step in Hs as (Hl & _ & Hk); try discriminate;
            rewrite Hl; intros k' L' HL' Hd;
            destruct (Hk (accountId L')) as [_ [->|[[? _]|[[? _]|[? _]]]]];
            try discriminate; eauto; fail).
  - (* Start *)
    cbn [step] in Hs. injection Hs as <-.
    destruct (startJob_cases acc w) as [[m ->]|[prep Hv]]; [exact Hwt|].
    destruct (startJob_first_fetch acc prep w Hv) as (email & He & ->).
    specialize (Hex acc eq_refl). rewrite settled_spec in Hex.
    cbn [loops with_loops]. intros k' L' H Hd.
    apply lookup_app_Some in H as [H|[_ H]].
    + assert (accountId L' ≠ acc).
      { intros Ha. apply (inDelay_live _ Hd). eapply Hex; eauto. }
      unfold getJob. cbn. rewrite lookup_insert_ne by auto. eapply Hwt; eauto.
    + apply list_lookup_singleton_Some in H as [_ <-]. destruct Hd.
  - (* Wake *)
    cbn [step] in Hs.
    apply wake_inv in Hs as (L & r & HL & -> & He & Hsl & _ & Hp & _ & _ & _ & Hw).
    destruct Hsl as (Hacc & _).
    assert (HL' : loops (snd r) !! k = Some L) by now rewrite (le_loops _ _ _ He).
    intros k' L' H Hd.
    destruct (lookup_store _ _ _ _ _ HL' H) as [[-> ->]|[Hk H']].
    + rewrite Hacc.
      change (getJob (accountId L) (store k r)) with (getJob (accountId L) (snd r)).
      destruct (Hw Hd) as [|[Hd0 ->]]; eauto.
    + rewrite (le_loops _ _ _ He) in H'.
      assert (accountId L' ≠ accountId L).
      { intros Ha. apply Hk. eapply (solo_one _ Hso); eauto using inDelay_live. }
      rewrite (getJob_ext _ w (store k r)) by (cbn; now apply He). eauto.
  - (* Reply *)
    cbn [step] in Hs.
    apply reply_inv in Hs as (L & email & w1 & HL & Hpc & Hem & Hr & ->).
    assert (Hp : pc L ≠ Returned) by (rewrite Hpc; discriminate).
    apply recordOutcome_inv in Hr as (j & Hj & ->).
    set (rr := outcomeResult _ _ _).
    pose proof (recorded_getJob (accountId L) rr w j) as Hrec.
    specialize (fun a => Hrec a Hj). cbn zeta in Hrec.
    set (w1 := with_jobs _ w) in *. set (L1 := with_i _ L).
    destruct (iteration_effect k L1 w1) as [He (Hacc & _)].
    pose proof (iteration_waiting k L1 w1) as Hw.
    change (accountId L1) with (accountId L) in *.
    set (r := iteration k L1 w1) in *.
    assert (HL' : loops (snd r) !! k = Some L) by now rewrite (le_loops _ _ _ He).
    intros k' L' H Hd.
    destruct (lookup_store _ _ _ _ _ HL' H) as [[-> ->]|[Hk H']].
    + rewrite Hacc. now apply Hw.
    + rewrite (le_loops _ _ _ He) in H'. change (loops w1) with (loops w) in H'.
      assert (accountId L' ≠ accountId L).
      { intros Ha. apply Hk. eapply (solo_one _ Hso); eauto using inDelay_live. }
      rewrite (getJob_ext _ w1 (store k r)) by (cbn; now apply He).
      destruct (Hrec (accountId L')) as [-> _]. eauto.
Qed.

Lemma run_waitingInv es w w' :
  solo w → waitingInv w →
  exclusive es w = true → undisturbed es = true →
  run es w = Some w' → waitingInv w'.
Proof.
  revert w. induction es as [|e es IH]; intros w Hso Hwt Hex Hun; cbn [run].
  - now intros [= <-].
  - cbn [exclusive] in Hex. apply andb_prop in Hex as [He Hex].
    cbn [undisturbed forallb] in Hun. apply andb_prop in Hun as [Hc Hun].
    apply negb_true_iff in Hc.
    destruct (step w e) as [w1|] eqn:Hs; [|discriminate]. cbn.
    assert (Hst : ∀ acc, e = Start acc → settled acc w = true) by (intros acc ->; exact He).
    apply IH; eauto using step_solo, step_waitingInv.
Qed.

(** C8 (as amended): in every reachable world the countdown of a record is
    nonzero only while a run loop of that account is suspended inside its
    inter-item delay, and it is zero whenever the status is [idle].  When
    the runs of an account do not overlap it is zero whenever the status is
    [completed]; when in addition pause, resume and stop are not called, it
    is nonzero only while the status is [waiting].  [pauseJob], [resumeJob]
    and [stopJob] leave every countdown as it is. *)
Theorem c8_countdown_nonzero_only_inside_delay :
  (∀ w acc j,
      reachable w → jobs w !! acc = Some j →
      (countdown j ≠ 0%Z →
       ∃ k L, loops w !! k = Some L ∧ accountId L = acc ∧ inDelay (pc L))
      ∧ (status j = idle → countdown j = 0%Z))
  ∧ (∀ es w acc j,
      exclusive es mounted = true → run es mounted = Some w →
      jobs w !! acc = Some j →
      (status j = completed → countdown j = 0%Z)
      ∧ (undisturbed es = true → countdown j ≠ 0%Z → status j = waiting))
  ∧ (∀ acc w,
      countdown (getJob acc (pauseJob acc w)) = countdown (getJob acc w)
      ∧ countdown (getJob acc (resumeJob acc w)) = countdown (getJob acc w)
      ∧ countdown (getJob acc (stopJob acc w)) = countdown (getJob acc w)).
Proof.
  split; [|split].
  3:{ intros acc w.
      destruct (control_shape acc w (pauseJob acc w)) as (_&_&_&_&_&_&_&_&H1); auto.
      destruct (control_shape acc w (resumeJob acc w)) as (_&_&_&_&_&_&_&_&H2); auto.
      destruct (control_shape acc w (stopJob acc w)) as (_&_&_&_&_&_&_&_&H3); auto. }
  - intros w acc j Hr Hj. apply reachable_delayInv in Hr as [A B].
    apply getJob_lookup in Hj. specialize (A acc). specialize (B acc).
    rewrite Hj in A, B. split; [exact A|].
    intros Hst. destruct (decide (countdown j = 0%Z)) as [|Hnz]; [assumption|].
    destruct (A Hnz) as (k & L & HL & Ha & _). exfalso. eapply B; eauto.
  - intros es w acc j Hex Hr Hj.
    pose proof (run_solo es mounted w solo_mounted Hex Hr) as Hso.
    assert (Hreach : reachable w) by (exists es; exact Hr).
    apply reachable_delayInv in Hreach as [A _].
    apply getJob_lookup in Hj. specialize (A acc). rewrite Hj in A.
    split.
    + intros Hst. destruct (decide (countdown j = 0%Z)) as [|Hnz]; [assumption|].
      destruct (A Hnz) as (k & L & HL & Ha & Hd). exfalso.
      apply (inDelay_live _ Hd). eapply (solo_completed _ Hso); eauto.
      now rewrite Ha, Hj.
    + intros Hun Hnz. destruct (A Hnz) as (k & L & HL & Ha & Hd).
      assert (Hw0 : waitingInv (@mounted P)) by (intros ? ? H; cbn in H; rewrite lookup_nil in H; discriminate).
      pose proof (run_waitingInv es mounted w solo_mounted Hw0 Hex Hun Hr k L HL Hd) as Hs.
      now rewrite Ha, Hj in Hs.
Qed.

(** ** What a step leaves alone *)

Ltac request_leaves :=
  unfold_loop; repeat case_match; cbn [fst snd requests with_requests toast updateJobData
                                        with_toasts with_jobs];
  eexists; (split; [try reflexivity; symmetry; apply app_nil_r|]);
  intros kr Hin; try (apply list_elem_of_singleton in Hin; subst kr); try reflexivity;
  try (apply elem_of_nil in Hin; destruct Hin).

Lemma iteration_requests k L w :
  ∃ extra, requests (snd (iteration k L w)) = requests w ++ extra
           ∧ ∀ kr, kr ∈ extra → fst kr = k.
Proof. request_leaves. Qed.

Lemma pauseLoop_requests k L w :
  ∃ extra, requests (snd (pauseLoop k L w)) = requests w ++ extra
           ∧ ∀ kr, kr ∈ extra → fst kr = k.
Proof. request_leaves. Qed.

Lemma countdownHead_requests k r L w :
  ∃ extra, requests (snd (countdownHead k r L w)) = requests w ++ extra
           ∧ ∀ kr, kr ∈ extra → fst kr = k.
Proof. request_leaves. Qed.

Lemma countdownPause_requests r L w :
  requests (snd (countdownPause r L w)) = requests w.
Proof. unfold countdownPause. case_match; reflexivity. Qed.

Lemma step_requests w e w' :
  step w e = Some w' →
  ∃ extra, requests w' = requests w ++ extra
           ∧ ∀ kr, kr ∈ extra → actor w e = Some (fst kr).
Proof.
  intros Hs. destruct e as [acc data|acc|acc|acc|acc| |ms|k|k o].
  all: try (apply calm_step in Hs as (_ & Hq & _); try discriminate;
            exists []; rewrite Hq, app_nil_r; split; [reflexivity|];
            intros kr Hin; apply elem_of_nil in Hin; destruct Hin).
  - cbn [step] in Hs. injection Hs as <-.
    destruct (startJob_cases acc w) as [[m ->]|[prep Hv]].
    { exists []. rewrite app_nil_r. split; [reflexivity|].
      intros kr Hin; apply elem_of_nil in Hin; destruct Hin. }
    destruct (startJob_first_fetch acc prep w Hv) as (email & He & ->).
    eexists. split; [reflexivity|]. intros kr Hin.
    apply list_elem_of_singleton in Hin. subst kr. reflexivity.
  - cbn [step] in Hs. unfold wake in Hs.
    destruct (loops w !! k) as [L|]; [|discriminate]. cbn in Hs.
    destruct (pc L); try discriminate; destruct (_ <=? _)%N; try discriminate;
      injection Hs as <-; cbn [requests store with_loops].
    + destruct (pauseLoop_requests k L w) as (x & -> & Hx). exists x.
      split; [reflexivity|]. intros kr Hin. cbn. f_equal. symmetry. auto.
    + rewrite countdownPause_requests. exists []. rewrite app_nil_r.
      split; [reflexivity|]. intros kr Hin; apply elem_of_nil in Hin; destruct Hin.
    + match goal with |- context [countdownHead k ?r L ?w1] =>
        destruct (countdownHead_requests k r L w1) as (x & -> & Hx) end.
      exists x. split; [reflexivity|]. intros kr Hin. cbn. f_equal. symmetry. auto.
  - cbn [step] in Hs.
    apply reply_inv in Hs as (L & email & w1 & HL & Hpc & Hem & Hr & ->).
    apply recordOutcome_inv in Hr as (j & Hj & ->).
    cbn [requests store with_loops].
    match goal with |- context [iteration k ?L1 ?w1] =>
      destruct (iteration_requests k L1 w1) as (x & -> & Hx) end.
    exists x. split; [reflexivity|]. intros kr Hin. cbn. f_equal. symmetry. auto.
Qed.

Lemma filter_index_nil k (extra : list (nat * Request)) :
  (∀ kr, kr ∈ extra → fst kr ≠ k) →
  List.filter (fun kr => fst kr =? k) extra = [].
Proof.
  induction extra as [|kr extra IH]; intros H; [reflexivity|]. cbn.
  destruct (Nat.eqb_spec (fst kr) k) as [Hk|Hk].
  - exfalso. apply (H kr); [apply list_elem_of_here|exact Hk].
  - apply IH. intros kr' Hin. apply H. now apply list_elem_of_further.
Qed.

Lemma sentBy_app k w w' extra :
  requests w' = requests w ++ extra →
  (∀ kr, kr ∈ extra → fst kr ≠ k) →
  sentBy k w' = sentBy k w.
Proof.
  intros Hq H. unfold sentBy. rewrite Hq, List.filter_app, List.map_app.
  rewrite (filter_index_nil k extra H). apply app_nil_r.
Qed.

Lemma mutate_heap acc (f : Controller → Controller) w l c :
  heap w !! l = Some c →
  (∀ c0, isStopped c0 = true → isStopped (f c0) = true) →
  ∃ c', heap (mutate acc f w) !! l = Some c'
        ∧ (isStopped c = true → isStopped c' = true).
Proof.
  intros Hl Hf. unfold mutate.
  destruct (controllers w !! acc) as [l0|]; [|eauto].
  destruct (heap w !! l0) as [c0|] eqn:H0; [|eauto]. cbn.
  destruct (decide (l = l0)) as [->|Hne].
  - rewrite list_lookup_insert_eq by (eapply lookup_lt_Some; eauto).
    eexists. split; [reflexivity|]. assert (c0 = c) by congruence. subst. auto.
  - rewrite list_lookup_insert_ne by auto. eauto.
Qed.

(** A step leaves the controller objects in place and never clears
    [isStopped]; only pause, resume and stop change an object; a step that
    is not a valid [Start] for an account leaves its controller reference;
    a loop moves only by its own continuations. *)
Lemma step_frame w e w' :
  step w e = Some w' →
  (now w ≤ now w')%N
  ∧ (∀ l c, heap w !! l = Some c →
       ∃ c', heap w' !! l = Some c'
             ∧ (isStopped c = true → isStopped c' = true)
             ∧ (isControl e = false → c' = c))
  ∧ (∀ a, e ≠ Start a → controllers w' !! a = controllers w !! a)
  ∧ (∀ k L, loops w !! k = Some L → actor w e ≠ Some k → loops w' !! k = Some L)
  ∧ (∀ k, k < length (loops w) → actor w e ≠ Some k → sentBy k w' = sentBy k w).
Proof.
  intros Hs.
  assert (Hsent : ∀ k, k < length (loops w) → actor w e ≠ Some k →
                       sentBy k w' = sentBy k w).
  { intros k _ Hk. destruct (step_requests _ _ _ Hs) as (x & Hx & Hact).
    eapply sentBy_app; eauto. intros kr Hin Hk'. apply Hk. rewrite <- Hk'. auto. }
  assert (Hctl : ∀ a, e ≠ Start a → controllers w' !! a = controllers w !! a).
  { intros a Ha. destruct (step_controllers _ _ _ Hs) as [->|(a' & -> & ->)]; [reflexivity|].
    apply lookup_insert_ne. congruence. }
  repeat split; try assumption.
  - destruct e as [acc data|acc|acc|acc|acc| |ms|k|k o]; cbn [step] in Hs;
      try (injection Hs as <-).
    + destruct (forallb _ _); [|discriminate]. injection Hs as <-. reflexivity.
    + destruct (startJob_cases acc w) as [[m ->]|[prep Hv]]; [reflexivity|].
      destruct (startJob_first_fetch acc prep w Hv) as (email & He & ->). reflexivity.
    + destruct (control_shape acc w (pauseJob acc w)) as (_&Hn&_); auto. now rewrite Hn.
    + destruct (control_shape acc w (resumeJob acc w)) as (_&Hn&_); auto. now rewrite Hn.
    + destruct (control_shape acc w (stopJob acc w)) as (_&Hn&_); auto. now rewrite Hn.
    + reflexivity.
    + cbn. lia.
    + apply wake_inv in Hs as (L & r & _ & -> & He & _). cbn. now rewrite (le_now _ _ _ He).
    + apply reply_inv in Hs as (L & email & w1 & HL & Hpc & Hem & Hr & ->).
      apply recordOutcome_inv in Hr as (j & Hj & ->). cbn.
      match goal with |- context [iteration k ?L1 ?w1] =>
        destruct (iteration_effect k L1 w1) as [He _] end.
      now rewrite (le_now _ _ _ He).
  - (* heap *)
    intros l c Hl.
    destruct e as [acc data|acc|acc|acc|acc| |ms|k|k o]; cbn [step] in Hs;
      try (injection Hs as <-).
    + destruct (forallb _ _); [|discriminate]. injection Hs as <-. eauto.
    + destruct (startJob_cases acc w) as [[m ->]|[prep Hv]]; [eauto|].
      destruct (startJob_first_fetch acc prep w Hv) as (email & He & ->).
      exists c. cbn. split; [now apply lookup_app_l_Some|auto].
    + unfold pauseJob. destruct (hasController acc w); [|eauto]. cbn.
      edestruct (mutate_heap acc) as (c' & -> & Hc'); [exact Hl| |].
      { intros c0. cbn. auto. }
      exists c'. split; [reflexivity|]. split; [exact Hc'|discriminate].
    + unfold resumeJob. destruct (hasController acc w); [|eauto]. cbn.
      edestruct (mutate_heap acc) as (c' & -> & Hc'); [exact Hl| |].
      { intros c0. cbn. auto. }
      exists c'. split; [reflexivity|]. split; [exact Hc'|discriminate].
    + unfold stopJob. destruct (hasController acc w); [|eauto]. cbn.
      edestruct (mutate_heap acc) as (c1 & H1 & Hc1); [exact Hl| |].
      2: edestruct (mutate_heap acc) as (c' & -> & Hc'); [exact H1| |].
      { intros c0. cbn. auto. }
      { intros c0. cbn. auto. }
      exists c'. split; [reflexivity|]. split; [auto|discriminate].
    + eauto.
    + eauto.
    + apply wake_inv in Hs as (L & r & _ & -> & He & _). cbn. rewrite (le_heap _ _ _ He). eauto.
    + apply reply_inv in Hs as (L & email & w1 & HL & Hpc & Hem & Hr & ->).
      apply recordOutcome_inv in Hr as (j & Hj & ->). cbn.
      match goal with |- context [iteration k ?L1 ?w1] =>
        destruct (iteration_effect k L1 w1) as [He _] end.
      rewrite (le_heap _ _ _ He). eauto.
  - (* loops *)
    intros k L HL Hact.
    destruct e as [acc data|acc|acc|acc|acc| |ms|k0|k0 o].
    all: try (apply calm_step in Hs as (-> & _); try discriminate; exact HL).
    + cbn [step] in Hs. injection Hs as <-.
      destruct (startJob_cases acc w) as [[m ->]|[prep Hv]]; [exact HL|].
      destruct (startJob_first_fetch acc prep w Hv) as (email & He & ->).
      cbn. now apply lookup_app_l_Some.
    + cbn [step] in Hs. apply wake_inv in Hs as (L0 & r & _ & -> & He & _).
      rewrite store_loops, list_lookup_insert_ne by (cbn in Hact; congruence).
      now rewrite (le_loops _ _ _ He).
    + cbn [step] in Hs.
      apply reply_inv in Hs as (L0 & email & w1 & HL0 & Hpc & Hem & Hr & ->).
      apply recordOutcome_inv in Hr as (j & Hj & ->).
      rewrite store_loops, list_lookup_insert_ne by (cbn in Hact; congruence).
      match goal with |- context [iteration k0 ?L1 ?w1] =>
        destruct (iteration_effect k0 L1 w1) as [He _] end.
      now rewrite (le_loops _ _ _ He).
Qed.

(** ** A stopped controller *)

Lemma flag_updateJobData (f : Controller → bool) c a d w :
  flag f c (updateJobData a d w) = flag f c w.
Proof. reflexivity. Qed.

Lemma flag_toast (f : Controller → bool) c k m w :
  flag f c (toast k m w) = flag f c w.
Proof. reflexivity. Qed.

Lemma controllers_updateJobData a d w :
  controllers (updateJobData a d w) = controllers w.
Proof. reflexivity. Qed.

Lemma controllers_toast k m w : controllers (toast k m w) = controllers w.
Proof. reflexivity. Qed.

Section Stopped.
Hypothesis writes : writesStoppedAfterDelay P = true.






Lemma flag_step (l : nat) w e w' :
  step w e = Some w' →
  flag isStopped (Some l) w = true → flag isStopped (Some l) w' = true.
Proof.
  intros Hs. unfold flag. destruct (heap w !! l) as [c|] eqn:Hl; [|discriminate].
  destruct (step_frame _ _ _ Hs) as (_ & Hh & _).
  destruct (Hh l c Hl) as (c' & -> & Hc & _). exact Hc.
Qed.



Lemma step_loop_persists w e w' k L :
  step w e = Some w' → loops w !! k = Some L →
  ∃ L', loops w' !! k = Some L'
        ∧ accountId L' = accountId L ∧ job L' = job L ∧ emails L' = emails L.
Proof.
  intros Hs HL.
  destruct (decide (actor w e = Some k)) as [Ha|Ha].
  - destruct e as [a data|a|a|a|a| |ms|k0|k0 o]; try discriminate Ha;
      cbn in Ha; injection Ha as Hk.
    + apply lookup_lt_Some in HL. lia.
    + subst k0. cbn [step] in Hs.
      apply wake_inv in Hs as (L0 & r & HL0 & -> & He & Hsl & _).
      assert (L0 = L) by congruence. subst L0.
      exists (fst r). split; [|destruct Hsl as (?&?&?&?&?); auto].
      rewrite store_loops. apply list_lookup_insert_eq.
      rewrite (le_loops _ _ _ He). eapply lookup_lt_Some; eauto.
    + subst k0. cbn [step] in Hs.
      apply reply_inv in Hs as (L0 & email & w1 & HL0 & Hpc & Hem & Hr & ->).
      assert (L0 = L) by congruence. subst L0.
      apply recordOutcome_inv in Hr as (j & Hj & ->).
      match goal with |- context [iteration k ?L1 ?w1] =>
        destruct (iteration_effect k L1 w1) as [He Hsl];
        exists (fst (iteration k L1 w1)) end.
      split.
      * rewrite store_loops. apply list_lookup_insert_eq.
        rewrite (le_loops _ _ _ He). cbn. eapply lookup_lt_Some; eauto.
      * destruct Hsl as (?&?&?&?&?). repeat split; auto.
  - destruct (step_frame _ _ _ Hs) as (_ & _ & _ & Hl & _).
    exists L. split; [eauto|auto].
Qed.



End Stopped.

(** ** Pause and resume during a countdown *)

(** C7 (as amended): [pauseJob] and [resumeJob] change no loop and no
    countdown.  The one-second timer that is running when the pause is
    called still fires: it takes one off the remaining seconds and writes
    that to the record; if seconds remain the loop then waits in the pause
    poll, or in the next second when it is not paused, and if none remain
    the delay is over.  A loop waiting in the pause poll keeps its remaining
    seconds and the record as they are while paused, and once resumed goes
    on with the next second from those remaining seconds, not from the
    configured delay. *)
Theorem c7_pause_resume_keep_the_countdown :
  (∀ acc w,
      loops (pauseJob acc w) = loops w ∧ loops (resumeJob acc w) = loops w
      ∧ ∀ a, countdown (getJob a (pauseJob acc w)) = countdown (getJob a w)
             ∧ countdown (getJob a (resumeJob acc w)) = countdown (getJob a w))
  ∧ (∀ k w L remaining due,
      loops w !! k = Some L → pc L = AwaitCountdownSecond remaining due →
      (due ≤ now w)%N → flag isStopped (ctrl L) w = false →
      ∃ w' L',
        wake k w = Some w' ∧ loops w' !! k = Some L'
        ∧ if (1 <? remaining)%Z
          then countdown (getJob (accountId L) w') = (remaining - 1)%Z
               ∧ pc L' = (if flag isPaused (ctrl L) w
                          then AwaitCountdownPausePoll (remaining - 1) (now w + 500)
                          else AwaitCountdownSecond (remaining - 1) (now w + 1000))
          else countdown (getJob (accountId L) w') = 0%Z ∧ ¬ inDelay (pc L'))
  ∧ (∀ k w L remaining due,
      loops w !! k = Some L → pc L = AwaitCountdownPausePoll remaining due →
      (due ≤ now w)%N → flag isStopped (ctrl L) w = false →
      ∃ w' L',
        wake k w = Some w' ∧ loops w' !! k = Some L' ∧ jobs w' = jobs w
        ∧ pc L' = (if flag isPaused (ctrl L) w
                   then AwaitCountdownPausePoll remaining (now w + 500)
                   else AwaitCountdownSecond remaining (now w + 1000))).
Proof.
  split; [|split].
  - intros acc w.
    destruct (control_shape acc w (pauseJob acc w)) as (_&_&_&Hl1&_&Ho1&_&_&Hc1); auto.
    destruct (control_shape acc w (resumeJob acc w)) as (_&_&_&Hl2&_&Ho2&_&_&Hc2); auto.
    split; [exact Hl1|]. split; [exact Hl2|]. intros a.
    destruct (decide (a = acc)) as [->|Hne]; [auto|].
    rewrite (getJob_ext a w (pauseJob acc w)), (getJob_ext a w (resumeJob acc w)); auto.
  - intros k w L r due HL Hpc Hdue Hs.
    unfold wake. rewrite HL. cbn. rewrite Hpc.
    apply N.leb_le in Hdue. rewrite Hdue.
    eexists _, _. split; [reflexivity|].
    split; [rewrite store_loops; apply list_lookup_insert_eq|].
    { match goal with |- context [countdownHead k ?r L ?w1] =>
        destruct (countdownHead_effect k r L w1) as [He _] end.
      rewrite (le_loops _ _ _ He). cbn. eapply lookup_lt_Some; eauto. }
    change (getJob (accountId L) (store k ?r)) with (getJob (accountId L) (snd r)).
    unfold countdownHead.
    rewrite flag_updateJobData, Hs.
    replace (0 <? r - 1)%Z with (1 <? r)%Z
      by (destruct (Z.ltb_spec 1 r), (Z.ltb_spec 0 (r - 1)); lia).
    destruct (1 <? r)%Z.
    + unfold countdownPause. rewrite !flag_updateJobData, Hs.
      destruct (flag isPaused (ctrl L) w); cbn [andb negb fst snd pc with_pc];
        rewrite getJob_updateJobData; cbn; auto.
    + unfold finishDelay, tryFetch. rewrite !flag_updateJobData, Hs.
      destruct (emails L !! i L); cbn [fst snd pc with_pc];
        rewrite ?getJob_with_requests, !getJob_updateJobData; cbn; auto.
  - intros k w L r due HL Hpc Hdue Hs.
    unfold wake. rewrite HL. cbn. rewrite Hpc.
    apply N.leb_le in Hdue. rewrite Hdue.
    unfold countdownPause. rewrite Hs.
    destruct (flag isPaused (ctrl L) w); cbn [andb negb];
      eexists _, _; (split; [reflexivity|]);
      cbn [store fst snd loops with_loops];
      (split; [apply list_lookup_insert_eq; eapply lookup_lt_Some; eauto|]);
      split; reflexivity.
Qed.

(** ** Starting again while a loop is still running *)

(** C9 (as amended): a second valid [startJob] for an account puts a fresh
    controller -- a new object, not paused, not stopped, held by no earlier
    loop -- in the place of the prior one.  The earlier loops are left as
    they are: a loop of that account that awaits its [fetch] still records
    the outcome when the reply arrives, into the record the new run has just
    reset, and when recipients remain it goes on under the fresh controller
    instead of returning. *)
Theorem c9_restart_replaces_token_without_cancelling acc prep w :
  reachable w → valid acc prep w →
  controllers (startJob acc w) !! acc = Some (length (heap w))
  ∧ heap (startJob acc w) !! length (heap w)
    = Some {| isPaused := false; isStopped := false |}
  ∧ controllers w !! acc ≠ Some (length (heap w))
  ∧ (∀ k L, loops w !! k = Some L →
       ctrl L ≠ Some (length (heap w)) ∧ loops (startJob acc w) !! k = Some L)
  ∧ (∀ k L o,
       loops w !! k = Some L → accountId L = acc → pc L = AwaitFetch →
       ∃ email w2 L',
         emails L !! i L = Some email
         ∧ reply k o (startJob acc w) = Some w2
         ∧ results (getJob acc w2) = [outcomeResult (i L + 1) email o]
         ∧ current (progress (getJob acc w2)) = i L + 1
         ∧ loops w2 !! k = Some L'
         ∧ (i L + 1 < length (emails L) →
            ctrl L' = Some (length (heap w)) ∧ pc L' ≠ Returned)).
Proof.
  intros Hreach Hv. apply reachable_wf in Hreach as Hw.
  destruct (startJob_first_fetch acc prep w Hv) as (email0 & He0 & ->).
  set (L0 := with_pc AwaitFetch _). set (rq := requests w ++ _).
  set (w1 := with_loops _ _).
  assert (Hc1 : controllers w1 !! acc = Some (length (heap w)))
    by (cbn; apply lookup_insert_eq).
  assert (Hh1 : heap w1 = heap w ++ [{| isPaused := false; isStopped := false |}])
    by reflexivity.
  split; [exact Hc1|].
  split. { rewrite Hh1, lookup_app_r by lia. now rewrite Nat.sub_diag. }
  split. { intros H. apply (wf_controllers w Hw) in H. lia. }
  split.
  { intros k L HL. split.
    - intros H. apply (wf_ctrl w Hw k L _ HL) in H. lia.
    - cbn. now apply lookup_app_l_Some. }
  intros k L o HL Ha Hpc.
  assert (Hlive : pc L ≠ Returned) by (rewrite Hpc; discriminate).
  pose proof (wf_range w Hw k L HL Hlive) as Hi.
  apply lookup_lt_is_Some_2 in Hi as [email He].
  assert (HL1 : loops w1 !! k = Some L) by (cbn; now apply lookup_app_l_Some).
  assert (Hj1 : ∃ j1, jobs w1 !! accountId L = Some j1 ∧ results j1 = []).
  { rewrite Ha. cbn. rewrite lookup_insert_eq. eexists. split; reflexivity. }
  destruct Hj1 as (j1 & Hj1 & Hres1).
  destruct (reply_recorded k o w1 L email j1 HL1 Hpc He Hj1)
    as (w1' & w2 & j2 & Hrec & Hrep & Hw2 & Hj2 & Hres & _ & Hpr & Hh & Hc & _).
  cbn zeta in *. set (L1 := with_i (i L + 1) L) in *.
  exists email, w2, (fst (iteration k L1 w1')).
  split; [exact He|]. split; [exact Hrep|].
  rewrite <- Ha. rewrite (getJob_lookup _ _ _ Hj2).
  split; [now rewrite Hres, Hres1|]. split; [now rewrite Hpr|].
  destruct (iteration_effect k L1 w1') as [Heff _].
  split.
  { rewrite Hw2, store_loops. apply list_lookup_insert_eq.
    rewrite (le_loops _ _ _ Heff).
    apply recordOutcome_inv in Hrec as (? & _ & ->). cbn.
    eapply lookup_lt_Some. exact HL1. }
  intros Hlt.
  assert (Hc' : controllers w1' !! accountId L1 = Some (length (heap w)))
    by (change (accountId L1) with (accountId L); now rewrite Hc, Ha).
  split.
  - rewrite iteration_ctrl. apply Nat.ltb_lt in Hlt.
    change (i L1) with (i L + 1). change (emails L1) with (emails L).
    now rewrite Hlt.
  - apply iteration_not_returned; [exact Hlt|]. rewrite Hc'.
    unfold flag. rewrite Hh, Hh1, lookup_app_r by lia. now rewrite Nat.sub_diag.
Qed.

(** ** The pace of an uninterrupted run *)

Lemma clean_flags l w :
  heap w !! l = Some {| isPaused := false; isStopped := false |} →
  flag isStopped (Some l) w = false ∧ flag isPaused (Some l) w = false.
Proof. unfold flag. now intros ->. Qed.

Lemma countdownHead_clean k r L w l email :
  ctrl L = Some l →
  heap w !! l = Some {| isPaused := false; isStopped := false |} →
  emails L !! i L = Some email →
  countdownHead k r L w =
    if (0 <? r)%Z then (with_pc (AwaitCountdownSecond r (now w + 1000)) L, w)
    else (with_pc AwaitFetch L,
          with_requests
            (requests w ++
             [(k, buildRequest P (accountId L) (inputs (job L)) (prepared L) email)])
            (updateJobData (accountId L) [F_status processing; F_countdown 0] w)).
Proof.
  intros Hc Hh He. destruct (clean_flags l w Hh) as [Hs Hp]. rewrite <- Hc in Hs, Hp.
  unfold countdownHead, countdownPause, finishDelay, tryFetch.
  rewrite ?flag_updateJobData, Hs, Hp, He. cbn [andb].
  destruct (0 <? r)%Z; reflexivity.
Qed.

Lemma iteration_done k L w :
  ¬ i L < length (emails L) →
  flag isStopped (controllers w !! accountId L) w = false →
  iteration k L w =
    (with_pc Returned L,
     toast toast_success (noticeCompleted P)
       (updateJobData (accountId L) [F_status completed] w)).
Proof.
  intros Hi Hs. unfold iteration.
  destruct (Nat.ltb_spec (i L) (length (emails L))); [contradiction|].
  unfold afterLoop. now rewrite Hs.
Qed.

Lemma step_paced acc l k t0 d n w e w' :
  paced acc l k t0 d n w →
  isControl e = false → e ≠ Start acc →
  step w e = Some w' → paced acc l k t0 d n w'.
Proof.
  intros [Ht Hc (L & HL & Ha & Hd & Hn & Hp)] Hctl Hst Hs.
  destruct (step_frame _ _ _ Hs) as (Hnow & Hheap & Hcon & Hloops & _).
  destruct (Hheap l _ Hc) as (c' & Hc' & _ & Hsame).
  rewrite (Hsame Hctl) in Hc'. clear Hsame.
  pose proof (Hcon acc Hst) as Ht'. rewrite Ht in Ht'.
  split; [exact Ht'|exact Hc'|].
  destruct (decide (actor w e = Some k)) as [Hact|Hact].
  2:{ exists L. split; [eauto|]. repeat (split; [assumption|]).
      unfold pacedAt in *. destruct (pc L); auto.
      - destruct Hp as (?&?&Hb). repeat split; auto.
        etransitivity; [exact Hb|clear - Hnow; lia].
      - destruct Hp as (?&Hb). split; auto.
        etransitivity; [exact Hb|clear - Hnow; lia]. }
  destruct e as [a data|a|a|a|a| |ms|k0|k0 o]; try discriminate Hact;
    cbn in Hact; injection Hact as Hk.
  - apply lookup_lt_Some in HL. lia.
  - (* the timer of the loop fires *)
    subst k0. cbn [step] in Hs. unfold wake in Hs. rewrite HL in Hs. cbn in Hs.
    unfold pacedAt in Hp.
    destruct (pc L) as [?|?|r due| |] eqn:Hpc; try discriminate; try (destruct Hp; fail).
    destruct (N.leb_spec due (now w)) as [Hdue|]; [|discriminate].
    injection Hs as <-. destruct Hp as (Hcl & Hi & Hr & Hb).
    assert (Hem : ∃ email, emails L !! i L = Some email)
      by (apply lookup_lt_is_Some_2; lia).
    destruct Hem as [email Hem].
    rewrite (countdownHead_clean k (r - 1) L _ l email Hcl) by (cbn; auto).
    destruct (Z.ltb_spec 0 (r - 1)).
    + eexists. split; [rewrite store_loops; apply list_lookup_insert_eq;
                        cbn; eapply lookup_lt_Some; eauto|].
      cbn [fst accountId job emails with_pc]. repeat (split; [assumption|]).
      unfold pacedAt. cbn [pc with_pc ctrl i fst snd now updateJobData with_jobs].
      repeat split; auto; lia.
    + eexists. split; [rewrite store_loops; apply list_lookup_insert_eq;
                        cbn; eapply lookup_lt_Some; eauto|].
      cbn [fst accountId job emails with_pc]. repeat (split; [assumption|]).
      unfold pacedAt.
      cbn [pc with_pc ctrl i fst snd now updateJobData with_jobs with_requests].
      assert (Hd0 : (0 < d)%Z) by (eapply Z.lt_le_trans; apply Hr).
      assert (Hr1 : r = 1%Z) by (clear - Hr H; lia). subst r.
      repeat split; auto; try (clear - Hi; lia).
      rewrite Z.max_r by (clear - Hd0; lia).
      change (now (store k _)) with (now w). clear - Hb Hdue. lia.
  - (* the reply for the recipient in flight arrives *)
    subst k0. cbn [step] in Hs.
    apply reply_inv in Hs as (L0 & email & w1 & HL0 & Hpc & Hem & Hr & ->).
    assert (L0 = L) by congruence. subst L0.
    unfold pacedAt in Hp. rewrite Hpc in Hp. destruct Hp as (Hcl & Hi & Hb).
    apply recordOutcome_inv in Hr as (j & Hj & ->).
    set (w1 := with_jobs _ w). set (L1 := with_i (i L + 1) L).
    assert (Hc1 : heap w1 !! l = Some {| isPaused := false; isStopped := false |})
      by exact Hc.
    destruct (clean_flags l w1 Hc1) as [Hfs Hfp].
    destruct (decide (i L + 1 < n)) as [Hlt|Hge].
    + assert (Hnext : ∃ next, emails L1 !! i L1 = Some next)
        by (apply lookup_lt_is_Some_2; cbn; lia).
      destruct Hnext as [next Hnext].
      rewrite (iteration_clean k L1 w1 l next Hnext) by (cbn; auto; now rewrite Ha).
      change (i L1) with (i L + 1). change (job L1) with (job L). rewrite Hd.
      replace (0 <? i L + 1) with true by (symmetry; apply Nat.ltb_lt; lia).
      cbn [andb]. destruct (Z.ltb_spec 0 d).
      * eexists. split; [rewrite store_loops; apply list_lookup_insert_eq;
                          cbn; eapply lookup_lt_Some; eauto|].
        cbn [fst accountId job emails with_pc with_ctrl L1 with_i].
        repeat (split; [assumption|]).
        unfold pacedAt.
        cbn [pc with_pc with_ctrl ctrl i fst snd now updateJobData with_jobs L1 with_i w1].
        rewrite Z.max_r in Hb by lia. repeat split; auto; try lia.
      * eexists. split; [rewrite store_loops; apply list_lookup_insert_eq;
                          cbn; eapply lookup_lt_Some; eauto|].
        cbn [fst accountId job emails with_pc with_ctrl L1 with_i].
        repeat (split; [assumption|]).
        unfold pacedAt.
        cbn [pc with_pc with_ctrl ctrl i fst snd now with_requests with_jobs L1 with_i w1].
        rewrite Z.max_l in * by lia. repeat split; auto; lia.
    + rewrite (iteration_done k L1 w1)
        by (cbn; try lia; change (accountId L1) with (accountId L);
            rewrite Ha; change (controllers w1) with (controllers w); now rewrite Ht).
      eexists. split; [rewrite store_loops; apply list_lookup_insert_eq;
                        cbn; eapply lookup_lt_Some; eauto|].
      cbn [fst accountId job emails with_pc L1 with_i].
      repeat (split; [assumption|]).
      unfold pacedAt. cbn [pc with_pc i fst snd L1 with_i].
      split; [lia|].
      change (now (toast _ _ _)) with (now w).
      assert (Z.of_nat n - 1 = Z.of_nat (i L))%Z as -> by lia. exact Hb.
Qed.

Lemma run_paced acc l k t0 d n es w w' :
  paced acc l k t0 d n w → uninterrupted acc es = true →
  run es w = Some w' → paced acc l k t0 d n w'.
Proof.
  revert w. induction es as [|e es IH]; intros w Hp Hu; cbn [run].
  - now intros [= <-].
  - cbn [uninterrupted forallb] in Hu. apply andb_prop in Hu as [He Hu].
    apply andb_prop in He as [Hc Hs]. apply negb_true_iff in Hc.
    destruct (step w e) as [w1|] eqn:Hstep; [|discriminate]. cbn.
    apply IH; [|exact Hu]. eapply step_paced; eauto.
    intros ->. rewrite String.eqb_refl in Hs. discriminate.
Qed.

(** C5: in a run that is not paused, stopped or started again, the request
    for the first recipient is sent inside the [startJob] call itself, at
    the time of the call; the loop is inside a delay only at an index
    [i > 0] and with [delay > 0]; the request for the recipient at index
    [i] is in flight no earlier than [delay * i] seconds after the start;
    and the loop has returned no earlier than [delay * (n - 1)] seconds
    after the start, having gone through all [n] recipients.  The clock
    counts milliseconds. *)
Theorem c5_delay_only_between_recipients acc prep w es w' :
  valid acc prep w →
  uninterrupted acc es = true →
  run es (startJob acc w) = Some w' →
  let n := length (parseEmails (emailList (getJob acc w))) in
  let d := delay (getJob acc w) in
  let k := length (loops w) in
  (∃ L0 email,
      loops (startJob acc w) !! k = Some L0 ∧ pc L0 = AwaitFetch ∧ i L0 = 0
      ∧ parseEmails (emailList (getJob acc w)) !! 0 = Some email
      ∧ requests (startJob acc w)
        = requests w ++ [(k, buildRequest P acc (inputs (getJob acc w)) prep email)]
      ∧ now (startJob acc w) = now w)
  ∧ ∃ L,
      loops w' !! k = Some L
      ∧ (inDelay (pc L) → 0 < i L ∧ (0 < d)%Z)
      ∧ (pc L = AwaitFetch →
         (Z.of_N (now w) + 1000 * Z.max 0 d * Z.of_nat (i L) ≤ Z.of_N (now w'))%Z)
      ∧ (pc L = Returned →
         i L = n
         ∧ (Z.of_N (now w) + 1000 * Z.max 0 d * (Z.of_nat n - 1) ≤ Z.of_N (now w'))%Z).
Proof.
  intros Hv Hu Hr n d k.
  destruct (startJob_first_fetch acc prep w Hv) as (email & He & Hw0).
  rewrite Hw0 in Hr |- *.
  set (L0 := with_pc AwaitFetch _) in *.
  split.
  { exists L0, email. cbn [loops with_loops].
    split; [apply list_lookup_middle; reflexivity|].
    repeat split; auto. }
  assert (Hp0 : paced acc (length (heap w)) k (now w) d n
                  (with_loops (loops w ++ [L0])
                     (with_requests
                        (requests w ++
                         [(length (loops w),
                           buildRequest P acc (inputs (getJob acc w)) prep email)])
                        (startReset acc w)))).
  { split.
    - cbn. apply lookup_insert_eq.
    - cbn. rewrite lookup_app_r by lia. now rewrite Nat.sub_diag.
    - exists L0. cbn [loops with_loops].
      split; [apply list_lookup_middle; reflexivity|].
      do 3 (split; [reflexivity|]).
      unfold pacedAt. cbn [pc L0 with_pc with_ctrl ctrl i startLoop].
      split; [reflexivity|].
      split; [apply lookup_lt_Some in He; exact He|]. cbn [now with_loops with_requests].
      change (now (startReset acc w)) with (now w). lia. }
  destruct (run_paced _ _ _ _ _ _ _ _ _ Hp0 Hu Hr) as [_ _ (L & HL & _ & _ & _ & Hp)].
  exists L. split; [exact HL|]. unfold pacedAt in Hp.
  destruct (pc L); cbn [inDelay]; try (destruct Hp; fail).
  - destruct Hp as (_ & Hi & Hrem & _).
    split; [intros _; clear - Hi Hrem; lia|]. split; discriminate.
  - destruct Hp as (_ & _ & Hb).
    split; [intros []|]. split; [intros _; exact Hb|discriminate].
  - destruct Hp as (Hi & Hb).
    split; [intros []|]. split; [discriminate|intros _; auto].
Qed.
End Facts.

(** * A failed recipient and the delay that follows *)

Section Delay.
Context {P : Provider} {json : JSON}.
Implicit Types (w : World P) (L : Loop P) (j : JobState P) (acc : string).

Lemma clean_heap l w :
  l < length (heap w) →
  flag isStopped (Some l) w = false → flag isPaused (Some l) w = false →
  heap w !! l = Some {| isPaused := false; isStopped := false |}.
Proof.
  intros Hl. apply lookup_lt_is_Some_2 in Hl as [[p s] Hc].
  unfold flag. rewrite Hc. cbn. now intros -> ->.
Qed.

Ltac second_passes HL Hpc Hdue :=
  cbn [replicate concat app run step mbind option_bind]; unfold wake;
  cbn [loops with_now]; rewrite HL; cbn [mbind option_bind]; rewrite Hpc;
  cbn [now with_now];
  match goal with |- context [(?due <=? ?t)%N] =>
    destruct (N.leb_spec due t) as [_|?]; [|lia] end.

(** A loop in its countdown under a token that is neither stopped nor
    paused: when the seconds that remain have passed, each ending with the
    timer of the loop, the loop has written [processing] and a countdown of
    zero and stands at the [fetch] for its recipient. *)
Lemma countdown_runs_out k l next n : ∀ w L due,
  loops w !! k = Some L →
  pc L = AwaitCountdownSecond (Z.of_nat (S n)) due →
  (due ≤ now w + 1000)%N →
  ctrl L = Some l →
  heap w !! l = Some {| isPaused := false; isStopped := false |} →
  emails L !! i L = Some next →
  ∃ w2,
    run (concat (replicate (S n) [Elapse 1000; Wake k])) w = Some w2
    ∧ loops w2 !! k = Some (with_pc AwaitFetch L)
    ∧ requests w2 =
        requests w ++
        [(k, buildRequest P (accountId L) (inputs (job L)) (prepared L) next)]
    ∧ untouched (getJob (accountId L) w) (getJob (accountId L) w2)
    ∧ status (getJob (accountId L) w2) = processing
    ∧ countdown (getJob (accountId L) w2) = 0%Z.
Proof.
  induction n as [|n IH]; intros w L due HL Hpc Hdue Hc Hh He.
  - second_passes HL Hpc Hdue.
    match goal with |- context [countdownHead k ?r L ?w1] =>
      rewrite (countdownHead_clean k r L w1 l next Hc Hh He) end.
    change (0 <? Z.of_nat 1 - 1)%Z with false. cbn [replicate concat run].
    eexists. split; [reflexivity|].
    split. { rewrite store_loops. apply list_lookup_insert_eq. cbn.
             eapply lookup_lt_Some; eauto. }
    split; [reflexivity|].
    unfold untouched, getJob.
    cbn [store fst snd jobs with_loops with_requests updateJobData with_jobs with_now].
    rewrite !lookup_insert_eq. cbn. repeat split.
  - second_passes HL Hpc Hdue.
    match goal with |- context [countdownHead k ?r L ?w1] =>
      rewrite (countdownHead_clean k r L w1 l next Hc Hh He) end.
    replace (Z.of_nat (S (S n)) - 1)%Z with (Z.of_nat (S n)) by lia.
    replace (0 <? Z.of_nat (S n))%Z with true by (symmetry; apply Z.ltb_lt; lia).
    set (w0 := updateJobData _ _ _).
    set (L1 := with_pc _ L).
    set (w1 := store k (L1, w0)).
    assert (HL1 : loops w1 !! k = Some L1).
    { subst w1. rewrite store_loops. apply list_lookup_insert_eq. cbn.
      eapply lookup_lt_Some; eauto. }
    destruct (IH w1 L1 (now w0 + 1000)%N HL1 eq_refl) as (w2 & Hr & HL2 & Hq & Hu & Hs & Hcd);
      [cbn; lia|exact Hc|exact Hh|exact He|].
    exists w2. split; [exact Hr|]. split; [exact HL2|]. split; [exact Hq|].
    change (accountId L1) with (accountId L) in *.
    assert (Hg : untouched (getJob (accountId L) w) (getJob (accountId L) w1)).
    { subst w1 w0. unfold untouched, getJob.
      cbn [store fst snd jobs with_loops updateJobData with_jobs with_now].
      rewrite lookup_insert_eq. cbn. repeat split. }
    split; [|split; assumption].
    destruct Hg as (?&?&?&?&?&?&?), Hu as (?&?&?&?&?&?&?).
    repeat split; congruence.
Qed.

(** C4: when the provider call for a recipient fails -- the proxy answers
    with a non-ok response or the call throws -- the reply is recorded and
    the loop goes on: a result with status [Error] is put in front of
    [results], holding the stringified provider body or the synthesized
    [{error: message}] object; [stats.fail] grows by one and [stats.success]
    stays; [progress.current] becomes the recipient's 1-based index; the
    loop advances to the next index and, unless its token is stopped, does
    not return while recipients remain.  With a token that is neither
    stopped nor paused the next recipient is processed: when the delay is
    not positive its request is sent at once; otherwise the loop enters the
    delay, and when the seconds of the delay have passed, the timer of the
    loop firing after each, the request for the next recipient is sent, the
    status is [processing] and the recorded failure is still the head of
    [results]. *)
Theorem c4_failure_is_recorded_and_run_continues k o w L :
  reachable w →
  loops w !! k = Some L → pc L = AwaitFetch →
  failed o →
  ∃ email j w' j' L',
    emails L !! i L = Some email
    ∧ jobs w !! accountId L = Some j
    ∧ reply k o w = Some w'
    ∧ jobs w' !! accountId L = Some j'
    ∧ results j' =
        SendResult.mk (i L + 1) email Error
          (match o with
           | Responded _ resultData => JSON_stringify resultData
           | Threw message =>
               JSON_stringify
                 (JObject [("error", JString (orElse message "Network Error"))])
           end) :: results j
    ∧ fail (stats j') = fail (stats j) + 1
    ∧ success (stats j') = success (stats j)
    ∧ current (progress j') = i L + 1
    ∧ total (progress j') = total (progress j)
    ∧ loops w' !! k = Some L'
    ∧ i L' = i L + 1
    ∧ (i L + 1 < length (emails L) →
       flag isStopped (controllers w !! accountId L) w = false →
       pc L' ≠ Returned)
    ∧ (∀ l next,
         emails L !! (i L + 1) = Some next →
         controllers w !! accountId L = Some l →
         flag isStopped (Some l) w = false →
         flag isPaused (Some l) w = false →
         let request := buildRequest P (accountId L) (inputs (job L)) (prepared L) next in
         if (0 <? delay (job L))%Z
         then pc L' = AwaitCountdownSecond (delay (job L)) (now w + 1000)
              ∧ status j' = waiting ∧ requests w' = requests w
              ∧ ∃ w2 L2,
                  run (countdownSchedule k (delay (job L))) w' = Some w2
                  ∧ loops w2 !! k = Some L2
                  ∧ pc L2 = AwaitFetch ∧ i L2 = i L + 1
                  ∧ requests w2 = requests w ++ [(k, request)]
                  ∧ status (getJob (accountId L) w2) = processing
                  ∧ results (getJob (accountId L) w2) = results j'
                  ∧ stats (getJob (accountId L) w2) = stats j'
         else pc L' = AwaitFetch
              ∧ requests w' = requests w ++ [(k, request)]).
Proof.
  intros Hreach HL Hpc Hfail. apply reachable_wf in Hreach as Hw.
  assert (Hne : pc L ≠ Returned) by (rewrite Hpc; discriminate).
  pose proof (wf_range w Hw k L HL Hne) as Hi.
  apply lookup_lt_is_Some_2 in Hi as [email He].
  destruct (wf_job w Hw k L HL) as [j Hj].
  destruct (reply_recorded k o w L email j HL Hpc He Hj)
    as (w1 & w' & j' & Hrec & Hrep & Hw' & Hj' & Hres & Hst & Hpr & Hh & Hc & Hn & Hrq).
  cbn zeta in *.
  set (L1 := with_i (i L + 1) L) in *.
  exists email, j, w', j', (fst (iteration k L1 w1)).
  split; [exact He|]. split; [exact Hj|]. split; [exact Hrep|]. split; [exact Hj'|].
  split. { rewrite Hres. destruct o as [[] ?|?]; cbn in Hfail; try discriminate; reflexivity. }
  assert (SendResult.status (outcomeResult (i L + 1) email o) = Error) as Herr
    by (destruct o as [[] ?|?]; cbn in Hfail; try discriminate; reflexivity).
  rewrite Herr in Hst.
  split; [now rewrite Hst|]. split; [now rewrite Hst|].
  split; [now rewrite Hpr|]. split; [now rewrite Hpr|].
  assert (HL' : loops w' !! k = Some (fst (iteration k L1 w1))).
  { rewrite Hw', store_loops. apply list_lookup_insert_eq.
    destruct (iteration_effect k L1 w1) as [Heff _].
    rewrite (le_loops _ _ _ Heff).
    apply recordOutcome_inv in Hrec as (? & _ & ->). cbn.
    eapply lookup_lt_Some; eauto. }
  split; [exact HL'|].
  split. { destruct (iteration_effect k L1 w1) as [_ (_ & _ & _ & _ & ->)]. reflexivity. }
  split.
  - intros Hlt Hs. apply iteration_not_returned; [exact Hlt|].
    change (accountId L1) with (accountId L). unfold flag in *.
    now rewrite Hc, Hh.
  - intros l next Hnext Hcl Hs Hp.
    assert (Hit := iteration_clean k L1 w1 l next Hnext).
    change (accountId L1) with (accountId L) in Hit.
    rewrite Hc in Hit. specialize (Hit Hcl).
    assert (Hclean : heap w !! l = Some {| isPaused := false; isStopped := false |})
      by (apply clean_heap; auto; eapply wf_controllers; eauto).
    unfold flag in Hit, Hs, Hp. rewrite Hh in Hit. specialize (Hit Hs Hp).
    change (i L1) with (i L + 1) in Hit. change (job L1) with (job L) in Hit.
    replace (0 <? i L + 1) with true in Hit by (symmetry; apply Nat.ltb_lt; lia).
    cbn [andb] in Hit. subst w'. rewrite Hit in Hj', HL' |- *.
    destruct (Z.ltb_spec 0 (delay (job L))) as [Hd|Hd]; cbn [fst snd] in Hj', HL' |- *.
    + set (L2 := with_pc _ _) in *.
      set (w' := store k (L2, _)) in *.
      assert (Hg : getJob (accountId L) w' = j') by (apply getJob_lookup; exact Hj').
      split; [cbn; now rewrite Hn|].
      split. { rewrite <- Hg. unfold getJob. subst w'. cbn. now rewrite lookup_insert_eq. }
      split; [exact Hrq|].
      destruct (countdown_runs_out k l next (Z.to_nat (delay (job L)) - 1) w' L2
                  (now w1 + 1000)%N) as (w2 & Hr2 & HL2 & Hq2 & Hu2 & Hs2 & _).
      * exact HL'.
      * cbn. do 2 f_equal. lia.
      * subst w'. cbn. lia.
      * reflexivity.
      * subst w'. cbn. rewrite Hh. exact Hclean.
      * exact Hnext.
      * exists w2, (with_pc AwaitFetch L2).
        split. { unfold countdownSchedule.
                 replace (Z.to_nat (delay (job L))) with (S (Z.to_nat (delay (job L)) - 1)) by lia.
                 exact Hr2. }
        split; [exact HL2|]. split; [reflexivity|]. split; [reflexivity|].
        split. { rewrite Hq2. subst w'. cbn. rewrite Hrq. reflexivity. }
        change (accountId L2) with (accountId L) in *.
        split; [exact Hs2|].
        rewrite Hg in Hu2. destruct Hu2 as (_&_&_&_&->&->&_). split; reflexivity.
    + split; [reflexivity|]. cbn. rewrite Hrq. reflexivity.
Qed.

End Delay.

(** * The token of a live loop *)


(** * The scenarios, checked *)

Lemma firstInFlight_reachable : reachable firstInFlight.
Proof. exists [fillForm threeRecipients 2; Start "acc"]. vm_compute. reflexivity. Qed.

Lemma firstDelay_reachable : reachable firstDelay.
Proof.
  exists [fillForm threeRecipients 2; Start "acc"; Reply 0 (Responded true JNull)].
  vm_compute. reflexivity.
Qed.

Lemma twoInFlight_reachable : reachable twoInFlight.
Proof.
  exists [fillForm (join newline ["a@x.com"; "b@x.com"]) 0; Start "acc"].
  vm_compute. reflexivity.
Qed.

Lemma formFilled_valid : valid (P := BulkJobProvider) "acc" tt formFilled.
Proof. split; vm_compute; [discriminate|reflexivity]. Qed.

Lemma c2_witness :
  valid (P := BulkJobProvider) "acc" tt formFilled
  ∧ ∃ j, jobs (startJob "acc" formFilled) !! "acc" = Some j
         ∧ results j = []
         ∧ stats j = {| success := 0; fail := 0 |}
         ∧ progress j = {| current := 0; total := 3 |}
         ∧ elapsedSeconds j = 0
         ∧ countdown j = 0%Z
         ∧ status j = processing.
Proof.
  split; [exact formFilled_valid|].
  destruct (proj2 (proj2 (proj2 (c2_start_parses_and_resets (P := BulkJobProvider))))
              "acc" tt formFilled formFilled_valid)
    as (j & Hj & H1 & H2 & H3 & H4 & H5 & H6 & _).
  exists j. repeat (split; [assumption|]). exact H6.
Defined.

Lemma c3_witness :
  parseEmails (emailList (getJob (P := BulkJobProvider) "acc" mounted)) = []
  ∧ ∃ message,
      startJob (P := BulkJobProvider) "acc" mounted
      = with_toasts [(toast_error, message)] mounted.
Proof.
  split; [reflexivity|].
  exact (proj1 (c3_invalid_start_changes_nothing (P := BulkJobProvider))
           "acc" mounted (or_introl eq_refl)).
Defined.

Lemma c5_witness :
  valid (P := BulkJobProvider) "acc" tt formFilled
  ∧ uninterrupted "acc" restOfRun = true
  ∧ ∃ w' L,
      run restOfRun (startJob "acc" formFilled) = Some w'
      ∧ loops w' !! 0 = Some L ∧ pc L = Returned ∧ i L = 3
      ∧ (Z.of_N (now formFilled) + 1000 * 2 * 2 ≤ Z.of_N (now w'))%Z.
Proof.
  assert (Hu : uninterrupted (P := BulkJobProvider) "acc" restOfRun = true)
    by (vm_compute; reflexivity).
  split; [exact formFilled_valid|]. split; [exact Hu|].
  assert (Hr : run restOfRun (startJob "acc" formFilled) = Some runCompleted)
    by (vm_compute; reflexivity).
  destruct (c5_delay_only_between_recipients (P := BulkJobProvider)
              "acc" tt formFilled restOfRun runCompleted formFilled_valid Hu Hr)
    as (_ & L & HL & _ & _ & Hret).
  assert (Hpc : pc L = Returned).
  { change (length (loops formFilled)) with 0 in HL.
    vm_compute in HL. injection HL as <-. reflexivity. }
  exists runCompleted, L. split; [exact Hr|]. split; [exact HL|].
  split; [exact Hpc|]. exact (Hret Hpc).
Defined.

(** Paused during the first second of the delay; that second has passed. *)
Lemma c7_witness :
  ∃ L, loops pausedInDelay !! 0 = Some L
       ∧ pc L = AwaitCountdownSecond 2 1000
       ∧ (1000 ≤ now pausedInDelay)%N
       ∧ flag isStopped (ctrl L) pausedInDelay = false
       ∧ ∃ w' L',
           wake 0 pausedInDelay = Some w' ∧ loops w' !! 0 = Some L'
           ∧ countdown (getJob "acc" w') = 1%Z
           ∧ pc L' = AwaitCountdownPausePoll 1 1500.
Proof.
  assert (HL : ∃ L, loops pausedInDelay !! 0 = Some L
                    ∧ pc L = AwaitCountdownSecond 2 1000
                    ∧ flag isStopped (ctrl L) pausedInDelay = false
                    ∧ flag isPaused (ctrl L) pausedInDelay = true
                    ∧ accountId L = "acc")
    by (vm_compute; eexists; repeat split).
  destruct HL as (L & HL & Hpc & Hs & Hp & Ha).
  assert (Hdue : (1000 ≤ now pausedInDelay)%N) by (vm_compute; discriminate).
  exists L. split; [exact HL|]. split; [exact Hpc|]. split; [exact Hdue|].
  split; [exact Hs|].
  destruct (proj1 (proj2 (c7_pause_resume_keep_the_countdown (P := BulkJobProvider)))
              0 pausedInDelay L 2%Z 1000%N HL Hpc Hdue Hs)
    as (w' & L' & Hw & HL' & Hc & Hpc').
  exists w', L'. split; [exact Hw|]. split; [exact HL'|].
  rewrite Ha in Hc. rewrite Hp in Hpc'. split; [exact Hc|exact Hpc'].
Defined.

(** Pause at a countdown of 2, let the running second pass, resume: the
    countdown is 1. *)
Lemma c7_counterexample :
  ¬ (∀ (w : World BulkJobProvider) acc es w1,
       reachable w → status (getJob acc w) = waiting →
       timersOnly es = true →
       run es (pauseJob acc w) = Some w1 →
       countdown (getJob acc (resumeJob acc w1)) = countdown (getJob acc w)).
Proof.
  intros H.
  assert (Hr : run [Elapse 1000; Wake 0] (pauseJob "acc" firstDelay)
               = Some (default mounted
                         (run [Elapse 1000; Wake 0] (pauseJob "acc" firstDelay))))
    by (vm_compute; reflexivity).
  specialize (H firstDelay "acc" [Elapse 1000; Wake 0] _ firstDelay_reachable
                ltac:(vm_compute; reflexivity) eq_refl Hr).
  vm_compute in H. discriminate H.
Qed.

Lemma c8_witness :
  reachable firstDelay
  ∧ ∃ j, jobs firstDelay !! "acc" = Some j ∧ countdown j = 2%Z
         ∧ ∃ k L, loops firstDelay !! k = Some L ∧ accountId L = "acc"
                  ∧ inDelay (pc L).
Proof.
  split; [exact firstDelay_reachable|].
  assert (Hj : ∃ j, jobs firstDelay !! "acc" = Some j ∧ countdown j = 2%Z)
    by (vm_compute; eexists; split; reflexivity).
  destruct Hj as (j & Hj & Hc).
  exists j. split; [exact Hj|]. split; [exact Hc|].
  apply (proj1 (proj1 (c8_countdown_nonzero_only_inside_delay (P := BulkJobProvider))
                  firstDelay "acc" j firstDelay_reachable Hj)).
  rewrite Hc. discriminate.
Defined.

(** Pause during the delay: status [paused] with a countdown of 2. *)
Lemma c8_counterexample :
  ¬ (∀ (w : World BulkJobProvider) acc j,
       reachable w → jobs w !! acc = Some j →
       countdown j ≠ 0%Z → status j = waiting).
Proof.
  intros H.
  assert (Hreach : reachable (pauseJob "acc" firstDelay)).
  { exists [fillForm threeRecipients 2; Start "acc"; Reply 0 (Responded true JNull);
            Pause "acc"].
    vm_compute. reflexivity. }
  assert (Hj : ∃ j, jobs (pauseJob "acc" firstDelay) !! "acc" = Some j
                    ∧ countdown j = 2%Z ∧ status j = paused)
    by (vm_compute; eexists; repeat split).
  destruct Hj as (j & Hj & Hc & Hs).
  specialize (H _ "acc" j Hreach Hj). rewrite Hc, Hs in H.
  discriminate H. discriminate.
Qed.

Lemma c9_witness :
  reachable twoInFlight
  ∧ valid (P := BulkJobProvider) "acc" tt twoInFlight
  ∧ controllers (startJob "acc" twoInFlight) !! "acc" = Some 1
  ∧ controllers twoInFlight !! "acc" ≠ Some 1
  ∧ ∃ w2 L',
      reply 0 (Responded true JNull) (startJob "acc" twoInFlight) = Some w2
      ∧ length (results (getJob "acc" w2)) = 1
      ∧ loops w2 !! 0 = Some L'
      ∧ ctrl L' = Some 1 ∧ pc L' ≠ Returned.
Proof.
  assert (Hv : valid (P := BulkJobProvider) "acc" tt twoInFlight)
    by (split; vm_compute; [discriminate|reflexivity]).
  split; [exact twoInFlight_reachable|]. split; [exact Hv|].
  destruct (c9_restart_replaces_token_without_cancelling (P := BulkJobProvider)
              "acc" tt twoInFlight twoInFlight_reachable Hv)
    as (H1 & _ & H3 & _ & H5).
  change (length (heap twoInFlight)) with 1 in *.
  split; [exact H1|]. split; [exact H3|].
  assert (HL : ∃ L, loops twoInFlight !! 0 = Some L ∧ accountId L = "acc"
                    ∧ pc L = AwaitFetch ∧ i L + 1 < length (emails L))
    by (vm_compute; eexists; repeat split; lia).
  destruct HL as (L & HL & Ha & Hpc & Hlt).
  destruct (H5 0 L (Responded true JNull) HL Ha Hpc)
    as (email & w2 & L' & _ & Hrep & Hres & _ & HL' & Hgo).
  exists w2, L'. split; [exact Hrep|]. split; [now rewrite Hres|].
  split; [exact HL'|]. exact (Hgo Hlt).
Defined.

(** The reply to the loop of the first start arrives after the second
    start: the loop records it and sends the next request. *)
Lemma c9_counterexample :
  ¬ (∀ (w : World BulkJobProvider) acc prep k L o w2,
       reachable w → valid acc prep w →
       loops w !! k = Some L → accountId L = acc → pc L = AwaitFetch →
       reply k o (startJob acc w) = Some w2 →
       jobs w2 = jobs (startJob acc w)
       ∧ ∃ L', loops w2 !! k = Some L' ∧ pc L' = Returned).
Proof.
  intros H.
  assert (Hv : valid (P := BulkJobProvider) "acc" tt twoInFlight)
    by (split; vm_compute; [discriminate|reflexivity]).
  assert (HL : ∃ L, loops twoInFlight !! 0 = Some L ∧ accountId L = "acc"
                    ∧ pc L = AwaitFetch)
    by (vm_compute; eexists; repeat split).
  destruct HL as (L & HL & Ha & Hpc).
  assert (Hr : reply 0 (Responded true JNull) (startJob "acc" twoInFlight)
               = Some (default mounted
                         (reply 0 (Responded true JNull) (startJob "acc" twoInFlight))))
    by (vm_compute; reflexivity).
  destruct (H twoInFlight "acc" tt 0 L (Responded true JNull) _
              twoInFlight_reachable Hv HL Ha Hpc Hr) as [Hj _].
  apply (f_equal (fun m => length (results (default defaultJobState (m !! "acc"))))) in Hj.
  vm_compute in Hj. discriminate Hj.
Qed.

Lemma c10_witness :
  controllers (mounted (P := BulkJobProvider)) !! "acc" = None
  ∧ pauseJob (P := BulkJobProvider) "acc" mounted = mounted
  ∧ resumeJob (P := BulkJobProvider) "acc" mounted = mounted
  ∧ stopJob (P := BulkJobProvider) "acc" mounted = mounted
  ∧ is_Some (controllers firstInFlight !! "acc")
  ∧ run restOfRun firstInFlight = Some runCompleted
  ∧ status (getJob "acc" runCompleted) = completed
  ∧ status (getJob "acc" (pauseJob "acc" runCompleted)) = paused
  ∧ status (getJob "acc" (resumeJob "acc" runCompleted)) = processing.
Proof.
  assert (H0 : controllers (mounted (P := BulkJobProvider)) !! "acc" = None)
    by reflexivity.
  assert (Hc : is_Some (controllers firstInFlight !! "acc"))
    by (vm_compute; eauto).
  assert (Hr : run restOfRun firstInFlight = Some runCompleted)
    by (vm_compute; reflexivity).
  destruct (proj1 (c10_controls_guarded_by_token_only (P := BulkJobProvider))
              "acc" mounted H0) as (H1 & H2 & H3).
  destruct (proj2 (proj2 (c10_controls_guarded_by_token_only (P := BulkJobProvider)))
              "acc" restOfRun firstInFlight runCompleted Hc Hr) as (_ & H4 & H5 & _).
  split; [exact H0|]. split; [exact H1|]. split; [exact H2|]. split; [exact H3|].
  split; [exact Hc|]. split; [exact Hr|].
  split; [vm_compute; reflexivity|]. split; [exact H4|exact H5].
Defined.

Lemma secondInFlight_reachable : reachable secondInFlight.
Proof.
  exists (take 7 wholeRun). vm_compute. reflexivity.
Qed.

(** Three recipients, two seconds of delay; the call for the second fails
    with a network error: the failure is recorded under id 2 beside the
    success of the first, and when the two seconds have passed the request
    for the third recipient is sent. *)
Lemma c4_witness :
  reachable secondInFlight
  ∧ ∃ L, loops secondInFlight !! 0 = Some L ∧ pc L = AwaitFetch
    ∧ ∃ w' j',
        reply 0 (Threw "") secondInFlight = Some w'
        ∧ jobs w' !! "acc" = Some j'
        ∧ results j' =
            [SendResult.mk 2 "b@x.com" Error
               (JSON_stringify (JObject [("error", JString "Network Error")]));
             SendResult.mk 1 "a@x.com" Success (JSON_stringify JNull)]
        ∧ fail (stats j') = 1 ∧ success (stats j') = 1
        ∧ current (progress j') = 2
        ∧ ∃ w2,
            run [Elapse 1000; Wake 0; Elapse 1000; Wake 0] w' = Some w2
            ∧ requests w2 =
                requests secondInFlight ++
                [(0, POST_send_email "acc" "c@x.com" "Hello" "<p>Hi</p>"
                       (Some "") (Some ""))]
            ∧ results (getJob "acc" w2) = results j'.
Proof.
  split; [exact secondInFlight_reachable|].
  assert (HL : ∃ L, loops secondInFlight !! 0 = Some L ∧ pc L = AwaitFetch
                    ∧ accountId L = "acc" ∧ i L = 1
                    ∧ emails L !! 1 = Some "b@x.com"
                    ∧ emails L !! 2 = Some "c@x.com"
                    ∧ delay (job L) = 2%Z
                    ∧ buildRequest BulkJobProvider "acc" (inputs (job L)) (prepared L)
                        "c@x.com"
                      = POST_send_email "acc" "c@x.com" "Hello" "<p>Hi</p>"
                          (Some "") (Some ""))
    by (vm_compute; eexists; repeat split).
  destruct HL as (L & HL & Hpc & Ha & Hi & He0 & He1 & Hd & Hb).
  exists L. split; [exact HL|]. split; [exact Hpc|].
  destruct (c4_failure_is_recorded_and_run_continues (P := BulkJobProvider)
              0 (Threw "") secondInFlight L secondInFlight_reachable HL Hpc I)
    as (email & j & w' & j' & L' & He & Hj & Hrep & Hj' & Hres & Hf & Hs & Hc & _ & _ & _
        & _ & Hnext).
  rewrite Hi, He0 in He. injection He as <-.
  assert (Hj0 : results j = [SendResult.mk 1 "a@x.com" Success (JSON_stringify JNull)]
                ∧ fail (stats j) = 0 ∧ success (stats j) = 1).
  { rewrite Ha in Hj. vm_compute in Hj. injection Hj as <-. repeat split. }
  destruct Hj0 as (Hr0 & Hf0 & Hs0).
  exists w', j'. rewrite Ha in Hj'.
  split; [exact Hrep|]. split; [exact Hj'|].
  rewrite Hres, Hf, Hs, Hc, Hr0, Hf0, Hs0, Hi. do 4 (split; [reflexivity|]).
  specialize (Hnext 0 "c@x.com").
  rewrite Hi, Ha, Hd, Hb in Hnext. cbn zeta in Hnext.
  destruct (Hnext He1 ltac:(vm_compute; reflexivity) ltac:(vm_compute; reflexivity)
              ltac:(vm_compute; reflexivity))
    as (_ & _ & _ & w2 & L2 & Hr2 & _ & _ & _ & Hq2 & _ & Hres2 & _).
  exists w2. split; [exact Hr2|]. split; [exact Hq2|].
  rewrite Hres2, Hres, Hr0, Hi. reflexivity.
Defined.

(** The track provider differs from the send provider in the stop check
    that follows the delay: it breaks without writing the status.  After a
    stop during the delay the loop returns and leaves [processing], the
    status the end of the delay has written over [stopped]. *)
Example track_stop_during_delay_leaves_processing :
  ∃ w L, run trackStopInDelay mounted = Some w
         ∧ loops w !! 0 = Some L ∧ pc L = Returned
         ∧ flag isStopped (controllers w !! "acc") w = true
         ∧ status (getJob "acc" w) = processing.
Proof. vm_compute. eexists _, _. repeat split. Qed.

Section Ledgers.
Context {P : Provider} {json : JSON}.
Implicit Types (w : World P) (L : Loop P) (j : JobState P) (acc : string).

(** ** The job state store *)

Lemma spread_app j (d1 d2 : list (Field P)) :
  spread (spread j d1) d2 = spread j (d1 ++ d2).
Proof. unfold spread. now rewrite fold_left_app. Qed.

(** X1: two [updateJobData] calls for one account are one call with the
    two objects spread in turn, so that a key of the later call wins; calls
    for different accounts can be swapped. *)
Theorem updateJobData_composes :
  (∀ acc (d1 d2 : list (Field P)) w,
      updateJobData acc d2 (updateJobData acc d1 w) = updateJobData acc (d1 ++ d2) w)
  ∧ (∀ a b (d1 d2 : list (Field P)) w,
      a ≠ b →
      updateJobData a d1 (updateJobData b d2 w)
      = updateJobData b d2 (updateJobData a d1 w)).
Proof.
  split.
  - intros acc d1 d2 w. unfold updateJobData, with_jobs. cbn.
    rewrite lookup_insert_eq, insert_insert_eq. cbn. now rewrite spread_app.
  - intros a b d1 d2 w Hab. unfold updateJobData, with_jobs. cbn.
    rewrite !lookup_insert_ne by auto. f_equal. now apply insert_insert_ne.
Qed.

End Ledgers.

Section Records.
Context {P : Provider} {json : JSON}.
Implicit Types (w : World P) (L : Loop P) (j : JobState P) (acc : string).

(** ** How one event changes one record *)

Lemma untouched_refl j : untouched j j.
Proof. repeat split. Qed.

Lemma untouched_trans j1 j2 j3 : untouched j1 j2 → untouched j2 j3 → untouched j1 j3.
Proof. intros (?&?&?&?&?&?&?) (?&?&?&?&?&?&?). repeat split; congruence. Qed.

Lemma getJob_store a k (r : Loop P * World P) : getJob a (store k r) = getJob a (snd r).
Proof. reflexivity. Qed.

Lemma loopEffect_other acc w w' a :
  loopEffect acc w w' → a ≠ acc → getJob a w' = getJob a w.
Proof. intros He Ha. apply getJob_ext. now apply He. Qed.

Lemma getJob_startReset acc w :
  getJob acc (startReset acc w)
  = spread (getJob acc w)
      [F_status processing; F_results []; F_stats {| success := 0; fail := 0 |};
       F_progress {| current := 0;
                     total := length (parseEmails (emailList (getJob acc w))) |};
       F_elapsedSeconds 0; F_countdown 0].
Proof. unfold getJob, startReset. cbn. now rewrite lookup_insert_eq. Qed.

(** What an event does to the record of account [a]: it leaves everything
    but [status] and [countdown] alone, or it is an edit of [a], a valid
    start of [a], a tick, or the reply to a loop of [a]. *)
Lemma step_record w e w' a :
  step w e = Some w' →
  untouched (getJob a w) (getJob a w')
  ∨ (∃ data, e = Edit a data ∧ forallb isInput data = true
             ∧ getJob a w' = spread (getJob a w) data)
  ∨ (∃ prep, e = Start a ∧ valid a prep w
             ∧ untouched
                 (spread (getJob a w)
                    [F_status processing; F_results [];
                     F_stats {| success := 0; fail := 0 |};
                     F_progress {| current := 0;
                        total := length (parseEmails (emailList (getJob a w))) |};
                     F_elapsedSeconds 0; F_countdown 0])
                 (getJob a w'))
  ∨ (e = Tick ∧ getJob a w' = tickJob (getJob a w))
  ∨ (∃ k o L email,
        e = Reply k o ∧ loops w !! k = Some L ∧ accountId L = a
        ∧ pc L = AwaitFetch ∧ emails L !! i L = Some email
        ∧ is_Some (jobs w !! a)
        ∧ let r := outcomeResult (i L + 1) email o in
          untouched
            (spread (getJob a w)
               [F_stats (countOutcome (stats (getJob a w)) (SendResult.status r));
                F_progress {| current := i L + 1;
                              total := total (progress (getJob a w)) |};
                F_results (r :: results (getJob a w))])
            (getJob a w')).
Proof.
  intros Hs.
  destruct e as [acc data|acc|acc|acc|acc| |ms|k|k o]; cbn [step] in Hs.
  - destruct (forallb _ _) eqn:Hd; [|discriminate]. injection Hs as <-.
    destruct (decide (a = acc)) as [->|Hne].
    + right. left. exists data. now rewrite getJob_updateJobData.
    + left. rewrite getJob_updateJobData_ne by auto. apply untouched_refl.
  - injection Hs as <-.
    destruct (startJob_cases acc w) as [[m ->]|[prep Hv]].
    { left. rewrite getJob_toast. apply untouched_refl. }
    rewrite (startJob_valid _ _ _ Hv). cbn zeta.
    destruct (iteration_effect (length (loops w)) (startLoop acc prep w) (startReset acc w))
      as [He _].
    change (accountId (startLoop acc prep w)) with acc in He.
    match goal with |- context [getJob a (with_loops ?ls ?x)] =>
      change (getJob a (with_loops ls x)) with (getJob a x) end.
    destruct (decide (a = acc)) as [->|Hne].
    + right. right. left. exists prep. split; [reflexivity|]. split; [exact Hv|].
      rewrite <- getJob_startReset. apply He.
    + left. rewrite (loopEffect_other _ _ _ a He) by auto.
      destruct (startReset_shape acc w) as (_&_&_&_&_&Ho&_).
      rewrite (getJob_ext a w (startReset acc w)) by auto. apply untouched_refl.
  - injection Hs as <-. left.
    destruct (control_shape acc w (pauseJob acc w)) as (_&_&_&_&_&Ho&_&Hu&_); auto.
    destruct (decide (a = acc)) as [->|Hne]; [exact Hu|].
    rewrite (getJob_ext a w _ (Ho a Hne)). apply untouched_refl.
  - injection Hs as <-. left.
    destruct (control_shape acc w (resumeJob acc w)) as (_&_&_&_&_&Ho&_&Hu&_); auto.
    destruct (decide (a = acc)) as [->|Hne]; [exact Hu|].
    rewrite (getJob_ext a w _ (Ho a Hne)). apply untouched_refl.
  - injection Hs as <-. left.
    destruct (control_shape acc w (stopJob acc w)) as (_&_&_&_&_&Ho&_&Hu&_); auto.
    destruct (decide (a = acc)) as [->|Hne]; [exact Hu|].
    rewrite (getJob_ext a w _ (Ho a Hne)). apply untouched_refl.
  - injection Hs as <-. right. right. right. left. split; [reflexivity|].
    apply getJob_tick.
  - injection Hs as <-. left. apply untouched_refl.
  - apply wake_inv in Hs as (L & r & HL & -> & He & _).
    left. rewrite getJob_store.
    destruct (decide (a = accountId L)) as [->|Hne]; [apply He|].
    rewrite (loopEffect_other _ _ _ a He) by auto. apply untouched_refl.
  - apply reply_inv in Hs as (L & email & w1 & HL & Hpc & Hem & Hr & ->).
    apply recordOutcome_inv in Hr as (j & Hj & ->).
    set (rr := outcomeResult _ _ _). set (w1 := with_jobs _ w). set (L1 := with_i _ L).
    destruct (iteration_effect k L1 w1) as [He _].
    change (accountId L1) with (accountId L) in He.
    rewrite getJob_store.
    destruct (decide (a = accountId L)) as [->|Hne].
    + right. right. right. right. exists k, o, L, email.
      do 6 (split; [first [reflexivity|assumption|eauto]|]).
      cbn zeta. fold rr. rewrite (getJob_lookup _ _ _ Hj).
      assert (Hid : SendResult.id rr = i L + 1) by (subst rr; destruct o; reflexivity).
      rewrite <- Hid.
      assert (Hg1 : getJob (accountId L) w1 =
                spread j [F_stats (countOutcome (stats j) (SendResult.status rr));
                          F_progress {| current := SendResult.id rr;
                                        total := total (progress j) |};
                          F_results (rr :: results j)])
        by (unfold getJob; subst w1; cbn; now rewrite lookup_insert_eq).
      rewrite <- Hg1. apply He.
    + left. rewrite (loopEffect_other _ _ _ a He) by auto.
      rewrite (getJob_ext a w w1); [apply untouched_refl|].
      subst w1. cbn. now rewrite lookup_insert_ne.
Qed.

End Records.

Section Counters.
Context {P : Provider} {json : JSON}.
Implicit Types (w : World P) (L : Loop P) (j : JobState P) (acc : string).

(** ** The elapsed-time ticker *)

Lemma tickJob_assign j :
  tickJob j
  = assign j (F_elapsedSeconds (elapsedSeconds j + if running j then 1 else 0)).
Proof.
  unfold tickJob, running. destruct j as [? ? ? st ? ? ? el ?]. cbn.
  destruct st; cbn; rewrite ?Nat.add_0_r; reflexivity.
Qed.

Lemma run_ticks n w :
  run (repeat Tick n) w = Some (Nat.iter n tick w).
Proof.
  revert w. induction n as [|n IH]; intros w; [reflexivity|].
  change (run (repeat Tick (S n)) w) with (run (repeat Tick n) (tick w)).
  rewrite IH. cbn [Nat.iter]. now rewrite Nat.iter_swap.
Qed.

(** X2: when the one-second interval fires [n] times and nothing else
    happens, every job whose status is [processing] or [waiting] has [n]
    more elapsed seconds and every other job the seconds it had; no other
    field of any record changes, no record is created, and controllers,
    loops, requests and notices stay as they are. *)
Theorem ticks_count_seconds_of_running_jobs n w :
  ∃ w', run (repeat Tick n) w = Some w'
    ∧ controllers w' = controllers w ∧ heap w' = heap w ∧ loops w' = loops w
    ∧ requests w' = requests w ∧ toasts w' = toasts w
    ∧ ∀ acc,
        getJob acc w'
        = assign (getJob acc w)
            (F_elapsedSeconds
               (elapsedSeconds (getJob acc w) + if running (getJob acc w) then n else 0))
        ∧ (is_Some (jobs w' !! acc) ↔ is_Some (jobs w !! acc)).
Proof.
  exists (Nat.iter n tick w). split; [apply run_ticks|].
  induction n as [|n (Hc & Hh & Hl & Hr & Ht & Hj)];
    [change (Nat.iter 0 tick w) with w
    |change (Nat.iter (S n) tick w) with (tick (Nat.iter n tick w))].
  - repeat (split; [reflexivity|]). intros acc. split; [|reflexivity].
    destruct (getJob acc w) as [? ? ? st ? ? ? el ?]. cbn.
    destruct (running _); now rewrite Nat.add_0_r.
  - repeat (split; [assumption|]). intros acc.
    destruct (Hj acc) as [Hg Hs]. split.
    + rewrite getJob_tick, tickJob_assign, Hg.
      destruct (getJob acc w) as [? ? ? st ? ? ? el ?]. unfold running. cbn.
      destruct st; cbn; f_equal; lia.
    + rewrite <- Hs. cbn. rewrite lookup_fmap. apply fmap_is_Some.
Qed.

Lemma spread_inputs_elapsed j (data : list (Field P)) :
  forallb isInput data = true → elapsedSeconds (spread j data) = elapsedSeconds j.
Proof.
  unfold spread. revert j. induction data as [|f data IH]; intros j H; cbn; [reflexivity|].
  cbn in H. apply andb_prop in H as [Hf H]. rewrite (IH _ H).
  destruct f; try discriminate; reflexivity.
Qed.

Lemma step_elapsed w e w' a :
  step w e = Some w' →
  elapsedSeconds (getJob a w')
  ≤ elapsedSeconds (getJob a w) + (if isTick e then 1 else 0).
Proof.
  intros Hs.
  destruct (step_record w e w' a Hs)
    as [Hu|[(data & -> & Hd & ->)|[(prep & -> & _ & Hu)|[[-> ->]|
        (k & o & L & email & -> & _ & _ & _ & _ & _ & Hu)]]]].
  - destruct Hu as (_&_&_&_&_&_&->). lia.
  - rewrite spread_inputs_elapsed by exact Hd. lia.
  - destruct Hu as (_&_&_&_&_&_&->). cbn. lia.
  - rewrite tickJob_assign. cbn. destruct (running _); lia.
  - cbn zeta in Hu. destruct Hu as (_&_&_&_&_&_&->). cbn. lia.
Qed.

(** X3: whatever happens, the elapsed seconds of a job grow by at most the
    number of times the interval fires: nothing but the ticker adds to
    them (a valid start sets them back to zero). *)
Theorem elapsed_seconds_bounded_by_ticks es w w' acc :
  run es w = Some w' →
  elapsedSeconds (getJob acc w') ≤ elapsedSeconds (getJob acc w) + ticksIn es.
Proof.
  revert w. induction es as [|e es IH]; intros w; cbn [run].
  - intros [= <-]. lia.
  - destruct (step w e) as [w1|] eqn:Hs; [|discriminate]. cbn. intros Hr.
    specialize (IH _ Hr). pose proof (step_elapsed _ _ _ acc Hs) as H1.
    unfold ticksIn in *. cbn [List.filter]. destruct (isTick e); cbn [length]; lia.
Qed.

(** ** Counters and results *)

Lemma step_tallied w e w' :
  (∀ a, tallied (getJob a w)) → step w e = Some w' → ∀ a, tallied (getJob a w').
Proof.
  intros H Hs a. specialize (H a). unfold tallied, filteredResults in *.
  destruct (step_record w e w' a Hs)
    as [Hu|[(data & -> & Hd & ->)|[(prep & -> & _ & Hu)|[[-> ->]|
        (k & o & L & email & -> & _ & _ & _ & _ & _ & Hu)]]]].
  - destruct Hu as (_&_&_&_&->&->&_). exact H.
  - destruct (spread_inputs_kept (getJob a w) data Hd) as ((_&->&->&_)&_). exact H.
  - destruct Hu as (_&_&_&_&->&->&_). cbn. auto.
  - destruct (tickJob_kept (getJob a w)) as ((_&->&->&_)&_). exact H.
  - cbn zeta in Hu. destruct Hu as (_&_&_&_&->&->&_). cbn.
    destruct (SendResult.status _); cbn; lia.
Qed.

Lemma reachable_tallied w acc : reachable w → tallied (getJob acc w).
Proof.
  intros [es Hr]. revert acc.
  assert (H0 : ∀ a, tallied (getJob a (@mounted P))).
  { intros a. unfold getJob. cbn. rewrite lookup_empty. split; reflexivity. }
  revert Hr H0. generalize (@mounted P). revert w.
  induction es as [|e es IH]; intros w w0 Hr H0; cbn [run] in Hr.
  - injection Hr as <-. exact H0.
  - destruct (step w0 e) as [w1|] eqn:Hs; [|discriminate]. cbn in Hr.
    eapply IH; [exact Hr|]. eapply step_tallied; eauto.
Qed.

(** X4: in every state the provider can reach, also when runs of one
    account overlap, [stats.success] is the number of results with status
    [success] and [stats.fail] the number with status [error], which are
    the lengths of the lists the page shows under its two filters. *)
Theorem stats_count_results_by_status w acc :
  reachable w →
  success (stats (getJob acc w))
  = length (filteredResults filter_success (Some (getJob acc w)))
  ∧ fail (stats (getJob acc w))
    = length (filteredResults filter_error (Some (getJob acc w))).
Proof. intros Hr. exact (reachable_tallied w acc Hr). Qed.

End Counters.

(** ** Counters, results and progress *)

Section Agreement.
Context {P : Provider} {json : JSON}.
Implicit Types (w : World P) (L : Loop P) (j : JobState P) (acc : string).

(** Every result is a success or an error. *)
Lemma filteredResults_partition j :
  length (filteredResults filter_success (Some j))
  + length (filteredResults filter_error (Some j))
  = length (results j).
Proof.
  unfold filteredResults. induction (results j) as [|r rs IH]; [reflexivity|].
  cbn [List.filter]. destruct (SendResult.status r); cbn [length]; lia.
Qed.

(** C1 (as amended): in every state the provider can reach -- also when
    runs of one account overlap -- every job record has
    [stats.success + stats.fail = length results]; as long as the runs of
    an account do not overlap, i.e. [startJob] is called for an account only
    when its earlier invocations have returned, this number is also
    [progress.current]; recording an outcome adds one to [stats.success]
    and leaves [stats.fail] when the outcome is a success, adds one to
    [stats.fail] and leaves [stats.success] when it is an error, puts the
    outcome in front of [results], sets [progress.current] to the outcome's
    id and leaves [progress.total]; and the continuation of every [fetch]
    records exactly such an outcome, a success when the response is ok and
    an error otherwise, under the recipient's 1-based index. *)
Theorem c1_counters_and_results_agree :
  (∀ w acc j,
      reachable w →
      jobs w !! acc = Some j →
      success (stats j) + fail (stats j) = length (results j))
  ∧ (∀ es w acc j,
      exclusive es mounted = true →
      run es mounted = Some w →
      jobs w !! acc = Some j →
      success (stats j) + fail (stats j) = current (progress j)
      ∧ current (progress j) = length (results j))
  ∧ (∀ acc r w j,
      jobs w !! acc = Some j →
      ∃ w' j',
        recordOutcome acc r w = Some w'
        ∧ jobs w' !! acc = Some j'
        ∧ match SendResult.status r with
          | Success =>
              success (stats j') = success (stats j) + 1
              ∧ fail (stats j') = fail (stats j)
          | Error =>
              success (stats j') = success (stats j)
              ∧ fail (stats j') = fail (stats j) + 1
          end
        ∧ progress j' = {| current := SendResult.id r; total := total (progress j) |}
        ∧ results j' = r :: results j)
  ∧ (∀ k o w w',
      reply k o w = Some w' →
      ∃ L email w1,
        loops w !! k = Some L
        ∧ emails L !! i L = Some email
        ∧ recordOutcome (accountId L) (outcomeResult (i L + 1) email o) w = Some w1
        ∧ SendResult.id (outcomeResult (i L + 1) email o) = i L + 1
        ∧ SendResult.email (outcomeResult (i L + 1) email o) = email
        ∧ (SendResult.status (outcomeResult (i L + 1) email o) = Success
           ↔ ∃ resultData, o = Responded true resultData)
        ∧ results (getJob (accountId L) w') = results (getJob (accountId L) w1)
        ∧ stats (getJob (accountId L) w') = stats (getJob (accountId L) w1)
        ∧ progress (getJob (accountId L) w') = progress (getJob (accountId L) w1)).
Proof.
  split; [|split; [|split]].
  - intros w acc j Hreach Hj.
    destruct (reachable_tallied w acc Hreach) as [Hs Hf].
    rewrite (getJob_lookup _ _ _ Hj) in Hs, Hf.
    rewrite Hs, Hf. apply filteredResults_partition.
  - intros es w acc j Hex Hr Hj.
    pose proof (run_solo es mounted w solo_mounted Hex Hr) as Hso.
    pose proof (solo_agree _ Hso acc) as Hag.
    now rewrite (getJob_lookup _ _ _ Hj) in Hag.
  - intros acc r w j Hj. unfold recordOutcome. rewrite Hj. cbn.
    eexists _, _. split; [reflexivity|]. cbn [jobs with_jobs]. rewrite lookup_insert_eq.
    split; [reflexivity|]. cbn. destruct (SendResult.status r); cbn; repeat split.
  - intros k o w w' Hrep.
    apply reply_inv in Hrep as (L & email & w1 & HL & Hpc & Hem & Hr & ->).
    exists L, email, w1. split; [exact HL|]. split; [exact Hem|]. split; [exact Hr|].
    split; [destruct o; reflexivity|]. split; [destruct o; reflexivity|].
    split.
    { destruct o as [[] d|m]; cbn; split; try discriminate; eauto.
      - intros [d' [=]].
      - intros [d' [=]]. }
    destruct (iteration_effect k (with_i (i L + 1) L) w1) as [He _].
    destruct (le_job _ _ _ He) as (_ & _ & _ & Hp & Hres & Hst & _).
    change (accountId (with_i (i L + 1) L)) with (accountId L) in *.
    change (getJob (accountId L) (store k ?r)) with (getJob (accountId L) (snd r)).
    auto.
Qed.

End Agreement.

Lemma c1_witness :
  exclusive wholeRun mounted = true
  ∧ run wholeRun mounted = Some runCompleted
  ∧ (∃ j, jobs runCompleted !! "acc" = Some j
          ∧ success (stats j) + fail (stats j) = current (progress j)
          ∧ current (progress j) = length (results j))
  ∧ reachable (after restartInFlight)
  ∧ ∃ j, jobs (after restartInFlight) !! "acc" = Some j
         ∧ success (stats j) + fail (stats j) = length (results j).
Proof.
  assert (Hex : exclusive wholeRun mounted = true) by (vm_compute; reflexivity).
  assert (Hr : run wholeRun mounted = Some runCompleted) by (vm_compute; reflexivity).
  assert (Hreach : reachable (after restartInFlight))
    by (exists restartInFlight; vm_compute; reflexivity).
  split; [exact Hex|]. split; [exact Hr|]. split; [|split; [exact Hreach|]].
  - destruct (jobs runCompleted !! "acc") as [j|] eqn:Hj;
      [|vm_compute in Hj; discriminate Hj].
    exists j. split; [reflexivity|].
    exact (proj1 (proj2 (c1_counters_and_results_agree (P := BulkJobProvider)))
             wholeRun runCompleted "acc" j Hex Hr Hj).
  - destruct (jobs (after restartInFlight) !! "acc") as [j|] eqn:Hj;
      [|vm_compute in Hj; discriminate Hj].
    exists j. split; [reflexivity|].
    exact (proj1 (c1_counters_and_results_agree (P := BulkJobProvider))
             (after restartInFlight) "acc" j Hreach Hj).
Defined.

(** The operator stops a run and starts again while the request of the
    stopped run is still in flight: the loop of the first start goes on
    under the new token, and both loops count the first recipient. *)
Lemma c1_counterexample :
  ¬ (∀ (w : World BulkJobProvider) acc j,
       reachable w → jobs w !! acc = Some j →
       success (stats j) + fail (stats j) = current (progress j)
       ∧ current (progress j) = length (results j)).
Proof.
  intros H.
  assert (E : (w ← run restartInFlight mounted; j ← jobs w !! "acc";
               Some (success (stats j) + fail (stats j), current (progress j)))
              = Some (2, 1)) by (vm_compute; reflexivity).
  destruct (run restartInFlight mounted) as [w|] eqn:Hr; [|discriminate E].
  cbn in E. destruct (jobs w !! "acc") as [j|] eqn:Hj; [|discriminate E].
  cbn in E. injection E as E1 E2.
  destruct (H w "acc" j) as [H1 _]; [exists restartInFlight; exact Hr|exact Hj|].
  lia.
Qed.

Section Started.
Context {P : Provider} {json : JSON}.
Implicit Types (w : World P) (L : Loop P) (j : JobState P) (acc : string).

(** ** Events of other accounts *)

Lemma step_other_record w e w' a :
  step w e = Some w' → concerns w e ≠ Some a → isTick e = false →
  jobs w' !! a = jobs w !! a.
Proof.
  intros Hs Hsub Ht.
  destruct e as [acc data|acc|acc|acc|acc| |ms|k|k o]; cbn [step concerns] in *;
    try discriminate.
  - destruct (forallb _ _); [|discriminate]. injection Hs as <-.
    cbn. rewrite lookup_insert_ne; [reflexivity|congruence].
  - injection Hs as <-.
    destruct (startJob_cases acc w) as [[m ->]|[prep Hv]]; [reflexivity|].
    rewrite (startJob_valid _ _ _ Hv). cbn zeta.
    destruct (iteration_effect (length (loops w)) (startLoop acc prep w) (startReset acc w))
      as [He _].
    change (accountId (startLoop acc prep w)) with acc in He.
    cbn [jobs with_loops]. rewrite (le_other _ _ _ He) by congruence.
    destruct (startReset_shape acc w) as (_&_&_&_&_&Ho&_). apply Ho. congruence.
  - injection Hs as <-.
    destruct (control_shape acc w (pauseJob acc w)) as (_&_&_&_&_&Ho&_); auto.
    apply Ho. congruence.
  - injection Hs as <-.
    destruct (control_shape acc w (resumeJob acc w)) as (_&_&_&_&_&Ho&_); auto.
    apply Ho. congruence.
  - injection Hs as <-.
    destruct (control_shape acc w (stopJob acc w)) as (_&_&_&_&_&Ho&_); auto.
    apply Ho. congruence.
  - injection Hs as <-. reflexivity.
  - apply wake_inv in Hs as (L & r & HL & -> & He & _).
    rewrite HL in Hsub. cbn in Hsub. cbn [jobs store with_loops].
    apply He. congruence.
  - apply reply_inv in Hs as (L & email & w1 & HL & Hpc & Hem & Hr & ->).
    apply recordOutcome_inv in Hr as (j & Hj & ->).
    rewrite HL in Hsub. cbn in Hsub.
    set (w1 := with_jobs _ w). set (L1 := with_i _ L).
    destruct (iteration_effect k L1 w1) as [He _].
    change (accountId L1) with (accountId L) in He.
    cbn [jobs store with_loops]. rewrite (le_other _ _ _ He) by congruence.
    subst w1. cbn. rewrite lookup_insert_ne; [reflexivity|congruence].
Qed.

(** ** The status [idle] *)

Lemma step_idle w e w' a :
  step w e = Some w' → status (getJob a w') = idle → status (getJob a w) = idle.
Proof.
  intros Hs Hi.
  destruct (decide (concerns w e = Some a)) as [Hsub|Hsub]; cycle 1.
  { destruct (isTick e) eqn:Ht.
    - destruct e; try discriminate. injection Hs as <-.
      rewrite getJob_tick in Hi. now rewrite (proj2 (tickJob_kept _)) in Hi.
    - now rewrite <- (getJob_ext a w w' (step_other_record _ _ _ a Hs Hsub Ht)). }
  destruct e as [acc data|acc|acc|acc|acc| |ms|k|k o]; cbn [concerns] in Hsub;
    try discriminate.
  1,3,4,5: (injection Hsub as ->;
            eapply calm_step in Hs as (_ & _ & Hk); try discriminate;
            destruct (Hk a) as [_ [<-|[[_ H]|[[_ H]|[_ H]]]]]; congruence).
  all: cbn [step] in Hs.
  - injection Hsub as ->. injection Hs as <-.
    destruct (startJob_cases a w) as [[m Hm]|[prep Hv]].
    { rewrite Hm in Hi. now rewrite getJob_toast in Hi. }
    exfalso. rewrite (startJob_valid _ _ _ Hv) in Hi. cbn zeta in Hi.
    pose proof (iteration_shown (length (loops w)) (startLoop a prep w) (startReset a w))
      as (_ & Hsh & _).
    change (accountId (startLoop a prep w)) with a in Hsh.
    specialize (Hsh Hi). rewrite getJob_startReset in Hsh. discriminate Hsh.
  - apply wake_inv in Hs as (L & r & HL & -> & _ & _ & _ & _ & _ & Hsh & _).
    rewrite HL in Hsub. injection Hsub as <-. now apply Hsh.
  - apply reply_inv in Hs as (L & email & w1 & HL & Hpc & Hem & Hr & ->).
    apply recordOutcome_inv in Hr as (j & Hj & ->).
    rewrite HL in Hsub. injection Hsub as <-.
    set (rr := outcomeResult _ _ _) in *. set (L1 := with_i _ L) in *.
    pose proof (recorded_getJob (accountId L) rr w j (accountId L) Hj) as [Hst _].
    cbn zeta in Hst. rewrite <- Hst.
    match type of Hi with context [iteration k L1 ?w1] =>
      pose proof (iteration_shown k L1 w1) as (_ & Hsh & _) end.
    now apply Hsh.
Qed.

Lemma step_status_without_token w e w' a :
  wf w → step w e = Some w' → controllers w' !! a = None →
  status (getJob a w') = status (getJob a w).
Proof.
  intros Hw Hs Hn.
  assert (Hn0 : controllers w !! a = None).
  { destruct (controllers w !! a) eqn:E; [|reflexivity].
    destruct (run_keeps_controller [e] w w' a) as [l Hl]; [|eauto|congruence].
    cbn. now rewrite Hs. }
  destruct (decide (concerns w e = Some a)) as [Hsub|Hsub]; cycle 1.
  { destruct (isTick e) eqn:Ht.
    - destruct e; try discriminate. injection Hs as <-.
      rewrite getJob_tick. apply tickJob_kept.
    - now rewrite (getJob_ext a w w' (step_other_record _ _ _ a Hs Hsub Ht)). }
  destruct e as [acc data|acc|acc|acc|acc| |ms|k|k o]; cbn [step concerns] in *;
    try discriminate.
  - injection Hsub as ->. destruct (forallb _ _) eqn:Hd; [|discriminate].
    injection Hs as <-. rewrite getJob_updateJobData. now apply spread_inputs_kept.
  - injection Hsub as ->. injection Hs as <-.
    destruct (startJob_cases a w) as [[m Hm]|[prep Hv]].
    { rewrite Hm. now rewrite getJob_toast. }
    exfalso. destruct (startJob_first_fetch a prep w Hv) as (email & _ & E).
    rewrite E in Hn. cbn in Hn. rewrite lookup_insert_eq in Hn. discriminate.
  - injection Hsub as ->. injection Hs as <-.
    unfold pauseJob, hasController. now rewrite Hn0.
  - injection Hsub as ->. injection Hs as <-.
    unfold resumeJob, hasController. now rewrite Hn0.
  - injection Hsub as ->. injection Hs as <-.
    unfold stopJob, hasController. now rewrite Hn0.
  - exfalso. destruct (loops w !! k) as [L|] eqn:HL; [|discriminate].
    injection Hsub as <-. destruct (wf_token _ Hw k L HL). congruence.
  - exfalso. destruct (loops w !! k) as [L|] eqn:HL; [|discriminate].
    injection Hsub as <-. destruct (wf_token _ Hw k L HL). congruence.
Qed.

Lemma step_token_has_loop w e w' :
  (∀ a, is_Some (controllers w !! a) → ∃ k L, loops w !! k = Some L ∧ accountId L = a) →
  step w e = Some w' →
  ∀ a, is_Some (controllers w' !! a) → ∃ k L, loops w' !! k = Some L ∧ accountId L = a.
Proof.
  intros H Hs a Ha.
  assert (Hkeep : ∀ k L, loops w !! k = Some L → accountId L = a →
                         ∃ k L, loops w' !! k = Some L ∧ accountId L = a).
  { intros k L HL HLa. destruct (step_loop_persists _ _ _ k L Hs HL) as (L' & ? & ? & _).
    exists k, L'. split; congruence. }
  destruct (step_controllers _ _ _ Hs) as [Hc|(acc & -> & Hc)].
  - rewrite Hc in Ha. destruct (H a Ha) as (k & L & HL & HLa). eauto.
  - destruct (decide (a = acc)) as [->|Hne].
    + cbn [step] in Hs. injection Hs as <-.
      destruct (startJob_cases acc w) as [[m Hm]|[prep Hv]].
      * rewrite Hm in Ha. cbn in Ha. destruct (H acc Ha) as (k & L & HL & HLa).
        rewrite Hm. cbn. eauto.
      * destruct (startJob_first_fetch acc prep w Hv) as (email & _ & ->).
        eexists (length (loops w)), _. split.
        { cbn. now rewrite lookup_app_r, Nat.sub_diag by lia. }
        reflexivity.
    + rewrite Hc, lookup_insert_ne in Ha by auto.
      destruct (H a Ha) as (k & L & HL & HLa). eauto.
Qed.

Lemma reachable_started w acc :
  reachable w →
  (status (getJob acc w) = idle ↔ controllers w !! acc = None)
  ∧ (controllers w !! acc = None ↔
     ∀ k L, loops w !! k = Some L → accountId L ≠ acc).
Proof.
  intros Hreach. pose proof (reachable_wf w Hreach) as Hwf.
  destruct Hreach as [es Hr].
  assert (Hinv : (∀ a, status (getJob a w) = idle ↔ controllers w !! a = None)
                 ∧ (∀ a, is_Some (controllers w !! a) →
                         ∃ k L, loops w !! k = Some L ∧ accountId L = a)).
  { clear Hwf acc.
    assert (H0 : (∀ a, status (getJob a (@mounted P)) = idle
                       ↔ controllers (@mounted P) !! a = None)
                 ∧ (∀ a, is_Some (controllers (@mounted P) !! a) →
                         ∃ k L, loops (@mounted P) !! k = Some L ∧ accountId L = a)).
    { split; intros a; cbn.
      - unfold getJob. cbn. rewrite !lookup_empty. cbn. tauto.
      - rewrite lookup_empty. intros [? ?]. discriminate. }
    pose proof (@wf_mounted P) as Hw0.
    revert Hr H0 Hw0. generalize (@mounted P). revert w.
    induction es as [|e es IH]; intros w w0 Hr H0 Hw0; cbn [run] in Hr.
    - injection Hr as <-. exact H0.
    - destruct (step w0 e) as [w1|] eqn:Hs; [|discriminate]. cbn in Hr.
      eapply IH; [exact Hr| |eapply step_wf; eauto].
      destruct H0 as [Hi Hl]. split; [|eapply step_token_has_loop; eauto].
      intros a. split.
      + intros Hidle. pose proof (step_idle _ _ _ a Hs Hidle) as Hidle0.
        apply Hi in Hidle0.
        destruct (step_controllers _ _ _ Hs) as [Hc|(b & -> & Hc)]; [congruence|].
        destruct (decide (a = b)) as [->|Hne];
          [|rewrite Hc, lookup_insert_ne by auto; exact Hidle0].
        exfalso. cbn [step] in Hs. injection Hs as <-.
        destruct (startJob_cases b w0) as [[m Hm]|[prep Hv]].
        * rewrite Hm in Hc. cbn in Hc.
          apply (f_equal (fun m => m !! b)) in Hc.
          rewrite lookup_insert_eq in Hc. congruence.
        * rewrite (startJob_valid _ _ _ Hv) in Hidle. cbn zeta in Hidle.
          pose proof (iteration_shown (length (loops w0)) (startLoop b prep w0)
                        (startReset b w0)) as (_ & Hsh & _).
          change (accountId (startLoop b prep w0)) with b in Hsh.
          specialize (Hsh Hidle). rewrite getJob_startReset in Hsh. discriminate Hsh.
      + intros Hn. rewrite (step_status_without_token _ _ _ a Hw0 Hs Hn).
        apply Hi. destruct (controllers w0 !! a) eqn:E; [|reflexivity].
        destruct (run_keeps_controller [e] w0 w1 a) as [l Hl']; [|eauto|congruence].
        cbn. now rewrite Hs. }
  destruct Hinv as [Hi Hl]. split; [apply Hi|]. split.
  - intros Hn k L HL Ha. destruct (wf_token _ Hwf k L HL) as [l Hl']. congruence.
  - intros Hno. destruct (controllers w !! acc) eqn:E; [|reflexivity].
    destruct (Hl acc) as (k & L & HL & Ha); [eauto|]. exfalso. eapply Hno; eauto.
Qed.

(** X5: a job record shows [idle] exactly as long as the account has no
    controller, which is exactly as long as no [startJob] for the account
    has passed validation; no code path writes [idle] back. *)
Theorem idle_exactly_until_first_valid_start w acc :
  reachable w →
  (status (getJob acc w) = idle ↔ controllers w !! acc = None)
  ∧ (controllers w !! acc = None ↔
     ∀ k L, loops w !! k = Some L → accountId L ≠ acc).
Proof. apply reachable_started. Qed.

End Started.

Section Requests.
Context {P : Provider} {json : JSON}.
Implicit Types (w : World P) (L : Loop P) (j : JobState P) (acc : string).

(** ** The requests of a loop *)

Ltac sends_leaves :=
  unfold iteration, pauseLoop, delayPhase, countdownHead, countdownPause,
    finishDelay, tryFetch, afterLoop, fetching;
  repeat case_match;
  cbn [fst snd requests with_requests toast updateJobData with_toasts with_jobs
       pc with_pc emails i with_ctrl accountId job prepared] in *;
  rewrite ?app_nil_r; try reflexivity; try congruence.

Lemma iteration_sends k L w :
  requests (snd (iteration k L w)) = requests w ++ fetching k (fst (iteration k L w)).
Proof. sends_leaves. Qed.

Lemma pauseLoop_sends k L w :
  requests (snd (pauseLoop k L w)) = requests w ++ fetching k (fst (pauseLoop k L w)).
Proof. sends_leaves. Qed.

Lemma countdownHead_sends k r L w :
  requests (snd (countdownHead k r L w))
  = requests w ++ fetching k (fst (countdownHead k r L w)).
Proof. sends_leaves. Qed.

Lemma countdownPause_sends k r L w :
  requests (snd (countdownPause r L w))
  = requests w ++ fetching k (fst (countdownPause r L w)).
Proof. sends_leaves. Qed.

(** A continuation of loop [k], after a timer or a reply: the loop keeps
    what [startJob] gave it, stands at the recipient it had reached, and
    has sent at most the request for that recipient. *)
Lemma continue_sends w e w' k :
  step w e = Some w' → (e = Wake k ∨ ∃ o, e = Reply k o) →
  ∃ L L', loops w !! k = Some L ∧ loops w' = <[k := L']> (loops w)
          ∧ accountId L' = accountId L ∧ job L' = job L
          ∧ prepared L' = prepared L ∧ emails L' = emails L
          ∧ pc L ≠ Returned
          ∧ i L' = attempted L
          ∧ requests w' = requests w ++ fetching k L'.
Proof.
  intros Hs [->|[o ->]]; cbn [step] in Hs.
  - unfold wake in Hs. destruct (loops w !! k) as [L|] eqn:HL; [|discriminate].
    cbn in Hs. exists L. unfold attempted.
    destruct (pc L) eqn:Hpc; try discriminate;
      destruct (_ <=? _)%N; try discriminate; injection Hs as <-;
      eexists; (split; [reflexivity|]).
    + destruct (pauseLoop_effect k L w) as [He (?&?&?&?&?)].
      rewrite store_loops, (le_loops _ _ _ He).
      do 7 (split; [first [reflexivity|assumption|discriminate]|]).
      apply pauseLoop_sends.
    + destruct (countdownPause_effect remaining L w) as [He (?&?&?&?&?)].
      rewrite store_loops, (le_loops _ _ _ He).
      do 7 (split; [first [reflexivity|assumption|discriminate]|]).
      apply countdownPause_sends.
    + match goal with |- context [countdownHead k ?r L ?w1] =>
        destruct (countdownHead_effect k r L w1) as [He (?&?&?&?&?)];
        pose proof (countdownHead_sends k r L w1) as Hq end.
      rewrite store_loops, (le_loops _ _ _ He).
      do 7 (split; [first [reflexivity|assumption|discriminate]|]).
      exact Hq.
  - apply reply_inv in Hs as (L & email & w1 & HL & Hpc & Hem & Hr & ->).
    apply recordOutcome_inv in Hr as (j & Hj & ->).
    set (w1 := with_jobs _ w). set (L1 := with_i _ L).
    destruct (iteration_effect k L1 w1) as [He (?&?&?&?&?)].
    exists L, (fst (iteration k L1 w1)).
    rewrite store_loops, (le_loops _ _ _ He). unfold attempted. rewrite Hpc.
    split; [exact HL|]. split; [reflexivity|].
    do 4 (split; [assumption|]). split; [discriminate|].
    split; [assumption|]. exact (iteration_sends k L1 w1).
Qed.

Lemma take_succ_lookup {A} (l : list A) n :
  take (S n) l = take n l ++ match l !! n with Some x => [x] | None => [] end.
Proof.
  revert n. induction l as [|a l IH]; intros [|n]; cbn; try reflexivity.
  now rewrite IH.
Qed.

Lemma sentBy_fetching k w w' L :
  requests w' = requests w ++ fetching k L →
  sentBy k w = take (i L) (planned L) →
  sentBy k w' = take (attempted L) (planned L).
Proof.
  intros Hq Hs. unfold sentBy in *. rewrite Hq, List.filter_app, List.map_app, Hs.
  unfold fetching, attempted.
  destruct (pc L); cbn; rewrite ?app_nil_r; try reflexivity.
  rewrite Nat.add_1_r, take_succ_lookup. unfold planned at 3.
  rewrite list_lookup_fmap. destruct (emails L !! i L); cbn; [|reflexivity].
  now rewrite Nat.eqb_refl.
Qed.

Lemma sentBy_other k k' w w' L :
  requests w' = requests w ++ fetching k' L → k ≠ k' → sentBy k w' = sentBy k w.
Proof.
  intros Hq Hne. apply (sentBy_app k w w' _ Hq). intros kr Hin.
  unfold fetching in Hin. destruct (pc L), (emails L !! i L);
    try (apply elem_of_nil in Hin; destruct Hin).
  apply list_elem_of_singleton in Hin. subst kr. cbn. congruence.
Qed.

Lemma attempted_range w k L :
  wf w → loops w !! k = Some L → i L ≤ length (emails L) →
  attempted L ≤ length (emails L).
Proof.
  intros Hw HL Hi. unfold attempted. destruct (pc L) eqn:Hpc; try exact Hi.
  pose proof (wf_range _ Hw k L HL) as H. rewrite Hpc in H.
  specialize (H ltac:(discriminate)). lia.
Qed.

Lemma accounted_mounted : accounted (@mounted P).
Proof.
  split; cbn; intros *; try rewrite lookup_nil; try discriminate.
  intros H. apply elem_of_nil in H. destruct H.
Qed.

Lemma fetching_index k L kr : kr ∈ fetching k L → fst kr = k.
Proof.
  unfold fetching. intros Hin. destruct (pc L), (emails L !! i L);
    try (apply elem_of_nil in Hin; destruct Hin).
  apply list_elem_of_singleton in Hin. now subst kr.
Qed.

Lemma step_accounted w e w' :
  wf w → accounted w → step w e = Some w' → accounted w'.
Proof.
  intros Hw [Hb Ha Hv Hi] Hs. pose proof (step_wf _ _ _ Hw Hs) as Hw'.
  destruct e as [acc data|acc|acc|acc|acc| |ms|k|k o].
  all: try (apply calm_step in Hs as (Hl & Hq & _); try discriminate;
            split; unfold sentBy; rewrite ?Hl, ?Hq; assumption).
  - (* Start *)
    cbn [step] in Hs. injection Hs as <-.
    destruct (startJob_cases acc w) as [[m ->]|[prep Hval]].
    { split; assumption. }
    rewrite (startJob_valid _ _ _ Hval) in Hw' |- *. cbn zeta in Hw' |- *.
    set (k0 := length (loops w)) in *. set (L0 := startLoop acc prep w) in *.
    set (w0 := startReset acc w) in *.
    destruct (iteration_effect k0 L0 w0) as [He (Hacc & Hjob & Hprep & Hem & Hidx)].
    pose proof (iteration_sends k0 L0 w0) as Hq.
    change (requests w0) with (requests w) in Hq.
    set (r := iteration k0 L0 w0) in *.
    assert (Hnew : (loops w ++ [fst r]) !! k0 = Some (fst r))
      by (subst k0; now rewrite lookup_app_r, Nat.sub_diag by lia).
    assert (Hpl : planned (fst r) = planned L0)
      by (unfold planned; now rewrite Hacc, Hjob, Hprep, Hem).
    assert (H0 : sentBy k0 w = []).
    { unfold sentBy. rewrite filter_index_nil; [reflexivity|].
      intros kr Hin. specialize (Hb kr Hin). subst k0. lia. }
    split; cbn [loops requests with_loops].
    + intros kr Hin. rewrite Hq in Hin. rewrite length_app. cbn.
      apply elem_of_app in Hin as [Hin|Hin]; [specialize (Hb kr Hin); lia|].
      apply fetching_index in Hin. subst k0. lia.
    + intros k L HL. apply lookup_app_Some in HL as [HL|[Hk HL]].
      * assert (k ≠ k0) by (apply lookup_lt_Some in HL; subst k0; lia).
        rewrite <- (Ha k L HL).
        eapply (sentBy_other k k0 w _ (fst r)); [exact Hq|assumption].
      * apply list_lookup_singleton_Some in HL as [Hk0 <-].
        assert (k = k0) as -> by (subst k0; lia).
        eapply (sentBy_fetching k0 w _ (fst r)); [exact Hq|].
        rewrite H0, Hidx. reflexivity.
    + intros k L HL. apply lookup_app_Some in HL as [HL|[Hk HL]]; [eauto|].
      apply list_lookup_singleton_Some in HL as [_ <-].
      rewrite Hjob, Hprep, Hem. destruct Hval as [Hne Hc]. repeat split; assumption.
    + intros k L HL. apply lookup_app_Some in HL as [HL|[Hk HL]]; [eauto|].
      apply list_lookup_singleton_Some in HL as [Hk0 <-].
      assert (k = k0) as -> by (subst k0; lia).
      apply (attempted_range _ k0 _ Hw'); [exact Hnew|]. rewrite Hidx. cbn. lia.
  - (* Wake *)
    destruct (continue_sends w _ w' k Hs (or_introl eq_refl))
      as (L & L' & HL & Hl & Hacc & Hjob & Hprep & Hem & Hlive & Hidx & Hq).
    assert (Hk : k < length (loops w)) by (eapply lookup_lt_Some; eauto).
    assert (Hpl : planned L' = planned L)
      by (unfold planned; now rewrite Hacc, Hjob, Hprep, Hem).
    split; rewrite ?Hl.
    + intros kr Hin. rewrite Hq in Hin. rewrite length_insert.
      apply elem_of_app in Hin as [Hin|Hin]; [auto|].
      apply fetching_index in Hin. lia.
    + intros k1 L1 HL1. destruct (decide (k1 = k)) as [->|Hne].
      * rewrite list_lookup_insert_eq in HL1 by exact Hk. injection HL1 as <-.
        eapply (sentBy_fetching k w _ L'); [exact Hq|].
        rewrite Hidx, Hpl. eauto.
      * rewrite list_lookup_insert_ne in HL1 by auto.
        rewrite <- (Ha k1 L1 HL1).
        eapply (sentBy_other k1 k w _ L'); [exact Hq|assumption].
    + intros k1 L1 HL1. destruct (decide (k1 = k)) as [->|Hne].
      * rewrite list_lookup_insert_eq in HL1 by exact Hk. injection HL1 as <-.
        rewrite Hjob, Hprep, Hem. eauto.
      * rewrite list_lookup_insert_ne in HL1 by auto. eauto.
    + intros k1 L1 HL1. destruct (decide (k1 = k)) as [->|Hne].
      * rewrite list_lookup_insert_eq in HL1 by exact Hk. injection HL1 as <-.
        apply (attempted_range w' k L' Hw').
        { rewrite Hl. now rewrite list_lookup_insert_eq. }
        rewrite Hidx, Hem. eauto.
      * rewrite list_lookup_insert_ne in HL1 by auto. eauto.
  - (* Reply *)
    destruct (continue_sends w _ w' k Hs (or_intror (ex_intro _ o eq_refl)))
      as (L & L' & HL & Hl & Hacc & Hjob & Hprep & Hem & Hlive & Hidx & Hq).
    assert (Hk : k < length (loops w)) by (eapply lookup_lt_Some; eauto).
    assert (Hpl : planned L' = planned L)
      by (unfold planned; now rewrite Hacc, Hjob, Hprep, Hem).
    split; rewrite ?Hl.
    + intros kr Hin. rewrite Hq in Hin. rewrite length_insert.
      apply elem_of_app in Hin as [Hin|Hin]; [auto|].
      apply fetching_index in Hin. lia.
    + intros k1 L1 HL1. destruct (decide (k1 = k)) as [->|Hne].
      * rewrite list_lookup_insert_eq in HL1 by exact Hk. injection HL1 as <-.
        eapply (sentBy_fetching k w _ L'); [exact Hq|].
        rewrite Hidx, Hpl. eauto.
      * rewrite list_lookup_insert_ne in HL1 by auto.
        rewrite <- (Ha k1 L1 HL1).
        eapply (sentBy_other k1 k w _ L'); [exact Hq|assumption].
    + intros k1 L1 HL1. destruct (decide (k1 = k)) as [->|Hne].
      * rewrite list_lookup_insert_eq in HL1 by exact Hk. injection HL1 as <-.
        rewrite Hjob, Hprep, Hem. eauto.
      * rewrite list_lookup_insert_ne in HL1 by auto. eauto.
    + intros k1 L1 HL1. destruct (decide (k1 = k)) as [->|Hne].
      * rewrite list_lookup_insert_eq in HL1 by exact Hk. injection HL1 as <-.
        apply (attempted_range w' k L' Hw').
        { rewrite Hl. now rewrite list_lookup_insert_eq. }
        rewrite Hidx, Hem. eauto.
      * rewrite list_lookup_insert_ne in HL1 by auto. eauto.
Qed.

Lemma reachable_accounted w : reachable w → accounted w.
Proof.
  intros [es Hr]. pose proof accounted_mounted as H0. pose proof (@wf_mounted P) as Hw0.
  revert Hr H0 Hw0. generalize (@mounted P). revert w.
  induction es as [|e es IH]; intros w w0 Hr H0 Hw0; cbn [run] in Hr.
  - now injection Hr as <-.
  - destruct (step w0 e) as [w1|] eqn:Hs; [|discriminate]. cbn in Hr.
    eapply IH; [exact Hr|eapply step_accounted; eauto|eapply step_wf; eauto].
Qed.

(** X6: a loop sends one request for each recipient it reaches, in the
    order of its list and never a second time: the requests loop [k] has
    sent so far are those for the first recipients of its list, up to and
    including the one whose [fetch] it awaits; the payload of every one of
    them is the one of the record at the start, whatever is edited later;
    and no loop sends more requests than its list has recipients. *)
Theorem loop_sends_each_recipient_once_in_order w k L :
  reachable w → loops w !! k = Some L →
  sentBy k w = take (attempted L) (planned L)
  ∧ attempted L ≤ length (emails L)
  ∧ length (sentBy k w) = attempted L.
Proof.
  intros Hr HL. destruct (reachable_accounted w Hr) as [_ Ha _ Hi].
  specialize (Ha k L HL). specialize (Hi k L HL).
  split; [exact Ha|]. split; [exact Hi|].
  rewrite Ha, length_take. unfold planned. rewrite length_map. lia.
Qed.

End Requests.

Section Logs.
Context {P : Provider} {json : JSON}.
Implicit Types (w : World P) (L : Loop P) (j : JobState P) (acc : string).

(** ** The result log of runs that do not overlap *)

Lemma ledger_mounted : ledger (@mounted P).
Proof.
  split; intros k L; [|intros [H _]]; cbn in *; rewrite lookup_nil in *; discriminate.
Qed.

Lemma logged_kept L j j' :
  progress j' = progress j → results j' = results j → logged L j → logged L j'.
Proof. unfold logged. now intros -> ->. Qed.

(** A continuation of loop [k] leaves the accounts of all loops. *)
Lemma latest_continued w w' k L L' k1 L1 :
  loops w !! k = Some L → loops w' = <[k := L']> (loops w) →
  accountId L' = accountId L →
  latest k1 L1 w' →
  (k1 = k ∧ L1 = L' ∧ latest k L w) ∨ (k1 ≠ k ∧ latest k1 L1 w).
Proof.
  intros HL Hl Hacc [H1 H2]. rewrite Hl in H1, H2.
  assert (Hk : k < length (loops w)) by (eapply lookup_lt_Some; eauto).
  assert (Hacc' : ∀ k' L0, loops w !! k' = Some L0 →
            ∃ L0', <[k := L']> (loops w) !! k' = Some L0' ∧ accountId L0' = accountId L0).
  { intros k' L0 H0. destruct (decide (k' = k)) as [->|Hne].
    - rewrite list_lookup_insert_eq by exact Hk. exists L'. split; congruence.
    - rewrite list_lookup_insert_ne by auto. eauto. }
  destruct (decide (k1 = k)) as [->|Hne].
  - rewrite list_lookup_insert_eq in H1 by exact Hk. injection H1 as <-.
    left. split; [reflexivity|]. split; [reflexivity|]. split; [exact HL|].
    intros k' L0 Hlt H0. destruct (Hacc' k' L0 H0) as (L0' & H0' & <-).
    rewrite <- Hacc. eauto.
  - rewrite list_lookup_insert_ne in H1 by auto.
    right. split; [exact Hne|]. split; [exact H1|].
    intros k' L0 Hlt H0. destruct (Hacc' k' L0 H0) as (L0' & H0' & <-). eauto.
Qed.

Lemma continued_latest w w' k L L' k1 L1 :
  loops w !! k = Some L → loops w' = <[k := L']> (loops w) →
  accountId L' = accountId L →
  latest k1 L1 w →
  latest k1 (if decide (k1 = k) then L' else L1) w'.
Proof.
  intros HL Hl Hacc [H1 H2].
  assert (Hk : k < length (loops w)) by (eapply lookup_lt_Some; eauto).
  assert (Hback : ∀ k' L0', <[k := L']> (loops w) !! k' = Some L0' →
            ∃ L0, loops w !! k' = Some L0 ∧ accountId L0' = accountId L0).
  { intros k' L0' H0. destruct (decide (k' = k)) as [->|Hne].
    - rewrite list_lookup_insert_eq in H0 by exact Hk. injection H0 as <-. eauto.
    - rewrite list_lookup_insert_ne in H0 by auto. eauto. }
  split; rewrite Hl.
  - destruct (decide (k1 = k)) as [->|Hne].
    + now rewrite list_lookup_insert_eq.
    + now rewrite list_lookup_insert_ne.
  - intros k' L0' Hlt H0. destruct (Hback k' L0' H0) as (L0 & H0' & ->).
    destruct (decide (k1 = k)) as [->|Hne].
    + rewrite Hacc. assert (L1 = L) by congruence. subst. eauto.
    + eauto.
Qed.

Lemma latest_unique w k1 k2 L1 L2 :
  latest k1 L1 w → latest k2 L2 w → accountId L1 = accountId L2 → k1 = k2.
Proof.
  intros [H1 H1'] [H2 H2'] Ha.
  destruct (Nat.lt_trichotomy k1 k2) as [Hlt|[Heq|Hlt]]; [|exact Heq|].
  - exfalso. eapply H1'; eauto.
  - exfalso. eapply H2'; eauto.
Qed.

Lemma reverse_take_succ {A} (l : list A) n x :
  l !! n = Some x → reverse (take (n + 1) l) = x :: reverse (take n l).
Proof.
  intros H. rewrite Nat.add_1_r, (take_S_r _ _ _ H), reverse_app. reflexivity.
Qed.

Lemma reverse_seq_succ n : reverse (seq 1 (n + 1)) = (n + 1) :: reverse (seq 1 n).
Proof.
  rewrite Nat.add_1_r, seq_S, reverse_app. reflexivity.
Qed.

Lemma step_ledger w e w' :
  wf w → solo w → ledger w →
  (∀ acc, e = Start acc → settled acc w = true) →
  step w e = Some w' → ledger w'.
Proof.
  intros Hw Hso [Hlat Hlog] Hex Hs.
  destruct e as [acc data|acc|acc|acc|acc| |ms|k|k o].
  all: try (apply calm_step in Hs as (Hl & _ & Hk); try discriminate;
            split;
            [ intros k L HL Hp; unfold latest; rewrite Hl; rewrite Hl in HL;
              exact (Hlat k L HL Hp)
            | intros k L Hla; unfold latest in Hla; rewrite Hl in Hla;
              destruct (Hk (accountId L)) as [(Hp & Hr & _) _];
              exact (logged_kept L _ _ Hp Hr (Hlog k L Hla)) ];
            fail).
  - (* Start *)
    cbn [step] in Hs. injection Hs as <-.
    destruct (startJob_cases acc w) as [[m ->]|[prep Hv]].
    { split; assumption. }
    destruct (startJob_first_fetch acc prep w Hv) as (email & He & ->).
    specialize (Hex acc eq_refl). rewrite settled_spec in Hex.
    set (L0 := with_pc AwaitFetch _).
    set (w' := with_loops _ _).
    assert (Hl : loops w' = loops w ++ [L0]) by reflexivity.
    assert (Hget : ∀ a, a ≠ acc → getJob a w' = getJob a w).
    { intros a Ha. apply getJob_ext. subst w'. cbn. now rewrite lookup_insert_ne. }
    assert (Hacc : getJob acc w'
             = spread (getJob acc w)
                 [F_status processing; F_results [];
                  F_stats {| success := 0; fail := 0 |};
                  F_progress {| current := 0;
                      total := length (parseEmails (emailList (getJob acc w))) |};
                  F_elapsedSeconds 0; F_countdown 0]).
    { unfold getJob. subst w'. cbn. now rewrite lookup_insert_eq. }
    assert (Hold : ∀ k L, latest k L w' → k < length (loops w) →
                          latest k L w ∧ accountId L ≠ acc).
    { intros k L [H1 H2] Hk. rewrite Hl in H1, H2.
      rewrite lookup_app_l in H1 by exact Hk. split; [split; [exact H1|]|].
      - intros k' L' Hlt H'. apply (H2 k' L' Hlt).
        rewrite lookup_app_l; [exact H'|]. eapply lookup_lt_Some; eauto.
      - intros Ha. apply (H2 (length (loops w)) L0 Hk); [|now rewrite Ha].
        now rewrite lookup_app_r, Nat.sub_diag by lia. }
    split.
    + intros k L HL Hp. rewrite Hl in HL. unfold latest. rewrite Hl.
      apply lookup_app_Some in HL as [HL|[Hk HL]].
      * destruct (Hlat k L HL Hp) as [_ H2].
        split; [rewrite lookup_app_l; [exact HL|eapply lookup_lt_Some; eauto]|].
        intros k' L' Hlt H'. apply lookup_app_Some in H' as [H'|[_ H']]; [eauto|].
        apply list_lookup_singleton_Some in H' as [_ <-].
        change (accountId L0) with acc. intros Ha. apply Hp. eapply Hex; eauto.
      * apply list_lookup_singleton_Some in HL as [Hk0 <-].
        split; [rewrite lookup_app_r by lia; now rewrite Hk0|].
        intros k' L' Hlt H'. apply lookup_lt_Some in H'.
        rewrite length_app in H'. cbn in H'. lia.
    + intros k L Hla.
      destruct (Nat.lt_ge_cases k (length (loops w))) as [Hk|Hk].
      * destruct (Hold k L Hla Hk) as [Hla0 Hne].
        rewrite Hget by exact Hne. exact (Hlog k L Hla0).
      * destruct Hla as [H1 _]. rewrite Hl in H1.
        rewrite lookup_app_r in H1 by exact Hk.
        apply list_lookup_singleton_Some in H1 as [_ <-].
        change (accountId L0) with acc. rewrite Hacc.
        unfold logged. cbn. repeat split; lia.
  - (* Wake *)
    destruct (continue_sends w _ w' k Hs (or_introl eq_refl))
      as (L & L' & HL & Hl & Hacc & _ & _ & Hem & Hlive & _ & _).
    assert (Hrec : ∀ a, progress (getJob a w') = progress (getJob a w)
                        ∧ results (getJob a w') = results (getJob a w)).
    { intros a. destruct (step_record w _ w' a Hs)
        as [Hu|[(? & ? & _)|[(? & ? & _)|[[? _]|(? & ? & ? & ? & ? & _)]]]];
        try discriminate.
      destruct Hu as (_&_&_&->&->&_). auto. }
    split.
    + intros k1 L1 HL1 Hp. rewrite Hl in HL1.
      assert (Hk : k < length (loops w)) by (eapply lookup_lt_Some; eauto).
      destruct (decide (k1 = k)) as [->|Hne].
      * rewrite list_lookup_insert_eq in HL1 by exact Hk. injection HL1 as <-.
        pose proof (continued_latest w w' k L L' k L HL Hl Hacc (Hlat k L HL Hlive)) as H.
        now rewrite decide_True in H.
      * rewrite list_lookup_insert_ne in HL1 by auto.
        pose proof (continued_latest w w' k L L' k1 L1 HL Hl Hacc (Hlat k1 L1 HL1 Hp)) as H.
        now rewrite decide_False in H.
    + intros k1 L1 Hla.
      destruct (Hrec (accountId L1)) as [Hp Hr].
      destruct (latest_continued w w' k L L' k1 L1 HL Hl Hacc Hla)
        as [(-> & -> & Hla0)|(Hne & Hla0)].
      * rewrite Hacc in *. apply (logged_kept L' _ _ Hp Hr).
        unfold logged. rewrite Hem. exact (Hlog k L Hla0).
      * exact (logged_kept L1 _ _ Hp Hr (Hlog k1 L1 Hla0)).
  - (* Reply *)
    destruct (continue_sends w _ w' k Hs (or_intror (ex_intro _ o eq_refl)))
      as (L & L' & HL & Hl & Hacc & _ & _ & Hem & Hlive & Hidx & _).
    cbn [step] in Hs.
    pose proof Hs as Hs'.
    apply reply_inv in Hs' as (L0 & email & w1 & HL0 & Hpc & Hmail & _ & _).
    assert (L0 = L) by congruence. subst L0.
    destruct (wf_job _ Hw k L HL) as [j Hj].
    destruct (reply_recorded k o w L email j HL Hpc Hmail Hj)
      as (w1' & w'' & j' & _ & Hrep & _ & Hj' & Hres & _ & Hprog & _).
    assert (w'' = w') by congruence. subst w''.
    pose proof (Hlat k L HL Hlive) as Hla0.
    pose proof (Hlog k L Hla0) as (Hm & Hid & Htot & Hle).
    pose proof (solo_index _ Hso k L HL Hlive) as Hcur.
    rewrite (getJob_lookup _ _ _ Hj) in Hm, Hid, Htot, Hle, Hcur.
    assert (Hnew : logged L' (getJob (accountId L) w')).
    { rewrite (getJob_lookup _ _ _ Hj'). unfold logged.
      rewrite Hres, Hprog, Hem. cbn [current total List.map].
      rewrite (reverse_take_succ _ _ _ Hmail), reverse_seq_succ, Hm, Hid, Hcur, Htot.
      apply lookup_lt_Some in Hmail.
      repeat split; try lia; f_equal; destruct o; reflexivity. }
    split.
    + intros k1 L1 HL1 Hp. rewrite Hl in HL1.
      assert (Hk : k < length (loops w)) by (eapply lookup_lt_Some; eauto).
      destruct (decide (k1 = k)) as [->|Hne].
      * rewrite list_lookup_insert_eq in HL1 by exact Hk. injection HL1 as <-.
        pose proof (continued_latest w w' k L L' k L HL Hl Hacc Hla0) as H.
        now rewrite decide_True in H.
      * rewrite list_lookup_insert_ne in HL1 by auto.
        pose proof (continued_latest w w' k L L' k1 L1 HL Hl Hacc (Hlat k1 L1 HL1 Hp)) as H.
        now rewrite decide_False in H.
    + intros k1 L1 Hla.
      destruct (latest_continued w w' k L L' k1 L1 HL Hl Hacc Hla)
        as [(-> & -> & _)|(Hne & Hla1)].
      * rewrite Hacc. exact Hnew.
      * assert (Hother : accountId L1 ≠ accountId L).
        { intros Ha. apply Hne. eapply latest_unique; eauto. }
        rewrite (getJob_ext (accountId L1) w w').
        { exact (Hlog k1 L1 Hla1). }
        apply (step_other_record w (Reply k o) w'); [exact Hs| |reflexivity].
        cbn. rewrite HL. cbn. congruence.
Qed.

Lemma run_ledger es w w' :
  wf w → solo w → ledger w → exclusive es w = true → run es w = Some w' → ledger w'.
Proof.
  revert w. induction es as [|e es IH]; intros w Hw Hso Hlg Hex; cbn [run].
  - now intros [= <-].
  - cbn [exclusive] in Hex. apply andb_prop in Hex as [He Hex].
    destruct (step w e) as [w1|] eqn:Hs; [|discriminate]. cbn.
    assert (Hst : ∀ acc, e = Start acc → settled acc w = true) by (intros acc ->; exact He).
    apply IH; [eapply step_wf; eauto|eapply step_solo; eauto| |exact Hex].
    eapply step_ledger; eauto.
Qed.

(** X7: as long as the runs of an account do not overlap, the results of
    its record are the log of its most recent run: they carry the first
    [progress.current] recipients of that run's list, the most recent
    first, with the ids [progress.current], ..., 2, 1 -- so no id occurs
    twice --, [progress.total] is the number of recipients of the run, and
    [progress.current] never exceeds it. *)
Theorem results_log_the_latest_run es w k L :
  exclusive es mounted = true → run es mounted = Some w →
  latest k L w →
  let j := getJob (accountId L) w in
  List.map SendResult.email (results j)
  = reverse (take (current (progress j)) (emails L))
  ∧ List.map SendResult.id (results j) = reverse (seq 1 (current (progress j)))
  ∧ NoDup (List.map SendResult.id (results j))
  ∧ total (progress j) = length (emails L)
  ∧ current (progress j) ≤ total (progress j).
Proof.
  intros Hex Hr Hla.
  pose proof (run_ledger es mounted w wf_mounted solo_mounted ledger_mounted Hex Hr)
    as [_ Hlog].
  destruct (Hlog k L Hla) as (Hm & Hid & Htot & Hle). cbn zeta.
  split; [exact Hm|]. split; [exact Hid|]. split; [|split; assumption].
  rewrite Hid, reverse_Permutation. apply NoDup_seq.
Qed.

End Logs.

Section Completed.
Context {P : Provider} {json : JSON}.
Implicit Types (w : World P) (L : Loop P) (j : JobState P) (acc : string).

(** ** The status [completed] *)

Ltac completed_leaves Hc :=
  unfold iteration, pauseLoop, delayPhase, countdownHead, countdownPause,
    finishDelay, tryFetch, afterLoop;
  rewrite ?flag_updateJobData, ?flag_toast, ?controllers_updateJobData,
    ?controllers_toast;
  cbn [ctrl with_ctrl accountId];
  rewrite <- ?Hc;
  repeat case_match; cbn [fst snd];
  rewrite ?getJob_toast, ?getJob_with_requests, ?getJob_updateJobData;
  cbn [spread fold_left assign status];
  repeat match goal with
         | H : context [flag _ _ (updateJobData _ _ _)] |- _ =>
             rewrite flag_updateJobData in H
         | H : context [flag _ _ (toast _ _ _)] |- _ => rewrite flag_toast in H
         | H : context [controllers (updateJobData _ _ _)] |- _ =>
             rewrite controllers_updateJobData in H
         | H : context [controllers (toast _ _ _)] |- _ =>
             rewrite controllers_toast in H
         | H : context [controllers ?w !! accountId ?L] |- _ =>
             lazymatch type of Hc with
             | ctrl L = controllers w !! accountId L =>
                 lazymatch H with Hc => fail | _ => rewrite <- Hc in H end
             end
         end;
  try congruence; try discriminate; auto.

Lemma pauseLoop_completed k L w :
  ctrl L = controllers w !! accountId L →
  status (getJob (accountId L) (snd (pauseLoop k L w))) = completed →
  status (getJob (accountId L) w) = completed.
Proof. intros Hc. completed_leaves Hc. Qed.

Lemma countdownPause_completed r L w :
  status (getJob (accountId L) (snd (countdownPause r L w))) = completed →
  status (getJob (accountId L) w) = completed.
Proof. unfold countdownPause. case_match; auto. Qed.

Lemma countdownHead_completed k r L w :
  ctrl L = controllers w !! accountId L →
  status (getJob (accountId L) (snd (countdownHead k r L w))) = completed →
  status (getJob (accountId L) w) = completed.
Proof. intros Hc. completed_leaves Hc. Qed.

Lemma iteration_completed k L w :
  status (getJob (accountId L) (snd (iteration k L w))) = completed →
  status (getJob (accountId L) w) = completed ∨ length (emails L) ≤ i L.
Proof.
  unfold iteration. destruct (Nat.ltb_spec (i L) (length (emails L))) as [Hlt|Hge];
    [|auto].
  intros H. left. revert H.
  set (L1 := with_ctrl _ L).
  assert (Hc : ctrl L1 = controllers w !! accountId L1) by reflexivity.
  change (accountId L) with (accountId L1).
  destruct (flag isStopped (ctrl L1) w) eqn:Hs.
  - unfold afterLoop. rewrite controllers_updateJobData, flag_updateJobData, <- Hc, Hs.
    cbn [snd]. rewrite getJob_updateJobData. discriminate.
  - apply pauseLoop_completed. exact Hc.
Qed.

Lemma wake_completed k w w' L :
  wake k w = Some w' → loops w !! k = Some L →
  ctrl L = controllers w !! accountId L →
  status (getJob (accountId L) w') = completed →
  status (getJob (accountId L) w) = completed.
Proof.
  unfold wake. intros H HL Hc. rewrite HL in H. cbn in H.
  destruct (pc L) eqn:Hpc; try discriminate;
    destruct (_ <=? _)%N; try discriminate; injection H as <-;
    rewrite getJob_store.
  - now apply pauseLoop_completed.
  - apply countdownPause_completed.
  - intros H. apply countdownHead_completed in H; [|exact Hc].
    now rewrite getJob_updateJobData in H.
Qed.

Lemma step_finished w e w' :
  wf w → solo w → ledger w → finished w →
  (∀ acc, e = Start acc → settled acc w = true) →
  step w e = Some w' → finished w'.
Proof.
  intros Hw Hso [Hlat Hlog] Hfin Hex Hs a Hst.
  destruct (decide (concerns w e = Some a)) as [Hsub|Hsub]; cycle 1.
  { destruct (isTick e) eqn:Ht.
    - destruct e; try discriminate. injection Hs as <-.
      rewrite getJob_tick in Hst |- *.
      destruct (tickJob_kept (getJob a w)) as ((-> & _) & Hst').
      rewrite Hst' in Hst. auto.
    - rewrite (getJob_ext a w w' (step_other_record _ _ _ a Hs Hsub Ht)) in Hst |- *.
      auto. }
  destruct e as [acc data|acc|acc|acc|acc| |ms|k|k o]; cbn [concerns] in Hsub;
    try discriminate.
  1,3,4,5: (injection Hsub as ->;
            eapply calm_step in Hs as (_ & _ & Hk); try discriminate;
            destruct (Hk a) as [(-> & _) [Hst'|[[_ H]|[[_ H]|[_ H]]]]];
            [rewrite Hst' in Hst; auto|congruence..]).
  all: cbn [step] in Hs.
  - injection Hsub as ->. injection Hs as <-.
    destruct (startJob_cases a w) as [[m Hm]|[prep Hv]].
    { rewrite Hm, getJob_toast in Hst |- *. auto. }
    exfalso. destruct (startJob_first_fetch a prep w Hv) as (email & _ & E).
    rewrite E in Hst. unfold getJob in Hst. cbn in Hst.
    rewrite lookup_insert_eq in Hst. discriminate Hst.
  - destruct (loops w !! k) as [L|] eqn:HL; [|discriminate]. injection Hsub as <-.
    assert (Hlive : pc L ≠ Returned).
    { apply wake_inv in Hs as (L0 & _ & HL0 & _ & _ & _ & _ & Hp & _). congruence. }
    pose proof (solo_token _ Hso k L HL Hlive) as Hc.
    pose proof (wake_completed k w w' L Hs HL Hc Hst) as Hst0.
    destruct (step_record w (Wake k) w' (accountId L) Hs)
      as [Hu|[(? & ? & _)|[(? & ? & _)|[[? _]|(? & ? & ? & ? & ? & _)]]]];
      try discriminate.
    destruct Hu as (_&_&_&->&_). auto.
  - destruct (loops w !! k) as [L|] eqn:HL; [|discriminate]. injection Hsub as <-.
    pose proof Hs as Hs'.
    apply reply_inv in Hs' as (L0 & email & w1 & HL0 & Hpc & Hmail & Hrec & Hw').
    assert (L0 = L) by congruence. subst L0.
    assert (Hlive : pc L ≠ Returned) by (rewrite Hpc; discriminate).
    destruct (wf_job _ Hw k L HL) as [j Hj].
    destruct (reply_recorded k o w L email j HL Hpc Hmail Hj)
      as (w1' & w'' & j' & Hrec' & Hrep & _ & Hj' & _ & _ & Hprog & _).
    assert (w'' = w') by congruence. subst w''.
    assert (w1' = w1) by congruence. subst w1'.
    rewrite (getJob_lookup _ _ _ Hj'), Hprog. cbn [current total].
    pose proof (Hlog k L (Hlat k L HL Hlive)) as (_ & _ & Htot & _).
    rewrite (getJob_lookup _ _ _ Hj) in Htot.
    rewrite Hw', getJob_store in Hst.
    apply (iteration_completed k (with_i (i L + 1) L) w1) in Hst as [Hst|Hge].
    + exfalso. apply Hlive. eapply solo_completed; eauto.
      apply recordOutcome_inv in Hrec as (j0 & Hj0 & ->).
      pose proof (recorded_getJob (accountId L) (outcomeResult (i L + 1) email o)
                    w j0 (accountId L) Hj0) as [E _].
      cbn zeta in E. rewrite <- E. exact Hst.
    + cbn in Hge. apply lookup_lt_Some in Hmail. lia.
Qed.

Lemma finished_mounted : finished (@mounted P).
Proof. intros acc. unfold getJob. cbn. rewrite lookup_empty. discriminate. Qed.

(** X8: as long as the runs of an account do not overlap, a record that
    shows [completed] has a result for every recipient:
    [progress.current], the number of results and
    [stats.success + stats.fail] all equal [progress.total], and no loop
    of the account is still running. *)
Theorem completed_means_every_recipient_is_done es w acc :
  exclusive es mounted = true → run es mounted = Some w →
  status (getJob acc w) = completed →
  current (progress (getJob acc w)) = total (progress (getJob acc w))
  ∧ length (results (getJob acc w)) = total (progress (getJob acc w))
  ∧ success (stats (getJob acc w)) + fail (stats (getJob acc w))
    = total (progress (getJob acc w))
  ∧ ∀ k L, loops w !! k = Some L → accountId L = acc → pc L = Returned.
Proof.
  intros Hex Hr Hst.
  assert (Hall : wf w ∧ solo w ∧ ledger w ∧ finished w).
  { pose proof (@wf_mounted P) as H1. pose proof (@solo_mounted P) as H2.
    pose proof (ledger_mounted (P := P)) as H3. pose proof finished_mounted as H4.
    clear Hst. revert Hex Hr H1 H2 H3 H4. generalize (@mounted P). revert w.
    induction es as [|e es IH]; intros w w0 Hex Hr H1 H2 H3 H4; cbn [run] in Hr.
    - injection Hr as <-. auto.
    - cbn [exclusive] in Hex. apply andb_prop in Hex as [He Hex].
      destruct (step w0 e) as [w1|] eqn:Hs; [|discriminate]. cbn in Hr.
      assert (Hst : ∀ acc, e = Start acc → settled acc w0 = true)
        by (intros a ->; exact He).
      eapply (IH w w1 Hex Hr);
        eauto using step_wf, step_solo, step_ledger, step_finished. }
  destruct Hall as (_ & Hso & _ & Hfin).
  pose proof (solo_agree _ Hso acc) as [Ha1 Ha2].
  pose proof (Hfin acc Hst) as Hc.
  split; [exact Hc|]. split; [congruence|]. split; [congruence|].
  intros k L HL <-. eapply solo_completed; eauto.
Qed.

End Completed.

Section Controllers.
Context {P : Provider} {json : JSON}.
Implicit Types (w : World P) (L : Loop P) (j : JobState P) (acc : string).

(** ** A stop lasts until the next start *)

Lemma stopJob_flags acc l w :
  controllers w !! acc = Some l → l < length (heap w) →
  heap (stopJob acc w) !! l = Some {| isPaused := false; isStopped := true |}.
Proof.
  intros Hc Hl. unfold stopJob, hasController. rewrite Hc.
  cbn [heap updateJobData with_jobs]. unfold mutate at 1.
  destruct (mutate_shape acc (fun c => {| isPaused := isPaused c; isStopped := true |}) w)
    as (Hlen & _ & _ & Hc1 & _).
  rewrite Hc1, Hc.
  assert (H1 : ∃ c, heap (mutate acc
             (fun c => {| isPaused := isPaused c; isStopped := true |}) w) !! l
             = Some {| isPaused := isPaused c; isStopped := true |}).
  { unfold mutate. rewrite Hc. destruct (lookup_lt_is_Some_2 (heap w) l Hl) as [c Hl'].
    rewrite Hl'. cbn. exists c. apply list_lookup_insert_eq. exact Hl. }
  destruct H1 as [c H1]. rewrite H1. cbn.
  apply list_lookup_insert_eq. now rewrite Hlen.
Qed.

(** X9: once [stopJob] has found the controller of an account, that
    controller stays stopped whatever is called afterwards -- [pauseJob]
    and [resumeJob] included, which do not clear [isStopped] -- and it
    stays the account's controller until a [startJob] for the account
    passes validation. *)
Theorem stop_lasts_until_the_next_start acc l es w w' :
  reachable w → controllers w !! acc = Some l →
  run es (stopJob acc w) = Some w' →
  flag isStopped (Some l) (stopJob acc w) = true
  ∧ flag isPaused (Some l) (stopJob acc w) = false
  ∧ flag isStopped (Some l) w' = true
  ∧ (Start acc ∉ es → flag isStopped (controllers w' !! acc) w' = true).
Proof.
  intros Hreach Hc Hr. pose proof (reachable_wf w Hreach) as Hw.
  pose proof (stopJob_flags acc l w Hc (wf_controllers _ Hw acc l Hc)) as Hh.
  assert (Hs : flag isStopped (Some l) (stopJob acc w) = true)
    by (unfold flag; now rewrite Hh).
  assert (Hl : flag isStopped (Some l) w' = true).
  { clear Hh. revert Hr Hs. generalize (stopJob acc w). clear.
    induction es as [|e es IH]; intros w0 Hr Hs; cbn [run] in Hr.
    - now injection Hr as <-.
    - destruct (step w0 e) as [w1|] eqn:Hst; [|discriminate]. cbn in Hr.
      eapply IH; [exact Hr|]. eapply flag_step; eauto. }
  split; [exact Hs|]. split; [unfold flag; now rewrite Hh|]. split; [exact Hl|].
  intros Hno. rewrite (run_without_start es _ w' acc Hr Hno).
  destruct (control_shape acc w (stopJob acc w)) as (_&_&->&_); auto.
  now rewrite Hc.
Qed.

(** ** Accounts do not interfere *)

Lemma owned_mounted : owned (@mounted P).
Proof.
  split; cbn; intros *; try rewrite lookup_empty; try rewrite lookup_nil; discriminate.
Qed.

Lemma step_owned w e w' : wf w → owned w → step w e = Some w' → owned w'.
Proof.
  intros Hw [Ht Hc] Hs.
  destruct e as [acc data|acc|acc|acc|acc| |ms|k|k o].
  all: try (pose proof (step_controllers _ _ _ Hs) as [Hctl|(? & ? & _)];
            [|discriminate];
            apply calm_step in Hs as (Hl & _ & _); try discriminate;
            split; rewrite ?Hl, ?Hctl; assumption).
  - (* Start *)
    cbn [step] in Hs. injection Hs as <-.
    destruct (startJob_cases acc w) as [[m ->]|[prep Hv]].
    { split; assumption. }
    destruct (startJob_first_fetch acc prep w Hv) as (email & _ & ->).
    set (n := length (heap w)).
    assert (Hfresh : ∀ b, controllers w !! b ≠ Some n).
    { intros b Hb. apply (wf_controllers _ Hw) in Hb. subst n. lia. }
    split; cbn [controllers loops with_loops with_requests startReset toast
                updateJobData with_toasts with_jobs with_controllers with_heap].
    + intros a b l Ha Hb.
      destruct (decide (a = acc)) as [->|Hna]; destruct (decide (b = acc)) as [->|Hnb];
        try reflexivity.
      * rewrite lookup_insert_eq in Ha. rewrite lookup_insert_ne in Hb by auto.
        injection Ha as <-. exfalso. exact (Hfresh b Hb).
      * rewrite lookup_insert_eq in Hb. rewrite lookup_insert_ne in Ha by auto.
        injection Hb as <-. exfalso. exact (Hfresh a Ha).
      * rewrite lookup_insert_ne in Ha, Hb by auto. eauto.
    + intros k L b l HL Hl Hb.
      apply lookup_app_Some in HL as [HL|[_ HL]].
      * destruct (decide (b = acc)) as [->|Hnb].
        { rewrite lookup_insert_eq in Hb. injection Hb as <-.
          apply (wf_ctrl _ Hw k L) in Hl; [|exact HL]. subst n. lia. }
        rewrite lookup_insert_ne in Hb by auto. eauto.
      * apply list_lookup_singleton_Some in HL as [_ <-].
        cbn in Hl. injection Hl as <-.
        destruct (decide (b = acc)) as [->|Hnb]; [reflexivity|].
        rewrite lookup_insert_ne in Hb by auto. exfalso. exact (Hfresh b Hb).
  - (* Wake *)
    cbn [step] in Hs. pose proof (step_controllers w (Wake k) w' Hs) as Hctl.
    destruct Hctl as [Hctl|(? & ? & _)]; [|discriminate].
    apply wake_inv in Hs as (L & r & HL & -> & He & (Hacc & _) & Hcr & _).
    split; rewrite Hctl; [exact Ht|].
    intros k1 L1 b l HL1 Hl Hb.
    assert (HL' : loops (snd r) !! k = Some L) by now rewrite (le_loops _ _ _ He).
    destruct (lookup_store _ _ _ _ _ HL' HL1) as [[-> ->]|[Hne HL1']].
    + rewrite Hacc. rewrite Hcr in Hl. eauto.
    + rewrite (le_loops _ _ _ He) in HL1'. eauto.
  - (* Reply *)
    cbn [step] in Hs. pose proof (step_controllers w (Reply k o) w' Hs) as Hctl.
    destruct Hctl as [Hctl|(? & ? & _)]; [|discriminate].
    apply reply_inv in Hs as (L & email & w1 & HL & Hpc & Hem & Hr & ->).
    apply recordOutcome_inv in Hr as (j & Hj & ->).
    set (w1 := with_jobs _ w) in *. set (L1 := with_i _ L) in *.
    destruct (iteration_effect k L1 w1) as [He (Hacc & _)].
    change (accountId L1) with (accountId L) in *.
    split; rewrite Hctl; [exact Ht|].
    intros k1 L0 b l HL0 Hl Hb.
    assert (HL' : loops (snd (iteration k L1 w1)) !! k = Some L)
      by now rewrite (le_loops _ _ _ He).
    destruct (lookup_store _ _ _ _ _ HL' HL0) as [[-> ->]|[Hne HL0']].
    + rewrite Hacc. rewrite iteration_ctrl in Hl.
      change (controllers w1) with (controllers w) in Hl.
      change (accountId L1) with (accountId L) in Hl.
      change (ctrl L1) with (ctrl L) in Hl.
      destruct (_ <? _); eauto.
    + rewrite (le_loops _ _ _ He) in HL0'. eauto.
Qed.

Lemma reachable_owned w : reachable w → owned w.
Proof.
  intros [es Hr]. pose proof owned_mounted as H0. pose proof (@wf_mounted P) as Hw0.
  revert Hr H0 Hw0. generalize (@mounted P). revert w.
  induction es as [|e es IH]; intros w w0 Hr H0 Hw0; cbn [run] in Hr.
  - now injection Hr as <-.
  - destruct (step w0 e) as [w1|] eqn:Hs; [|discriminate]. cbn in Hr.
    eapply IH; [exact Hr|eapply step_owned; eauto|eapply step_wf; eauto].
Qed.

Lemma mutate_other acc (f : Controller → Controller) w l :
  controllers w !! acc ≠ Some l → heap (mutate acc f w) !! l = heap w !! l.
Proof.
  intros Hne. unfold mutate. destruct (controllers w !! acc) as [l0|]; [|reflexivity].
  destruct (heap w !! l0); [|reflexivity]. cbn.
  apply list_lookup_insert_ne. congruence.
Qed.

Lemma control_other acc w w' l :
  w' = pauseJob acc w ∨ w' = resumeJob acc w ∨ w' = stopJob acc w →
  controllers w !! acc ≠ Some l → heap w' !! l = heap w !! l.
Proof.
  unfold pauseJob, resumeJob, stopJob.
  intros [->|[->| ->]] Hne; destruct (hasController acc w); try reflexivity;
    cbn [heap toast updateJobData with_toasts with_jobs];
    rewrite ?mutate_other; auto.
  now destruct (mutate_shape acc (fun c => {| isPaused := isPaused c; isStopped := true |}) w)
    as (_&_&_&->&_).
Qed.

Lemma step_other_heap w e w' a l c :
  owned w → step w e = Some w' → concerns w e ≠ Some a →
  heap w !! l = Some c →
  (controllers w !! a = Some l
   ∨ ∃ k L, loops w !! k = Some L ∧ accountId L = a ∧ ctrl L = Some l) →
  heap w' !! l = Some c.
Proof.
  intros [Ht Hc] Hs Hsub Hl Hown.
  destruct (isControl e) eqn:Hctl.
  - assert (Hne : ∀ b, concerns w e = Some b → controllers w !! b ≠ Some l).
    { intros b Hb Hbl. apply Hsub. rewrite Hb. f_equal.
      destruct Hown as [Ha|(k & L & HL & <- & Hcl)]; eauto. }
    destruct e as [?|?|acc|acc|acc| | |?|?]; try discriminate;
      cbn [step concerns] in *; injection Hs as <-;
      rewrite (control_other acc w _ l); auto.
  - destruct (step_frame _ _ _ Hs) as (_ & Hh & _).
    destruct (Hh l c Hl) as (c' & Hl' & _ & Heq). now rewrite Hl', (Heq Hctl).
Qed.

(** X10: an event that is about another account -- an edit, a start, a
    pause, resume or stop, or the continuation of one of its loops --
    leaves an account's record, its controller and the flags of that
    controller, its loops, the flags of the controllers they hold and the
    requests they have sent exactly as they were.  (The ticker and the
    clock are shared.) *)
Theorem accounts_do_not_interfere w e w' a :
  reachable w → step w e = Some w' →
  concerns w e ≠ Some a → isTick e = false →
  jobs w' !! a = jobs w !! a
  ∧ controllers w' !! a = controllers w !! a
  ∧ (∀ f, flag f (controllers w' !! a) w' = flag f (controllers w !! a) w)
  ∧ (∀ k L, loops w !! k = Some L → accountId L = a →
       loops w' !! k = Some L
       ∧ sentBy k w' = sentBy k w
       ∧ ∀ f, flag f (ctrl L) w' = flag f (ctrl L) w).
Proof.
  intros Hreach Hs Hsub Ht.
  pose proof (reachable_wf w Hreach) as Hw.
  pose proof (reachable_owned w Hreach) as Hown.
  destruct (step_frame _ _ _ Hs) as (_ & _ & Hc & Hl & Hq).
  assert (Hca : controllers w' !! a = controllers w !! a).
  { apply Hc. intros ->. now apply Hsub. }
  split; [exact (step_other_record _ _ _ a Hs Hsub Ht)|]. split; [exact Hca|].
  split.
  - intros f. rewrite Hca. unfold flag.
    destruct (controllers w !! a) as [l|] eqn:Hla; [|reflexivity].
    destruct (lookup_lt_is_Some_2 (heap w) l (wf_controllers _ Hw a l Hla)) as [c Hlc].
    now rewrite Hlc, (step_other_heap w e w' a l c Hown Hs Hsub Hlc (or_introl Hla)).
  - intros k L HL HLa.
    assert (Hact : actor w e ≠ Some k).
    { destruct e; cbn [actor concerns] in *; try discriminate.
      - intros [= <-]. apply lookup_lt_Some in HL. lia.
      - intros [= ->]. rewrite HL in Hsub. cbn in Hsub. congruence.
      - intros [= ->]. rewrite HL in Hsub. cbn in Hsub. congruence. }
    split; [exact (Hl k L HL Hact)|].
    split; [apply Hq; [eapply lookup_lt_Some; eauto|exact Hact]|].
    intros f. unfold flag. destruct (ctrl L) as [l|] eqn:Hcl; [|reflexivity].
    destruct (lookup_lt_is_Some_2 (heap w) l (wf_ctrl _ Hw k L l HL Hcl)) as [c Hlc].
    rewrite Hlc, (step_other_heap w e w' a l c Hown Hs Hsub Hlc); [reflexivity|].
    right. eauto.
Qed.

End Controllers.

(** ** A stop and the loops it reaches *)




(** The same run, event by event: after the stop the loop of the second
    run sends the request for its second recipient, and when every loop of
    the account has returned the token is stopped and the status is
    [processing]. *)
Example stale_loop_goes_on_after_stop :
  ∃ w',
    run afterTheStop (stopJob "acc" thirdRunInFlight) = Some w'
    ∧ settled "acc" w' = true
    ∧ flag isStopped (controllers w' !! "acc") w' = true
    ∧ status (getJob "acc" w') = processing
    ∧ sentBy 1 w' =
        sentBy 1 thirdRunInFlight ++
        [POST_send_email "acc" "b@x.com" "Hello" "<p>Hi</p>" (Some "") (Some "")].
Proof. vm_compute. eexists. repeat split. Qed.

Section Reach.
Context {P : Provider} {json : JSON}.
Implicit Types (w : World P) (L : Loop P) (j : JobState P) (acc : string).

Lemma run_snoc es e w : run (es ++ [e]) w = (w' ← run es w; step w' e).
Proof.
  revert w. induction es as [|e0 es IH]; intros w.
  - cbn. destruct (step w e); reflexivity.
  - cbn [app run]. destruct (step w e0) as [w1|]; [apply IH|reflexivity].
Qed.

Lemma reachable_step w e w' : reachable w → step w e = Some w' → reachable w'.
Proof. intros [es Hr] Hs. exists (es ++ [e]). rewrite run_snoc, Hr. exact Hs. Qed.

(** Induction over the states the provider can reach. *)
Lemma reachable_invariant (Q : World P → Prop) :
  Q mounted →
  (∀ w e w', reachable w → Q w → step w e = Some w' → Q w') →
  ∀ w, reachable w → Q w.
Proof.
  intros H0 Hstep w [es Hr]. revert w Hr.
  induction es as [|e es IH] using rev_ind; intros w Hr.
  - injection Hr as <-. exact H0.
  - rewrite run_snoc in Hr. destruct (run es mounted) as [w1|] eqn:Hr1; [|discriminate].
    cbn in Hr. eapply Hstep; [exists es; exact Hr1|exact (IH w1 eq_refl)|exact Hr].
Qed.

(** ** The export of the page *)

Lemma contains_app c (s t : string) :
  contains c (s +:+ t) = (contains c s || contains c t)%bool.
Proof.
  induction s as [|d s IH]; [reflexivity|].
  change (contains c (String d s +:+ t))
    with (Ascii.eqb d c || contains c (s +:+ t))%bool.
  rewrite IH. cbn [contains]. now rewrite orb_assoc.
Qed.

Lemma trim_contains (c : ascii) (s : string) :
  contains c s = false → contains c (trim s) = false.
Proof.
  destruct (trim_spec s) as [(pre & post & Hs & _) _]. intros H.
  rewrite Hs, !contains_app in H.
  apply orb_false_elim in H as [_ H]. now apply orb_false_elim in H as [H _].
Qed.

Lemma parseEmails_lines (s : string) :
  Forall (fun e => contains newline e = false) (parseEmails s).
Proof.
  unfold parseEmails. apply Forall_forall. intros e Hin.
  apply list_elem_of_In, filter_In in Hin as [Hin _].
  apply in_map_iff in Hin as (piece & <- & Hin). apply trim_contains.
  pose proof (split_no_separator newline s) as H.
  rewrite Forall_forall in H. apply H. now apply list_elem_of_In.
Qed.

Lemma split_one_line (s : string) :
  contains newline s = false → split newline s = [s].
Proof.
  induction s as [|c s IH]; [reflexivity|]. cbn [contains split].
  destruct (Ascii.eqb c newline); [discriminate|]. cbn. intros H. now rewrite (IH H).
Qed.

Lemma split_line_app (s t : string) :
  contains newline s = false →
  split newline (s +:+ String newline t) = s :: split newline t.
Proof.
  induction s as [|c s IH].
  - reflexivity.
  - change (String c s +:+ String newline t) with (String c (s +:+ String newline t)).
    cbn [contains split].
    destruct (Ascii.eqb c newline); [discriminate|]. cbn. intros H. now rewrite (IH H).
Qed.

(** [split] undoes [join] on lines without a line break. *)
Lemma split_join_lines (lines : list string) :
  lines ≠ [] → Forall (fun line => contains newline line = false) lines →
  split newline (join newline lines) = lines.
Proof.
  induction lines as [|l lines IH]; [congruence|]. intros _ H.
  apply Forall_cons in H as [Hl H]. destruct lines as [|l' lines].
  - cbn. now apply split_one_line.
  - change (join newline (l :: l' :: lines))
      with (l +:+ String newline (join newline (l' :: lines))).
    rewrite (split_line_app _ _ Hl), IH; [reflexivity|discriminate|exact H].
Qed.

Lemma exportLine_line r :
  contains newline (SendResult.email r) = false → contains newline (exportLine r) = false.
Proof.
  intros H. unfold exportLine. rewrite !contains_app, H.
  destruct (SendResult.status r); reflexivity.
Qed.

Lemma reachable_singleLines w : reachable w → singleLines w.
Proof.
  revert w. apply reachable_invariant.
  - intros acc. unfold getJob. cbn. rewrite lookup_empty. constructor.
  - intros w e w' Hreach IH Hs a. specialize (IH a).
    destruct (step_record w e w' a Hs)
      as [Hu|[(data & -> & Hd & ->)|[(prep & -> & _ & Hu)|[[-> ->]|
          (k & o & L & email & -> & HL & _ & _ & Hem & _ & Hu)]]]].
    + destruct Hu as (_&_&_&_&->&_). exact IH.
    + destruct (spread_inputs_kept (getJob a w) data Hd) as ((_&->&_)&_). exact IH.
    + destruct Hu as (_&_&_&_&->&_). constructor.
    + destruct (tickJob_kept (getJob a w)) as ((_&->&_)&_). exact IH.
    + cbn zeta in Hu. destruct Hu as (_&_&_&_&->&_). cbn.
      constructor; [|exact IH].
      destruct (ac_valid _ (reachable_accounted w Hreach) k L HL) as (He & _).
      pose proof (parseEmails_lines (emailList (job L))) as Hl.
      rewrite <- He, Forall_forall in Hl.
      destruct o; cbn; apply Hl; eapply list_elem_of_lookup_2; eauto.
Qed.

(** X11: whenever the page exports, the file has exactly one line for each
    result it shows under the chosen filter, in the order shown: the line
    of a result is its address, a comma and its status; with nothing to
    show there is no file, only the notice. *)
Theorem export_has_one_line_per_result w acc filter isoNow :
  reachable w →
  let shown := filteredResults filter (Some (getJob acc w)) in
  match handleExport filter (Some (getJob acc w)) isoNow with
  | (notice, Some file) =>
      shown ≠ []
      ∧ split newline (textContent file) = List.map exportLine shown
      ∧ fst notice = toast_success
  | (notice, None) => shown = [] ∧ notice = (toast_error, "No logs to export")
  end.
Proof.
  intros Hreach shown. unfold handleExport. fold shown.
  destruct shown as [|r rs] eqn:E; cbn [length Nat.eqb]; [split; reflexivity|].
  split; [discriminate|]. split; [|reflexivity]. cbn [textContent].
  apply split_join_lines; [discriminate|].
  apply Forall_forall. intros line Hin.
  apply list_elem_of_In, in_map_iff in Hin as (r0 & <- & Hin).
  apply exportLine_line.
  pose proof (reachable_singleLines w Hreach acc) as Hl. rewrite Forall_forall in Hl.
  apply Hl. apply list_elem_of_In.
  assert (Hin' : In r0 shown) by (rewrite E; exact Hin).
  unfold shown, filteredResults in Hin'. now apply filter_In in Hin' as [? _].
Qed.

End Reach.

(** ** The buttons of the page *)

(** X12: in every state the track provider can reach, the buttons the page
    shows do what they say.  While the job is active, "Pause"/"Resume"
    finds a controller: it sets the status to [processing] when the record
    shows [paused] and to [paused] otherwise, and "Stop" sets it to
    [stopped], after which the page shows its start button again.  And the
    start button reads "Start Adding" exactly as long as no start of the
    account has passed validation. *)
Theorem page_buttons_act_when_shown {json : JSON} (w : World TrackEventProvider) id :
  reachable w →
  (isJobActive (getJob id w) = true →
     status (getJob id (onPauseToggle (Some id) w))
     = match status (getJob id w) with paused => processing | _ => paused end
     ∧ status (getJob id (onStop (Some id) w)) = stopped
     ∧ isJobActive (getJob id (onStop (Some id) w)) = false)
  ∧ (isJobActive (getJob id w) = false →
     (startLabel (getJob id w) = "Start Adding" ↔ controllers w !! id = None)).
Proof.
  intros Hreach.
  destruct (reachable_started w id Hreach) as [Hidle _].
  split.
  - intros Hact.
    assert (Hc : is_Some (controllers w !! id)).
    { apply not_eq_None_Some. intros E.
      apply Hidle in E. unfold isJobActive in Hact. rewrite E in Hact. discriminate. }
    destruct Hc as [l Hc].
    assert (Hstop : status (getJob id (stopJob id w)) = stopped).
    { unfold stopJob, hasController. rewrite Hc.
      now rewrite getJob_updateJobData. }
    split; [|split; [exact Hstop|unfold isJobActive, onStop; now rewrite Hstop]].
    unfold onPauseToggle.
    destruct (status (getJob id w)); unfold pauseJob, resumeJob, hasController;
      rewrite Hc, getJob_toast, getJob_updateJobData; reflexivity.
  - intros Hin. rewrite <- Hidle. unfold startLabel, isJobActive in *.
    destruct (status (getJob id w)); split; intros H; try discriminate; auto.
Qed.

(** ** The elapsed time as the page prints it *)

Lemma string_length_app (s t : string) :
  String.length (s +:+ t) = String.length s + String.length t.
Proof.
  induction s as [|c s IH]; [reflexivity|].
  change (String.length (String c s +:+ t)) with (S (String.length (s +:+ t))).
  now rewrite IH.
Qed.

Lemma string_app_inj_length (a b c d : string) :
  String.length a = String.length c → a +:+ b = c +:+ d → a = c ∧ b = d.
Proof.
  revert c. induction a as [|x a IH]; intros [|y c] Hl H; try discriminate.
  - auto.
  - change (String x a +:+ b) with (String x (a +:+ b)) in H.
    change (String y c +:+ d) with (String y (c +:+ d)) in H.
    cbn in Hl. injection Hl as Hl. injection H as -> H.
    destruct (IH c Hl H) as [-> ->]. auto.
Qed.

Lemma seconds_two_digits (s : nat) :
  s < 60 → String.length (padStart 2 "0" (pretty s)) = 2.
Proof.
  intros Hs.
  assert (H : forallb (fun s => String.length (padStart 2 "0" (pretty s)) =? 2)
                (seq 0 60) = true) by (vm_compute; reflexivity).
  rewrite forallb_forall in H. apply Nat.eqb_eq, H, in_seq. lia.
Qed.

Lemma seconds_inj (a b : nat) :
  a < 60 → b < 60 → padStart 2 "0" (pretty a) = padStart 2 "0" (pretty b) → a = b.
Proof.
  intros Ha Hb E.
  assert (H : forallb (fun a => forallb (fun b =>
                implb (String.eqb (padStart 2 "0" (pretty a)) (padStart 2 "0" (pretty b)))
                      (a =? b)) (seq 0 60)) (seq 0 60) = true)
    by (vm_compute; reflexivity).
  rewrite forallb_forall in H. specialize (H a ltac:(apply in_seq; lia)).
  rewrite forallb_forall in H. specialize (H b ltac:(apply in_seq; lia)).
  apply String.eqb_eq in E. rewrite E in H. now apply Nat.eqb_eq.
Qed.

(** X13: [formatTime] prints the minutes, a colon and exactly two digits of
    seconds, and it prints different durations differently. *)
Theorem formatTime_is_faithful :
  (∀ n, ∃ secs, formatTime n = pretty (n / 60) +:+ ":" +:+ secs
                ∧ String.length secs = 2)
  ∧ (∀ a b, formatTime a = formatTime b → a = b).
Proof.
  split.
  - intros n. eexists. split; [reflexivity|].
    apply seconds_two_digits. apply Nat.mod_upper_bound. discriminate.
  - intros a b E. unfold formatTime in E. cbn zeta in E.
    assert (Ha : a mod 60 < 60) by (apply Nat.mod_upper_bound; discriminate).
    assert (Hb : b mod 60 < 60) by (apply Nat.mod_upper_bound; discriminate).
    pose proof (f_equal String.length E) as Hl.
    rewrite !string_length_app, (seconds_two_digits _ Ha), (seconds_two_digits _ Hb) in Hl.
    change (String.length ":") with 1 in Hl.
    apply string_app_inj_length in E as [Em E]; [|lia].
    apply (inj pretty) in Em.
    apply (string_app_inj_length ":" _ ":" _ eq_refl) in E as [_ E].
    apply seconds_inj in E; [|assumption..].
    rewrite (Nat.div_mod_eq a 60), (Nat.div_mod_eq b 60). congruence.
Qed.

(** ** The recipient text, once more *)

Lemma trimStart_fixed (s : string) :
  (∀ c, firstChar s = Some c → isWhiteSpace c = false) → trimStart s = s.
Proof.
  destruct s as [|c s]; [reflexivity|]. intros H. cbn.
  now rewrite (H c eq_refl).
Qed.

Lemma trimEnd_fixed (s : string) :
  (∀ c, lastChar s = Some c → isWhiteSpace c = false) → trimEnd s = s.
Proof.
  induction s as [|c s IH]; [reflexivity|]. intros H. cbn [trimEnd].
  destruct s as [|d s].
  - cbn. now rewrite (H c eq_refl).
  - rewrite IH; [reflexivity|]. intros c0 Hc0. apply H. exact Hc0.
Qed.

Lemma trim_trim (s : string) : trim (trim s) = trim s.
Proof.
  destruct (trim_spec s) as (_ & Hf & Hl).
  unfold trim at 1. rewrite (trimStart_fixed _ Hf). now apply trimEnd_fixed.
Qed.

Lemma allWhiteSpace_app (s t : string) :
  allWhiteSpace (s +:+ t) ↔ allWhiteSpace s ∧ allWhiteSpace t.
Proof.
  unfold allWhiteSpace. induction s as [|c s IH].
  - cbn. split; [intros H; split; [constructor|exact H]|intros [_ H]; exact H].
  - change (list_ascii_of_string (String c s +:+ t))
      with (c :: list_ascii_of_string (s +:+ t)).
    cbn [list_ascii_of_string]. rewrite !Forall_cons, IH. tauto.
Qed.

Lemma trim_empty (s : string) : trim s = "" ↔ allWhiteSpace s.
Proof.
  split.
  - intros E. destruct (trim_spec s) as ((pre & post & Hs & Hpre & Hpost) & _).
    rewrite E in Hs. rewrite Hs. apply allWhiteSpace_app. split; [exact Hpre|].
    exact Hpost.
  - intros H. unfold trim.
    assert (E : trimStart s = "").
    { induction s as [|c s IH]; [reflexivity|]. cbn.
      apply Forall_cons in H as [Hc H]. rewrite Hc. auto. }
    now rewrite E.
Qed.

Lemma allWhiteSpace_join (lines : list string) :
  allWhiteSpace (join newline lines) ↔ Forall allWhiteSpace lines.
Proof.
  induction lines as [|l lines IH].
  - split; constructor.
  - destruct lines as [|l' lines].
    + cbn [join]. rewrite Forall_cons. split; [intros H; split; [exact H|constructor]|tauto].
    + change (join newline (l :: l' :: lines))
        with (l +:+ String newline (join newline (l' :: lines))).
      rewrite allWhiteSpace_app, Forall_cons, <- IH.
      change (String newline (join newline (l' :: lines)))
        with ((String newline "") +:+ join newline (l' :: lines)).
      rewrite allWhiteSpace_app.
      assert (allWhiteSpace (String newline "")) by (repeat constructor).
      tauto.
Qed.

Lemma parseEmails_fixed (emails : list string) :
  Forall (fun e => e ≠ "" ∧ trim e = e ∧ contains newline e = false) emails →
  parseEmails (join newline emails) = emails.
Proof.
  intros H. destruct emails as [|e emails]; [reflexivity|].
  unfold parseEmails. rewrite split_join_lines; [|discriminate|].
  - induction H as [|x l (Hne & Ht & _) _ IH]; [reflexivity|].
    cbn [List.map List.filter]. rewrite Ht.
    destruct x; [congruence|]. cbn [nonEmpty]. now rewrite IH.
  - eapply Forall_impl; [exact H|]. now intros x (_ & _ & Hx).
Qed.

Lemma parseEmails_clean (s : string) :
  Forall (fun e => e ≠ "" ∧ trim e = e ∧ contains newline e = false) (parseEmails s).
Proof.
  pose proof (parseEmails_lines s) as Hl.
  rewrite Forall_forall in Hl |- *. intros e Hin. specialize (Hl e Hin).
  unfold parseEmails in Hin.
  apply list_elem_of_In, filter_In in Hin as [Hin Hne].
  apply in_map_iff in Hin as (piece & <- & _).
  split; [destruct (trim piece); [discriminate|discriminate]|].
  split; [apply trim_trim|exact Hl].
Qed.

(** X14: what [startJob] reads from the recipient text.  The parsed list is
    empty -- and the start fails with "No emails found" -- exactly when the
    text holds nothing but white space; every parsed address is non-empty,
    has no white space at either end and fits on one line; and writing the
    parsed addresses one per line and parsing again gives the same list. *)
Theorem parseEmails_round_trip {P : Provider} {json : JSON} :
  (∀ s, parseEmails s = [] ↔ allWhiteSpace s)
  ∧ (∀ acc (w : World P),
      allWhiteSpace (emailList (getJob acc w)) →
      startJob acc w = toast toast_error "No emails found" w)
  ∧ (∀ s, Forall (fun e => e ≠ "" ∧ trim e = e ∧ contains newline e = false)
            (parseEmails s))
  ∧ (∀ s, parseEmails (join newline (parseEmails s)) = parseEmails s).
Proof.
  pose proof parseEmails_clean as H2.
  assert (H1 : ∀ s, parseEmails s = [] ↔ allWhiteSpace s); [|split; [exact H1|split;
    [intros acc w Hw; apply H1 in Hw; unfold startJob; now rewrite Hw|split; [exact H2|]]]].
  - intros s. rewrite <- (split_join newline s) at 2.
    rewrite allWhiteSpace_join. unfold parseEmails.
    induction (split newline s) as [|l ls IH]; [split; constructor|].
    cbn [List.map List.filter]. rewrite Forall_cons, <- IH, <- trim_empty.
    destruct (trim l); cbn [nonEmpty]; split; try tauto; try discriminate.
    intros [? _]. discriminate.
  - intros s. apply parseEmails_fixed, H2.
Qed.

Section Pausing.
Context {P : Provider} {json : JSON}.
Implicit Types (w : World P) (L : Loop P) (j : JobState P) (acc : string).

(** ** Where a pause holds a loop *)

Lemma paused_flags l w c :
  heap w !! l = Some {| isPaused := true; isStopped := false |} → c = Some l →
  flag isPaused c w = true ∧ flag isStopped c w = false.
Proof. intros H ->. unfold flag. now rewrite H. Qed.

(** X15: a loop that holds a paused controller stays where it is and
    sends nothing when one of its timers fires -- in the pause poll before
    the delay, in the pause poll inside the countdown, and in a second of
    the countdown that is not the last, after which it starts polling; and
    when a reply arrives while the account's controller is paused and
    recipients are left, the outcome is recorded and the loop starts
    polling without sending the next request. *)
Theorem pause_holds_the_loop w k L l :
  loops w !! k = Some L →
  heap w !! l = Some {| isPaused := true; isStopped := false |} →
  (∀ due, ctrl L = Some l → pc L = AwaitPausePoll due → (due ≤ now w)%N →
     wake k w = Some (store k (with_pc (AwaitPausePoll (now w + 500)) L, w)))
  ∧ (∀ remaining due,
       ctrl L = Some l → pc L = AwaitCountdownPausePoll remaining due → (due ≤ now w)%N →
       wake k w
       = Some (store k (with_pc (AwaitCountdownPausePoll remaining (now w + 500)) L, w)))
  ∧ (∀ remaining due,
       ctrl L = Some l → pc L = AwaitCountdownSecond remaining due → (due ≤ now w)%N →
       (1 < remaining)%Z →
       wake k w
       = Some (store k
                 (with_pc (AwaitCountdownPausePoll (remaining - 1) (now w + 500)) L,
                  updateJobData (accountId L) [F_countdown (remaining - 1)] w)))
  ∧ (∀ o, controllers w !! accountId L = Some l → pc L = AwaitFetch →
       i L + 1 < length (emails L) → is_Some (jobs w !! accountId L) →
       ∃ w' L', reply k o w = Some w' ∧ loops w' !! k = Some L'
                ∧ pc L' = AwaitPausePoll (now w + 500) ∧ i L' = i L + 1
                ∧ requests w' = requests w
                ∧ status (getJob (accountId L) w') = status (getJob (accountId L) w)
                ∧ current (progress (getJob (accountId L) w')) = i L + 1).
Proof.
  intros HL Hh. split; [|split; [|split]].
  - intros due Hc Hpc Hdue. destruct (paused_flags l w _ Hh Hc) as [Hp Hs].
    unfold wake. rewrite HL. cbn. rewrite Hpc.
    apply N.leb_le in Hdue. rewrite Hdue.
    unfold pauseLoop. now rewrite Hp, Hs.
  - intros remaining due Hc Hpc Hdue. destruct (paused_flags l w _ Hh Hc) as [Hp Hs].
    unfold wake. rewrite HL. cbn. rewrite Hpc.
    apply N.leb_le in Hdue. rewrite Hdue.
    unfold countdownPause. now rewrite Hp, Hs.
  - intros remaining due Hc Hpc Hdue Hr. destruct (paused_flags l w _ Hh Hc) as [Hp Hs].
    unfold wake. rewrite HL. cbn. rewrite Hpc.
    apply N.leb_le in Hdue. rewrite Hdue.
    unfold countdownHead, countdownPause.
    rewrite !flag_updateJobData, Hp, Hs.
    assert ((0 <? remaining - 1)%Z = true) as -> by (apply Z.ltb_lt; lia).
    reflexivity.
  - intros o Hc Hpc Hi [j Hj].
    assert (Hem : ∃ email, emails L !! i L = Some email).
    { apply lookup_lt_is_Some_2. lia. }
    destruct Hem as [email Hem].
    destruct (reply_recorded k o w L email j HL Hpc Hem Hj)
      as (w1 & w' & j' & Hrec & Hrep & Hw' & Hj' & _ & _ & Hprog & Hh1 & Hc1 & Hn1 & Hq1).
    cbn zeta in *.
    set (L1 := with_i (i L + 1) L) in *.
    assert (Hit : iteration k L1 w1
                  = (with_pc (AwaitPausePoll (now w + 500)) (with_ctrl (Some l) L1), w1)).
    { unfold iteration. cbn [i emails accountId with_i L1].
      assert ((i L + 1 <? length (emails L)) = true) as -> by (apply Nat.ltb_lt; lia).
      rewrite Hc1, Hc. cbn [ctrl with_ctrl].
      assert (Hf : flag isPaused (Some l) w1 = true ∧ flag isStopped (Some l) w1 = false)
        by (unfold flag; rewrite Hh1, Hh; auto).
      destruct Hf as [Hp Hs]. rewrite Hs. unfold pauseLoop. cbn [ctrl with_ctrl].
      now rewrite Hp, Hs, Hn1. }
    rewrite Hit in Hw'. exists w', (with_pc (AwaitPausePoll (now w + 500)) (with_ctrl (Some l) L1)).
    split; [exact Hrep|]. subst w'. cbn [loops store with_loops fst snd].
    split.
    { apply list_lookup_insert_eq.
      apply recordOutcome_inv in Hrec as (? & _ & ->). cbn.
      eapply lookup_lt_Some; eauto. }
    split; [reflexivity|]. split; [reflexivity|].
    split; [exact Hq1|].
    rewrite getJob_store in *. cbn [snd] in *.
    apply recordOutcome_inv in Hrec as (j0 & Hj0 & Hw1).
    pose proof (recorded_getJob (accountId L) (outcomeResult (i L + 1) email o)
                  w j0 (accountId L) Hj0) as [E _].
    cbn zeta in E. rewrite <- Hw1 in E. split; [exact E|].
    cbn [jobs store with_loops snd] in Hj'.
    rewrite (getJob_lookup _ _ _ Hj'), Hprog. reflexivity.
Qed.

(** X16: where a pause does not hold.  When the last second of a countdown
    ends, the loop leaves the delay without looking at [isPaused]: it
    writes the status [processing] over [paused] and sends the next
    request although its controller is paused.  And when the reply for the
    last recipient arrives while the controller is paused, the run
    completes: the status becomes [completed]. *)
Theorem pause_does_not_hold_at_the_end w k L l :
  loops w !! k = Some L →
  heap w !! l = Some {| isPaused := true; isStopped := false |} →
  (∀ remaining due email,
     ctrl L = Some l → pc L = AwaitCountdownSecond remaining due → (due ≤ now w)%N →
     (remaining ≤ 1)%Z → emails L !! i L = Some email →
     ∃ w' L', wake k w = Some w' ∧ loops w' !! k = Some L' ∧ pc L' = AwaitFetch
              ∧ requests w'
                = requests w
                  ++ [(k, buildRequest P (accountId L) (inputs (job L)) (prepared L) email)]
              ∧ status (getJob (accountId L) w') = processing
              ∧ countdown (getJob (accountId L) w') = 0%Z
              ∧ flag isPaused (ctrl L') w' = true)
  ∧ (∀ o, controllers w !! accountId L = Some l → pc L = AwaitFetch →
       i L + 1 = length (emails L) → is_Some (jobs w !! accountId L) →
       ∃ w' L', reply k o w = Some w' ∧ loops w' !! k = Some L' ∧ pc L' = Returned
                ∧ status (getJob (accountId L) w') = completed
                ∧ flag isPaused (controllers w' !! accountId L) w' = true).
Proof.
  intros HL Hh. split.
  - intros remaining due email Hc Hpc Hdue Hr Hem.
    destruct (paused_flags l w _ Hh Hc) as [Hp Hs].
    assert (Hk : k < length (loops w)) by (eapply lookup_lt_Some; eauto).
    unfold wake. rewrite HL. cbn. rewrite Hpc.
    apply N.leb_le in Hdue. rewrite Hdue.
    unfold countdownHead, finishDelay, tryFetch.
    rewrite !flag_updateJobData, Hs, Hem.
    assert ((0 <? remaining - 1)%Z = false) as -> by (apply Z.ltb_ge; lia).
    eexists _, _. split; [reflexivity|].
    cbn [loops store with_loops fst snd with_requests updateJobData with_jobs].
    split; [now apply list_lookup_insert_eq|].
    split; [reflexivity|]. split; [reflexivity|].
    rewrite !getJob_store. cbn [snd].
    rewrite getJob_with_requests, getJob_updateJobData. cbn.
    split; [reflexivity|]. split; [reflexivity|].
    unfold flag. cbn. rewrite Hc. now rewrite Hh.
  - intros o Hc Hpc Hi [j Hj].
    assert (Hem : ∃ email, emails L !! i L = Some email).
    { apply lookup_lt_is_Some_2. lia. }
    destruct Hem as [email Hem].
    destruct (reply_recorded k o w L email j HL Hpc Hem Hj)
      as (w1 & w' & j' & Hrec & Hrep & Hw' & _ & _ & _ & _ & Hh1 & Hc1 & _).
    cbn zeta in *.
    set (L1 := with_i (i L + 1) L) in *.
    assert (Hs1 : flag isStopped (controllers w1 !! accountId L1) w1 = false).
    { change (accountId L1) with (accountId L). rewrite Hc1, Hc. unfold flag.
      now rewrite Hh1, Hh. }
    rewrite (iteration_done k L1 w1) in Hw'; [|cbn; lia|exact Hs1].
    exists w', (with_pc Returned L1). split; [exact Hrep|]. subst w'.
    cbn [loops store with_loops fst snd toast updateJobData with_toasts with_jobs].
    split.
    { apply list_lookup_insert_eq.
      apply recordOutcome_inv in Hrec as (? & _ & ->). cbn.
      eapply lookup_lt_Some; eauto. }
    split; [reflexivity|].
    rewrite getJob_store. cbn [snd]. rewrite getJob_toast.
    change (accountId L1) with (accountId L). rewrite getJob_updateJobData.
    split; [reflexivity|].
    cbn [controllers store with_loops snd toast updateJobData with_toasts with_jobs].
    rewrite Hc1, Hc. unfold flag. cbn [heap store with_loops snd toast updateJobData
                                        with_toasts with_jobs].
    now rewrite Hh1, Hh.
Qed.

End Pausing.

(** ** What the proxy makes of the content *)

Lemma replaceTags_open (b : bool) (s : string) :
  contains "<" (replaceTags b s) = false.
Proof.
  revert b. induction s as [|c s IH]; intros b; [destruct b; reflexivity|].
  cbn [replaceTags]. destruct b.
  - destruct (Ascii.eqb c ">"); apply IH.
  - destruct (Ascii.eqb c "<") eqn:E; cbn [contains]; rewrite IH.
    + reflexivity.
    + now rewrite E.
Qed.

Lemma replaceTags_plain (s : string) :
  contains "<" s = false → replaceTags false s = s.
Proof.
  induction s as [|c s IH]; [reflexivity|]. cbn [contains replaceTags].
  destruct (Ascii.eqb c "<"); [discriminate|]. cbn. intros H. now rewrite IH.
Qed.

Lemma includes_app (pre s needle : string) :
  includes s needle = true → includes (pre +:+ s) needle = true.
Proof.
  intros H. induction pre as [|c pre IH]; [exact H|].
  change (String c pre +:+ s) with (String c (pre +:+ s)).
  cbn [includes]. rewrite IH. apply orb_true_r.
Qed.

(** X17: what both proxies make of the content of a message.  The plain
    text they send is never empty, has no white space at either end and no
    ["<"] left in it; for a content without ["<"] it is the content
    trimmed (or the fixed notice when that is empty).  The HTML they send
    is the content itself or the content wrapped into a document, it
    passes the test that decides about the wrapping, and preparing it a
    second time changes nothing. *)
Theorem mail_content_is_prepared :
  (∀ content,
      plainText content ≠ ""
      ∧ contains "<" (plainText content) = false
      ∧ trim (plainText content) = plainText content)
  ∧ (∀ content,
      contains "<" content = false →
      plainText content
      = orElse (trim content) "Please view this email in an HTML compatible email client.")
  ∧ (∀ content,
      htmlContent content = content
      ∨ htmlContent content
        = "<!DOCTYPE html><html><body>" +:+ content +:+ "</body></html>")
  ∧ (∀ content,
      startsWith (toLowerCase (trim (htmlContent content))) "<html" = true
      ∨ includes (htmlContent content) "<body" = true)
  ∧ (∀ content, htmlContent (htmlContent content) = htmlContent content).
Proof.
  assert (Hwrap : ∀ content,
            includes ("<!DOCTYPE html><html><body>" +:+ content +:+ "</body></html>")
              "<body" = true).
  { intros content.
    change ("<!DOCTYPE html><html><body>" +:+ content +:+ "</body></html>")
      with ("<!DOCTYPE html><html>" +:+ ("<body>" +:+ content +:+ "</body></html>")).
    apply includes_app. reflexivity. }
  assert (H4 : ∀ content,
            startsWith (toLowerCase (trim (htmlContent content))) "<html" = true
            ∨ includes (htmlContent content) "<body" = true).
  { intros content. unfold htmlContent.
    destruct (startsWith (toLowerCase (trim content)) "<html") eqn:E1; [left; exact E1|].
    destruct (includes content "<body") eqn:E2; [right; exact E2|].
    right. apply Hwrap. }
  split; [|split; [|split; [|split; [exact H4|]]]].
  - intros content. unfold plainText. cbn zeta.
    destruct (trim (replaceTags false content)) as [|c t] eqn:E; cbn [falsy nonEmpty negb].
    + split; [discriminate|]. split; reflexivity.
    + split; [discriminate|]. rewrite <- E. split.
      * apply trim_contains, replaceTags_open.
      * apply trim_trim.
  - intros content H. unfold plainText, orElse, falsy. cbn zeta.
    rewrite (replaceTags_plain _ H). now destruct (nonEmpty (trim content)).
  - intros content. unfold htmlContent. destruct (_ && _); auto.
  - intros content. unfold htmlContent at 1.
    destruct (H4 content) as [-> | ->]; [reflexivity|].
    now rewrite andb_false_r.
Qed.

(** ** What the proxy answers *)

Section Answers.
Variable accounts : option (list Proxy.Account).
Variable axios : Proxy.Call → Proxy.Upstream.

(** [axios] rejects a call that got a response only when the status of
    the response is not a 2xx. *)
Hypothesis rejects :
  ∀ call status data,
    axios call = Proxy.Rejected (Some (status, data)) → ¬ (200 ≤ status ≤ 299).

Lemma rejected_not_ok message response call :
  axios call = Proxy.Rejected response →
  (200 <=? Proxy.code (Proxy.rejected message response))
  && (Proxy.code (Proxy.rejected message response) <=? 299) = false.
Proof.
  intros H. destruct response as [[status data]|]; [|reflexivity].
  apply rejects in H. cbn [Proxy.code Proxy.rejected].
  destruct (Nat.eqb_spec status 0); [reflexivity|].
  destruct (Nat.leb_spec 200 status); [|reflexivity].
  destruct (Nat.leb_spec status 299); [lia|reflexivity].
Qed.

Ltac handler_leaves :=
  repeat match goal with
         | |- context [if ?b then _ else _] => destruct b eqn:?
         | |- context [match ?x with _ => _ end] => destruct x eqn:?
         end.

Lemma answer_shape (reply : Proxy.Reply) (calls : list Proxy.Call) :
  (calls = []
   ∧ ((200 <=? Proxy.code reply) && (Proxy.code reply <=? 299) = false))
  ∨ (∃ call, calls = [call]
      ∧ ((∃ status messageId data, axios call = Proxy.Resolved status messageId data)
           ∧ Proxy.code reply = 200
         ∨ (∃ response, axios call = Proxy.Rejected response)
           ∧ (200 <=? Proxy.code reply) && (Proxy.code reply <=? 299) = false)) →
  length calls ≤ 1
  ∧ (failed (Proxy.received reply) ↔
     ¬ ∃ call status messageId data,
         calls = [call] ∧ axios call = Proxy.Resolved status messageId data).
Proof.
  unfold failed, Proxy.received.
  intros [[-> H]|(call & -> & [[(st & m & d & Ha) Hc]|[(resp & Ha) H]])].
  - split; [cbn; lia|]. split; [|auto]. intros _ (? & ? & ? & ? & ? & _). discriminate.
  - split; [cbn; lia|]. rewrite Hc. split; [discriminate|].
    intros H. exfalso. apply H. eauto 6.
  - split; [cbn; lia|]. split; [|auto]. intros _ (c & ? & ? & ? & [= <-] & Hr). congruence.
Qed.

(** X18: the answers of both proxies to a request of a run loop.  A proxy
    calls the provider at most once, and the run loop sees an ok response
    -- and records [success] -- exactly when that call was made and the
    provider accepted it; every answer the proxy gives without calling the
    provider is an error for the loop.  The MailerSend variant answers 501
    to every track request. *)
Theorem proxy_answers_ok_only_when_the_provider_accepted (r : Request) :
  (let (reply, calls) := Emailit.serve accounts axios r in
   length calls ≤ 1
   ∧ (failed (Proxy.received reply) ↔
      ¬ ∃ call status messageId data,
          calls = [call] ∧ axios call = Proxy.Resolved status messageId data))
  ∧ (let (reply, calls) := MailerSend.serve accounts axios r in
     length calls ≤ 1
     ∧ (failed (Proxy.received reply) ↔
        ¬ ∃ call status messageId data,
            calls = [call] ∧ axios call = Proxy.Resolved status messageId data))
  ∧ (∀ accountId event email data subscribed,
       r = POST_track_event accountId event email data subscribed →
       MailerSend.serve accounts axios r = MailerSend.trackEvent
       ∧ Proxy.code (fst MailerSend.trackEvent) = 501
       ∧ failed (Proxy.received (fst MailerSend.trackEvent))).
Proof.
  split; [|split].
  - destruct (Emailit.serve accounts axios r) as [reply calls] eqn:E.
    apply answer_shape. revert E.
    destruct r as [a to s c fe fn|a ev em d sb]; cbn [Emailit.serve];
      unfold Emailit.sendEmail, Emailit.trackEvent; cbn zeta.
    + handler_leaves; intros [= <- <-]; try (left; split; reflexivity);
        right; eexists; (split; [reflexivity|]).
      * left. split; [eauto|reflexivity].
      * right. split; [eauto|]. eapply rejected_not_ok; eauto.
    + handler_leaves; intros [= <- <-]; try (left; split; reflexivity);
        right; eexists; (split; [reflexivity|]).
      * left. split; [eauto|reflexivity].
      * right. split; [eauto|]. eapply rejected_not_ok; eauto.
      * left. split; [eauto|reflexivity].
      * right. split; [eauto|]. eapply rejected_not_ok; eauto.
  - destruct (MailerSend.serve accounts axios r) as [reply calls] eqn:E.
    apply answer_shape. revert E.
    destruct r as [a to s c fe fn|a ev em d sb]; cbn [MailerSend.serve];
      unfold MailerSend.sendEmail, MailerSend.trackEvent; cbn zeta.
    + handler_leaves; intros [= <- <-]; try (left; split; reflexivity);
        right; eexists; (split; [reflexivity|]);
        first [ left; split; [eauto|reflexivity]
              | right; split; [eauto|]; eapply rejected_not_ok; eauto ].
    + intros [= <- <-]. left. split; reflexivity.
  - intros a ev em d sb ->. repeat split.
Qed.

End Answers.

(** ** The requests of the run loops at the proxy *)

Lemma request_origin {P : Provider} {json : JSON} (w : World P) k r :
  reachable w → (k, r) ∈ requests w →
  ∃ L email, loops w !! k = Some L ∧ email ∈ emails L
             ∧ r = buildRequest P (accountId L) (inputs (job L)) (prepared L) email
             ∧ email ≠ "" ∧ trim email = email
             ∧ checkInputs P (inputs (job L)) = inr (prepared L).
Proof.
  intros Hreach Hin. destruct (reachable_accounted w Hreach) as [Hb Hs Hv _].
  pose proof (Hb _ Hin) as Hk. cbn in Hk.
  destruct (lookup_lt_is_Some_2 _ _ Hk) as [L HL].
  assert (Hr : r ∈ sentBy k w).
  { unfold sentBy. apply list_elem_of_In, in_map_iff. exists (k, r).
    split; [reflexivity|]. apply filter_In. split; [now apply list_elem_of_In|].
    cbn. apply Nat.eqb_refl. }
  rewrite (Hs k L HL) in Hr.
  apply (subseteq_take (attempted L) (planned L)) in Hr.
  unfold planned in Hr. apply list_elem_of_In, in_map_iff in Hr as (email & <- & He).
  destruct (Hv k L HL) as (Hem & _ & Hc).
  exists L, email. split; [exact HL|]. split; [now apply list_elem_of_In|].
  split; [reflexivity|].
  pose proof (parseEmails_clean (emailList (job L))) as Hp.
  rewrite <- Hem, Forall_forall in Hp.
  destruct (Hp email (proj2 (list_elem_of_In _ _) He)) as (Hne & Ht & _).
  auto.
Qed.

Ltac discard_answers :=
  repeat match goal with
         | |- context [if ?b then _ else _] => destruct b eqn:?
         | |- context [match ?x with _ => _ end] => destruct x eqn:?
         end;
  try discriminate; try (intros [=]; fail).

(** X19: every request a run loop sends has passed the checks of
    [startJob], so the parameter check of the proxy finds nothing missing.
    A request of the send provider carries a recipient of the parsed list
    -- non-empty, trimmed -- and the non-empty subject and content of the
    record at the start; a request of the track provider carries such a
    recipient, the non-empty event name, the parsed event data and
    [subscribed: true].  For an account with a non-empty id neither proxy
    answers "Missing parameters" to a send request, nor the Emailit proxy
    to a track request. *)
Theorem run_requests_pass_the_parameter_check {json : JSON} :
  (∀ (w : World BulkJobProvider) k r,
      reachable w → (k, r) ∈ requests w →
      ∃ L to, loops w !! k = Some L ∧ to ∈ emails L
        ∧ r = POST_send_email (accountId L) to
                (subject (inputs (job L))) (content (inputs (job L)))
                (fromEmail (inputs (job L))) (fromName (inputs (job L)))
        ∧ to ≠ "" ∧ trim to = to
        ∧ subject (inputs (job L)) ≠ "" ∧ content (inputs (job L)) ≠ ""
        ∧ (accountId L ≠ "" →
           ∀ accounts axios,
             fst (Emailit.serve accounts axios r) ≠ missingParameters
             ∧ fst (MailerSend.serve accounts axios r) ≠ missingParameters))
  ∧ (∀ (w : World TrackEventProvider) k r,
      reachable w → (k, r) ∈ requests w →
      ∃ L email, loops w !! k = Some L ∧ email ∈ emails L
        ∧ r = POST_track_event (accountId L) (eventName (inputs (job L))) email
                (prepared L) true
        ∧ email ≠ "" ∧ trim email = email
        ∧ eventName (inputs (job L)) ≠ ""
        ∧ JSON_parse (orElse (eventData (inputs (job L))) "{}") = Some (prepared L)
        ∧ (accountId L ≠ "" →
           ∀ accounts axios, fst (Emailit.serve accounts axios r) ≠ missingParameters)).
Proof.
  split.
  - intros w k r Hreach Hin.
    destruct (request_origin w k r Hreach Hin) as (L & to & HL & Hto & -> & Hne & Ht & Hc).
    exists L, to. split; [exact HL|]. split; [exact Hto|]. split; [reflexivity|].
    split; [exact Hne|]. split; [exact Ht|].
    cbn [checkInputs BulkJobProvider] in Hc.
    destruct (subject (inputs (job L))) as [|c1 s1] eqn:E1; [discriminate Hc|].
    destruct (content (inputs (job L))) as [|c2 s2] eqn:E2; [discriminate Hc|].
    split; [discriminate|]. split; [discriminate|].
    intros Ha accounts axios.
    cbn [buildRequest BulkJobProvider Emailit.serve MailerSend.serve].
    rewrite E1, E2.
    destruct (accountId L) as [|c0 s0]; [congruence|].
    destruct to as [|c3 s3]; [congruence|].
    unfold Emailit.sendEmail, MailerSend.sendEmail, missingParameters.
    cbn [falsy nonEmpty negb orb]. cbn zeta.
    split; discard_answers; cbn [fst]; unfold Proxy.rejected; intros [=].
  - intros w k r Hreach Hin.
    destruct (request_origin w k r Hreach Hin)
      as (L & email & HL & Hem & -> & Hne & Ht & Hc).
    exists L, email. split; [exact HL|]. split; [exact Hem|]. split; [reflexivity|].
    split; [exact Hne|]. split; [exact Ht|].
    cbn [checkInputs TrackEventProvider] in Hc.
    destruct (eventName (inputs (job L))) as [|c1 s1] eqn:E1; [discriminate Hc|].
    cbn [falsy nonEmpty negb] in Hc.
    destruct (JSON_parse _) as [parsed|] eqn:Ep; [|discriminate Hc].
    injection Hc as Hc. split; [discriminate|]. split; [now rewrite Hc|].
    intros Ha accounts axios.
    cbn [buildRequest TrackEventProvider Emailit.serve]. rewrite E1.
    destruct (accountId L) as [|c0 s0]; [congruence|].
    destruct email as [|c3 s3]; [congruence|].
    unfold Emailit.trackEvent, missingParameters.
    cbn [falsy nonEmpty negb orb]. cbn zeta.
    discard_answers; cbn [fst]; unfold Proxy.rejected; intros [=].
Qed.

Section Transcripts.
Context {P : Provider} {json : JSON}.
Implicit Types (w : World P) (L : Loop P) (j : JobState P) (acc : string).
Variable serve : Request → FetchOutcome.

(** ** Runs served by a proxy *)

Lemma transcript_succ L n email :
  emails L !! n = Some email →
  transcript serve L (n + 1)
  = outcomeResult (n + 1) email
      (serve (buildRequest P (accountId L) (inputs (job L)) (prepared L) email))
    :: transcript serve L n.
Proof.
  intros H. unfold transcript. rewrite Nat.add_1_r, (take_S_r _ _ _ H), imap_app.
  rewrite reverse_app. cbn [imap reverse].
  rewrite length_take, Nat.min_l by (apply lookup_lt_Some in H; lia).
  rewrite Nat.add_0_r, Nat.add_1_r. reflexivity.
Qed.

Lemma transcript_same L L' n :
  accountId L' = accountId L → job L' = job L → prepared L' = prepared L →
  emails L' = emails L → transcript serve L' n = transcript serve L n.
Proof. unfold transcript. now intros -> -> -> ->. Qed.

Lemma served_mounted : served serve (@mounted P).
Proof. intros k L [H _]. cbn in H. rewrite lookup_nil in H. discriminate. Qed.

Lemma step_served w e w' :
  wf w → solo w → ledger w → served serve w →
  (∀ acc, e = Start acc → settled acc w = true) →
  (∀ k o L email, e = Reply k o → loops w !! k = Some L → emails L !! i L = Some email →
     o = serve (buildRequest P (accountId L) (inputs (job L)) (prepared L) email)) →
  step w e = Some w' → served serve w'.
Proof.
  intros Hw Hso [Hlat Hlog] Hsv Hex Hans Hs.
  destruct e as [acc data|acc|acc|acc|acc| |ms|k|k o].
  all: try (apply calm_step in Hs as (Hl & _ & Hk); try discriminate;
            intros k L Hla; unfold latest in Hla; rewrite Hl in Hla;
            destruct (Hk (accountId L)) as [(-> & -> & _) _];
            exact (Hsv k L Hla)).
  - (* Start *)
    cbn [step] in Hs. injection Hs as <-.
    destruct (startJob_cases acc w) as [[m ->]|[prep Hv]]; [exact Hsv|].
    destruct (startJob_first_fetch acc prep w Hv) as (email & He & ->).
    set (L0 := with_pc AwaitFetch _).
    set (w' := with_loops _ _).
    assert (Hl : loops w' = loops w ++ [L0]) by reflexivity.
    assert (Hget : ∀ a, a ≠ acc → getJob a w' = getJob a w).
    { intros a Ha. apply getJob_ext. subst w'. cbn. now rewrite lookup_insert_ne. }
    assert (Hacc : getJob acc w'
             = spread (getJob acc w)
                 [F_status processing; F_results [];
                  F_stats {| success := 0; fail := 0 |};
                  F_progress {| current := 0;
                      total := length (parseEmails (emailList (getJob acc w))) |};
                  F_elapsedSeconds 0; F_countdown 0]).
    { unfold getJob. subst w'. cbn. now rewrite lookup_insert_eq. }
    intros k L Hla.
    destruct (Nat.lt_ge_cases k (length (loops w))) as [Hk|Hk].
    + destruct Hla as [H1 H2]. rewrite Hl in H1, H2.
      rewrite lookup_app_l in H1 by exact Hk.
      assert (Hne : accountId L ≠ acc).
      { intros Ha. apply (H2 (length (loops w)) L0 Hk); [|now rewrite Ha].
        now rewrite lookup_app_r, Nat.sub_diag by lia. }
      rewrite Hget by exact Hne. apply (Hsv k L). split; [exact H1|].
      intros k' L' Hlt H'. apply (H2 k' L' Hlt).
      rewrite lookup_app_l; [exact H'|]. eapply lookup_lt_Some; eauto.
    + destruct Hla as [H1 _]. rewrite Hl in H1.
      rewrite lookup_app_r in H1 by exact Hk.
      apply list_lookup_singleton_Some in H1 as [_ <-].
      change (accountId L0) with acc. rewrite Hacc. reflexivity.
  - (* Wake *)
    destruct (continue_sends w _ w' k Hs (or_introl eq_refl))
      as (L & L' & HL & Hl & Hacc & Hjob & Hprep & Hem & Hlive & _ & _).
    assert (Hrec : ∀ a, progress (getJob a w') = progress (getJob a w)
                        ∧ results (getJob a w') = results (getJob a w)).
    { intros a. destruct (step_record w _ w' a Hs)
        as [Hu|[(? & ? & _)|[(? & ? & _)|[[? _]|(? & ? & ? & ? & ? & _)]]]];
        try discriminate.
      destruct Hu as (_&_&_&->&->&_). auto. }
    intros k1 L1 Hla. destruct (Hrec (accountId L1)) as [-> ->].
    destruct (latest_continued w w' k L L' k1 L1 HL Hl Hacc Hla)
      as [(-> & -> & Hla0)|(Hne & Hla0)].
    + rewrite Hacc, (transcript_same L L') by assumption. exact (Hsv k L Hla0).
    + exact (Hsv k1 L1 Hla0).
  - (* Reply *)
    destruct (continue_sends w _ w' k Hs (or_intror (ex_intro _ o eq_refl)))
      as (L & L' & HL & Hl & Hacc & Hjob & Hprep & Hem & Hlive & Hidx & _).
    cbn [step] in Hs.
    pose proof Hs as Hs'.
    apply reply_inv in Hs' as (L0 & email & w1 & HL0 & Hpc & Hmail & _ & _).
    assert (L0 = L) by congruence. subst L0.
    destruct (wf_job _ Hw k L HL) as [j Hj].
    destruct (reply_recorded k o w L email j HL Hpc Hmail Hj)
      as (w1' & w'' & j' & _ & Hrep & _ & Hj' & Hres & _ & Hprog & _).
    assert (w'' = w') by congruence. subst w''.
    pose proof (Hlat k L HL Hlive) as Hla0.
    pose proof (Hsv k L Hla0) as Hold.
    pose proof (solo_index _ Hso k L HL Hlive) as Hcur.
    rewrite (getJob_lookup _ _ _ Hj) in Hold, Hcur.
    intros k1 L1 Hla.
    destruct (latest_continued w w' k L L' k1 L1 HL Hl Hacc Hla)
      as [(-> & -> & _)|(Hne & Hla1)].
    + rewrite Hacc, (getJob_lookup _ _ _ Hj'), Hres, Hprog.
      cbn [current]. rewrite (transcript_same L L') by assumption.
      rewrite (transcript_succ L (i L) email Hmail), Hold, Hcur.
      f_equal. f_equal. exact (Hans k o L email eq_refl HL Hmail).
    + assert (Hother : accountId L1 ≠ accountId L).
      { intros Ha. apply Hne. eapply latest_unique; eauto. }
      rewrite (getJob_ext (accountId L1) w w').
      { exact (Hsv k1 L1 Hla1). }
      apply (step_other_record w (Reply k o) w'); [exact Hs| |reflexivity].
      cbn. rewrite HL. cbn. congruence.
Qed.

(** X20: the results of a run are what the proxy answered.  As long as
    the runs of an account do not overlap and every reply is the answer
    of [serve] to the request in flight, the results of the record are, the
    most recent first, the outcomes [serve] gives for the first
    [progress.current] recipients of the most recent run, each under the
    number of its recipient; when the record shows [completed], these are
    the outcomes for all recipients of the run. *)
Theorem results_are_the_answers_of_the_proxy es w k L :
  exclusive es mounted = true → answered serve es mounted →
  run es mounted = Some w → latest k L w →
  results (getJob (accountId L) w)
  = transcript serve L (current (progress (getJob (accountId L) w)))
  ∧ (status (getJob (accountId L) w) = completed →
     results (getJob (accountId L) w) = transcript serve L (length (emails L))).
Proof.
  intros Hex Han Hr Hla.
  assert (Hall : wf w ∧ solo w ∧ ledger w ∧ finished w ∧ served serve w).
  { pose proof (@wf_mounted P) as H1. pose proof (@solo_mounted P) as H2.
    pose proof (ledger_mounted (P := P)) as H3.
    pose proof (finished_mounted (P := P)) as H4.
    pose proof served_mounted as H5.
    clear Hla. revert Hex Han Hr H1 H2 H3 H4 H5. generalize (@mounted P). revert w.
    induction es as [|e es IH]; intros w w0 Hex Han Hr H1 H2 H3 H4 H5; cbn [run] in Hr.
    - injection Hr as <-. auto.
    - cbn [exclusive] in Hex. apply andb_prop in Hex as [He Hex].
      cbn [answered] in Han. destruct Han as [Ha Han].
      destruct (step w0 e) as [w1|] eqn:Hs; [|discriminate]. cbn in Hr.
      assert (Hst : ∀ acc, e = Start acc → settled acc w0 = true)
        by (intros a ->; exact He).
      assert (Hans : ∀ k o L email, e = Reply k o → loops w0 !! k = Some L →
                emails L !! i L = Some email →
                o = serve (buildRequest P (accountId L) (inputs (job L)) (prepared L) email)).
      { intros k0 o L0 email ->. exact (Ha L0 email). }
      eapply (IH w w1 Hex Han Hr);
        eauto using step_wf, step_solo, step_ledger, step_finished, step_served. }
  destruct Hall as (_ & _ & [_ Hlog] & Hfin & Hsv).
  split; [exact (Hsv k L Hla)|].
  intros Hst. rewrite (Hsv k L Hla), (Hfin _ Hst).
  now destruct (Hlog k L Hla) as (_ & _ & -> & _).
Qed.

Lemma step_all_failed w e w' :
  (∀ a, Forall (fun r => SendResult.status r = Error) (results (getJob a w))) →
  (∀ k o L email, e = Reply k o → loops w !! k = Some L → emails L !! i L = Some email →
     failed o) →
  step w e = Some w' →
  ∀ a, Forall (fun r => SendResult.status r = Error) (results (getJob a w')).
Proof.
  intros H Hans Hs a. specialize (H a).
  destruct (step_record w e w' a Hs)
    as [Hu|[(data & -> & Hd & ->)|[(prep & -> & _ & Hu)|[[-> ->]|
        (k & o & L & email & -> & HL & _ & _ & Hem & _ & Hu)]]]].
  - destruct Hu as (_&_&_&_&->&_). exact H.
  - destruct (spread_inputs_kept (getJob a w) data Hd) as ((_&->&_)&_). exact H.
  - destruct Hu as (_&_&_&_&->&_). constructor.
  - destruct (tickJob_kept (getJob a w)) as ((_&->&_)&_). exact H.
  - cbn zeta in Hu. destruct Hu as (_&_&_&_&->&_). cbn.
    constructor; [|exact H].
    specialize (Hans k o L email eq_refl HL Hem).
    destruct o as [[|] d|m]; cbn in *; congruence.
Qed.

End Transcripts.

(** X21: with the MailerSend variant of the proxy the track provider cannot
    succeed: when every reply is the answer of that proxy to the request
    in flight, every result of every record has status [error] and
    [stats.success] stays zero, whatever the accounts file and the
    provider. *)
Theorem track_runs_fail_at_the_MailerSend_proxy {json : JSON} accounts axios
    es (w : World TrackEventProvider) acc :
  answered (fun r => Proxy.received (fst (MailerSend.serve accounts axios r))) es mounted →
  run es mounted = Some w →
  Forall (fun r => SendResult.status r = Error) (results (getJob acc w))
  ∧ success (stats (getJob acc w)) = 0.
Proof.
  intros Han Hr.
  assert (Hall : ∀ a, Forall (fun r => SendResult.status r = Error) (results (getJob a w))).
  { assert (H0 : ∀ a, Forall (fun r => SendResult.status r = Error)
                        (results (getJob a (@mounted TrackEventProvider)))).
    { intros a. unfold getJob. cbn. rewrite lookup_empty. constructor. }
    revert Han Hr H0. generalize (@mounted TrackEventProvider). revert w.
    induction es as [|e es IH]; intros w w0 Han Hr H0; cbn [run] in Hr.
    - injection Hr as <-. exact H0.
    - cbn [answered] in Han. destruct Han as [Ha Han].
      destruct (step w0 e) as [w1|] eqn:Hs; [|discriminate]. cbn in Hr.
      apply (IH w w1 Han Hr). eapply step_all_failed; [exact H0| |exact Hs].
      intros k o L email -> HL Hem. rewrite (Ha L email HL Hem). reflexivity. }
  split; [apply Hall|].
  destruct (reachable_tallied w acc (ex_intro _ es Hr)) as [-> _].
  specialize (Hall acc). unfold filteredResults.
  induction Hall as [|r rs Hr0 _ IH]; [reflexivity|]. cbn. now rewrite Hr0.
Qed.

(** * The further properties, on the scenarios *)

Lemma runCompleted_reachable : reachable runCompleted.
Proof. exists wholeRun. vm_compute. reflexivity. Qed.

Lemma trackInFlight_reachable : reachable trackInFlight.
Proof.
  exists [Edit "acc"
            [F_emailList (join newline ["a@x.com"; "b@x.com"]);
             F_input (P := TrackEventProvider) (I_eventName "signup")];
          Start "acc"].
  vm_compute. reflexivity.
Qed.

Lemma elapsed_seconds_bounded_by_ticks_witness :
  run [Tick; Pause "acc"; Tick] firstInFlight
  = Some (tick (pauseJob "acc" (tick firstInFlight)))
  ∧ elapsedSeconds (getJob "acc" (tick (pauseJob "acc" (tick firstInFlight))))
    ≤ elapsedSeconds (getJob "acc" firstInFlight) + 2.
Proof.
  split; [reflexivity|].
  exact (elapsed_seconds_bounded_by_ticks (P := BulkJobProvider)
           [Tick; Pause "acc"; Tick] firstInFlight _ "acc" eq_refl).
Defined.

Lemma stats_count_results_by_status_witness :
  reachable runCompleted
  ∧ success (stats (getJob "acc" runCompleted)) = 2
  ∧ fail (stats (getJob "acc" runCompleted)) = 1
  ∧ length (filteredResults filter_success (Some (getJob "acc" runCompleted))) = 2
  ∧ length (filteredResults filter_error (Some (getJob "acc" runCompleted))) = 1.
Proof.
  split; [exact runCompleted_reachable|].
  destruct (stats_count_results_by_status (P := BulkJobProvider) runCompleted "acc"
              runCompleted_reachable) as [H1 H2].
  assert (E : success (stats (getJob "acc" runCompleted)) = 2
              ∧ fail (stats (getJob "acc" runCompleted)) = 1)
    by (vm_compute; split; reflexivity).
  destruct E as [E1 E2]. rewrite <- H1, <- H2. auto.
Defined.

Lemma idle_exactly_until_first_valid_start_witness :
  reachable firstInFlight
  ∧ (status (getJob "acc" firstInFlight) = idle ↔ controllers firstInFlight !! "acc" = None)
  ∧ (controllers firstInFlight !! "other" = None ↔
     ∀ k L, loops firstInFlight !! k = Some L → accountId L ≠ "other").
Proof.
  split; [exact firstInFlight_reachable|]. split.
  - exact (proj1 (idle_exactly_until_first_valid_start (P := BulkJobProvider)
                    firstInFlight "acc" firstInFlight_reachable)).
  - exact (proj2 (idle_exactly_until_first_valid_start (P := BulkJobProvider)
                    firstInFlight "other" firstInFlight_reachable)).
Defined.

Lemma loop_sends_each_recipient_once_in_order_witness :
  reachable firstDelay
  ∧ ∃ L, loops firstDelay !! 0 = Some L
         ∧ sentBy 0 firstDelay = take (attempted L) (planned L)
         ∧ attempted L ≤ length (emails L)
         ∧ length (sentBy 0 firstDelay) = attempted L.
Proof.
  split; [exact firstDelay_reachable|].
  destruct (loops firstDelay !! 0) as [L|] eqn:HL; [|vm_compute in HL; discriminate HL].
  exists L. split; [reflexivity|].
  exact (loop_sends_each_recipient_once_in_order (P := BulkJobProvider)
           firstDelay 0 L firstDelay_reachable HL).
Defined.

Lemma results_log_the_latest_run_witness :
  exclusive wholeRun mounted = true
  ∧ run wholeRun mounted = Some runCompleted
  ∧ ∃ L, latest 0 L runCompleted
         ∧ List.map SendResult.email (results (getJob (accountId L) runCompleted))
           = reverse (take (current (progress (getJob (accountId L) runCompleted)))
                        (emails L))
         ∧ NoDup (List.map SendResult.id (results (getJob (accountId L) runCompleted)))
         ∧ total (progress (getJob (accountId L) runCompleted)) = length (emails L).
Proof.
  assert (Hex : exclusive wholeRun mounted = true) by (vm_compute; reflexivity).
  assert (Hr : run wholeRun mounted = Some runCompleted) by (vm_compute; reflexivity).
  split; [exact Hex|]. split; [exact Hr|].
  destruct (loops runCompleted !! 0) as [L|] eqn:HL; [|vm_compute in HL; discriminate HL].
  assert (Hla : latest 0 L runCompleted).
  { split; [exact HL|]. intros [|[|k']] L' Hlt H'; [lia|vm_compute in H'; discriminate..]. }
  exists L. split; [exact Hla|].
  destruct (results_log_the_latest_run (P := BulkJobProvider) wholeRun runCompleted 0 L
              Hex Hr Hla) as (H1 & _ & H3 & H4 & _).
  auto.
Defined.

Lemma completed_means_every_recipient_is_done_witness :
  exclusive wholeRun mounted = true
  ∧ run wholeRun mounted = Some runCompleted
  ∧ status (getJob "acc" runCompleted) = completed
  ∧ current (progress (getJob "acc" runCompleted)) = total (progress (getJob "acc" runCompleted))
  ∧ length (results (getJob "acc" runCompleted)) = total (progress (getJob "acc" runCompleted)).
Proof.
  assert (Hex : exclusive wholeRun mounted = true) by (vm_compute; reflexivity).
  assert (Hr : run wholeRun mounted = Some runCompleted) by (vm_compute; reflexivity).
  assert (Hst : status (getJob "acc" runCompleted) = completed) by (vm_compute; reflexivity).
  split; [exact Hex|]. split; [exact Hr|]. split; [exact Hst|].
  destruct (completed_means_every_recipient_is_done (P := BulkJobProvider)
              wholeRun runCompleted "acc" Hex Hr Hst) as (H1 & H2 & _).
  auto.
Defined.

Lemma stop_lasts_until_the_next_start_witness :
  reachable firstDelay
  ∧ controllers firstDelay !! "acc" = Some 0
  ∧ ∃ w', run [Pause "acc"; Resume "acc"; Elapse 1000; Wake 0] (stopJob "acc" firstDelay)
          = Some w'
          ∧ flag isStopped (Some 0) w' = true
          ∧ flag isStopped (controllers w' !! "acc") w' = true.
Proof.
  assert (Hc : controllers firstDelay !! "acc" = Some 0) by (vm_compute; reflexivity).
  split; [exact firstDelay_reachable|]. split; [exact Hc|].
  destruct (run [Pause "acc"; Resume "acc"; Elapse 1000; Wake 0] (stopJob "acc" firstDelay))
    as [w'|] eqn:Hr; [|vm_compute in Hr; discriminate Hr].
  exists w'. split; [reflexivity|].
  destruct (stop_lasts_until_the_next_start (P := BulkJobProvider) "acc" 0
              [Pause "acc"; Resume "acc"; Elapse 1000; Wake 0] firstDelay w'
              firstDelay_reachable Hc Hr) as (_ & _ & H3 & H4).
  split; [exact H3|]. apply H4.
  intros Hin. repeat (apply elem_of_cons in Hin as [Hin|Hin]; [discriminate Hin|]).
  apply elem_of_nil in Hin. exact Hin.
Defined.

Lemma accounts_do_not_interfere_witness :
  reachable firstInFlight
  ∧ step firstInFlight (Edit "other" [F_delay 5]) =
      Some (updateJobData "other" [F_delay 5] firstInFlight)
  ∧ jobs (updateJobData "other" [F_delay 5] firstInFlight) !! "acc"
    = jobs firstInFlight !! "acc"
  ∧ controllers (updateJobData "other" [F_delay 5] firstInFlight) !! "acc"
    = controllers firstInFlight !! "acc".
Proof.
  split; [exact firstInFlight_reachable|]. split; [reflexivity|].
  destruct (accounts_do_not_interfere (P := BulkJobProvider) firstInFlight
              (Edit "other" [F_delay 5]) _ "acc" firstInFlight_reachable eq_refl
              ltac:(discriminate) eq_refl) as (H1 & H2 & _).
  split; [exact H1|exact H2].
Defined.

Lemma export_has_one_line_per_result_witness :
  reachable runCompleted
  ∧ match handleExport filter_all (Some (getJob "acc" runCompleted))
            "2026-01-01T00:00:00.000Z" with
    | (notice, Some file) =>
        filteredResults filter_all (Some (getJob "acc" runCompleted)) ≠ []
        ∧ split newline (textContent file)
          = List.map exportLine
              (filteredResults filter_all (Some (getJob "acc" runCompleted)))
        ∧ fst notice = toast_success
    | (notice, None) =>
        filteredResults filter_all (Some (getJob "acc" runCompleted)) = []
        ∧ notice = (toast_error, "No logs to export")
    end.
Proof.
  split; [exact runCompleted_reachable|].
  exact (export_has_one_line_per_result (P := BulkJobProvider) runCompleted "acc"
           filter_all "2026-01-01T00:00:00.000Z" runCompleted_reachable).
Defined.

Lemma page_buttons_act_when_shown_witness :
  reachable trackInFlight
  ∧ isJobActive (getJob "acc" trackInFlight) = true
  ∧ status (getJob "acc" (onPauseToggle (Some "acc") trackInFlight)) = paused
  ∧ status (getJob "acc" (onStop (Some "acc") trackInFlight)) = stopped.
Proof.
  assert (Hact : isJobActive (getJob "acc" trackInFlight) = true)
    by (vm_compute; reflexivity).
  split; [exact trackInFlight_reachable|]. split; [exact Hact|].
  destruct (proj1 (page_buttons_act_when_shown trackInFlight "acc"
                     trackInFlight_reachable) Hact) as (H1 & H2 & _).
  split; [|exact H2].
  rewrite H1. vm_compute. reflexivity.
Defined.

Lemma pause_holds_the_loop_witness :
  ∃ L, loops pausedInDelay !! 0 = Some L
       ∧ heap pausedInDelay !! 0 = Some {| isPaused := true; isStopped := false |}
       ∧ ctrl L = Some 0 ∧ pc L = AwaitCountdownSecond 2 1000
       ∧ wake 0 pausedInDelay
         = Some (store 0
                   (with_pc (AwaitCountdownPausePoll (2 - 1) (now pausedInDelay + 500)) L,
                    updateJobData (accountId L) [F_countdown (2 - 1)] pausedInDelay)).
Proof.
  assert (HL : ∃ L, loops pausedInDelay !! 0 = Some L ∧ ctrl L = Some 0
                    ∧ pc L = AwaitCountdownSecond 2 1000)
    by (vm_compute; eexists; repeat split).
  destruct HL as (L & HL & Hc & Hpc).
  assert (Hh : heap pausedInDelay !! 0 = Some {| isPaused := true; isStopped := false |})
    by reflexivity.
  assert (Hdue : (1000 ≤ now pausedInDelay)%N) by (vm_compute; discriminate).
  exists L. split; [exact HL|]. split; [exact Hh|]. split; [exact Hc|].
  split; [exact Hpc|].
  exact (proj1 (proj2 (proj2 (pause_holds_the_loop (P := BulkJobProvider)
                                pausedInDelay 0 L 0 HL Hh)))
           2%Z 1000%N Hc Hpc Hdue ltac:(lia)).
Defined.

Lemma pause_does_not_hold_at_the_end_witness :
  ∃ L, loops pausedInLastSecond !! 0 = Some L
       ∧ heap pausedInLastSecond !! 0 = Some {| isPaused := true; isStopped := false |}
       ∧ pc L = AwaitCountdownSecond 1 1000
       ∧ ∃ w' L', wake 0 pausedInLastSecond = Some w' ∧ loops w' !! 0 = Some L'
                  ∧ pc L' = AwaitFetch
                  ∧ status (getJob (accountId L) w') = processing
                  ∧ flag isPaused (ctrl L') w' = true.
Proof.
  assert (HL : ∃ L, loops pausedInLastSecond !! 0 = Some L ∧ ctrl L = Some 0
                    ∧ pc L = AwaitCountdownSecond 1 1000
                    ∧ emails L !! i L = Some "b@x.com")
    by (vm_compute; eexists; repeat split).
  destruct HL as (L & HL & Hc & Hpc & Hem).
  assert (Hh : heap pausedInLastSecond !! 0
               = Some {| isPaused := true; isStopped := false |}) by reflexivity.
  assert (Hdue : (1000 ≤ now pausedInLastSecond)%N) by (vm_compute; discriminate).
  exists L. split; [exact HL|]. split; [exact Hh|]. split; [exact Hpc|].
  destruct (proj1 (pause_does_not_hold_at_the_end (P := BulkJobProvider)
                     pausedInLastSecond 0 L 0 HL Hh)
              1%Z 1000%N "b@x.com" Hc Hpc Hdue ltac:(lia) Hem)
    as (w' & L' & Hw & HL' & Hpc' & _ & Hst & _ & Hp).
  exists w', L'. auto.
Defined.

Lemma proxy_answers_ok_only_when_the_provider_accepted_witness :
  let accounts :=
    Some [{| Proxy.id := "acc"; Proxy.secretKey := "key";
             Proxy.fromEmail := Some "me@x.com" |}] in
  let axios := fun _ : Proxy.Call => Proxy.Rejected (Some (422, None)) in
  let r := POST_send_email "acc" "a@x.com" "Hello" "<p>Hi</p>" (Some "") (Some "") in
  (∀ call status data,
      axios call = Proxy.Rejected (Some (status, data)) → ¬ (200 ≤ status ≤ 299))
  ∧ length (snd (MailerSend.serve accounts axios r)) = 1
  ∧ Proxy.code (fst (MailerSend.serve accounts axios r)) = 422
  ∧ failed (Proxy.received (fst (MailerSend.serve accounts axios r))).
Proof.
  intros accounts axios r.
  assert (Hrej : ∀ call status data,
             axios call = Proxy.Rejected (Some (status, data)) → ¬ (200 ≤ status ≤ 299)).
  { intros call status data [= <- _]. lia. }
  split; [exact Hrej|].
  pose proof (proj1 (proj2 (proxy_answers_ok_only_when_the_provider_accepted
                              accounts axios Hrej r))) as H.
  destruct (MailerSend.serve accounts axios r) as [reply calls] eqn:E.
  vm_compute in E. injection E as <- <-.
  split; [reflexivity|]. split; [reflexivity|].
  apply (proj2 H). intros (call & st & m & d & _ & Hc). discriminate Hc.
Defined.

Lemma run_requests_pass_the_parameter_check_witness :
  reachable firstInFlight
  ∧ ∃ r, (0, r) ∈ requests firstInFlight
         ∧ ∀ accounts axios,
             fst (Emailit.serve accounts axios r) ≠ missingParameters
             ∧ fst (MailerSend.serve accounts axios r) ≠ missingParameters.
Proof.
  split; [exact firstInFlight_reachable|].
  assert (Hq : ∃ r, requests firstInFlight = [(0, r)]) by (vm_compute; eauto).
  destruct Hq as [r Hq].
  assert (Hin : (0, r) ∈ requests firstInFlight)
    by (rewrite Hq; apply list_elem_of_here).
  exists r. split; [exact Hin|].
  destruct (proj1 run_requests_pass_the_parameter_check firstInFlight 0 r
              firstInFlight_reachable Hin)
    as (L & to & HL & _ & _ & _ & _ & _ & _ & H).
  apply H. vm_compute in HL. injection HL as <-. discriminate.
Defined.

Lemma results_are_the_answers_of_the_proxy_witness :
  exclusive twoAccepted mounted = true
  ∧ answered (fun _ => Responded true JNull) twoAccepted mounted
  ∧ run twoAccepted mounted = Some twoDone
  ∧ ∃ L, latest 0 L twoDone
         ∧ status (getJob (accountId L) twoDone) = completed
         ∧ results (getJob (accountId L) twoDone)
           = transcript (fun _ => Responded true JNull) L (length (emails L)).
Proof.
  assert (Hex : exclusive twoAccepted mounted = true) by (vm_compute; reflexivity).
  assert (Hr : run twoAccepted mounted = Some twoDone) by (vm_compute; reflexivity).
  assert (Han : answered (fun _ => Responded true JNull) twoAccepted mounted).
  { vm_compute. repeat split. }
  split; [exact Hex|]. split; [exact Han|]. split; [exact Hr|].
  destruct (loops twoDone !! 0) as [L|] eqn:HL; [|vm_compute in HL; discriminate HL].
  assert (Hla : latest 0 L twoDone).
  { split; [exact HL|]. intros [|[|k']] L' Hlt H'; [lia|vm_compute in H'; discriminate..]. }
  assert (Hst : status (getJob (accountId L) twoDone) = completed).
  { vm_compute in HL. injection HL as <-. vm_compute. reflexivity. }
  exists L. split; [exact Hla|]. split; [exact Hst|].
  exact (proj2 (results_are_the_answers_of_the_proxy (P := BulkJobProvider)
                  (fun _ => Responded true JNull) twoAccepted twoDone 0 L
                  Hex Han Hr Hla) Hst).
Defined.

Lemma track_runs_fail_at_the_MailerSend_proxy_witness :
  answered (fun r => Proxy.received (fst (MailerSend.serve None (fun _ => Proxy.Rejected None) r)))
    trackRefused mounted
  ∧ ∃ w, run trackRefused mounted = Some w
         ∧ length (results (getJob "acc" w)) = 2
         ∧ Forall (fun r => SendResult.status r = Error) (results (getJob "acc" w))
         ∧ success (stats (getJob "acc" w)) = 0.
Proof.
  assert (Han : answered
                  (fun r => Proxy.received
                              (fst (MailerSend.serve None (fun _ => Proxy.Rejected None) r)))
                  trackRefused mounted).
  { vm_compute. repeat split. }
  split; [exact Han|].
  assert (E : (w ← run trackRefused mounted; Some (length (results (getJob "acc" w))))
              = Some 2) by (vm_compute; reflexivity).
  destruct (run trackRefused mounted) as [w|] eqn:Hr; [|discriminate E].
  cbn in E. injection E as E.
  exists w. split; [reflexivity|]. split; [exact E|].
  exact (track_runs_fail_at_the_MailerSend_proxy None (fun _ => Proxy.Rejected None)
           trackRefused w "acc" Han Hr).
Defined.
